(** * kafka-rebalance: the greedy planner and the reassignment document

    A shallow embedding of [lib/rebalance.py] (the planner) and of the
    document builder of [lib/connections.py], with the properties the
    specification states about them.

    Python objects live in a store: nodes, items and brokers are
    references (numbers), their fields are read through the store, and the
    list [nodes] that [plan] receives and sorts in place is a list of node
    references; [is] and the [==] of these objects compare references.
    Python exceptions are results [Raise e].  Sizes and capacities are
    Python ints ([Z]); the quotients, thresholds and variances are Python
    floats, kept behind the interface [Float] below.

    A generator is the list of what it yields.  [planned_items] and
    [planned_used] are [None] until [plan] assigns the first in its first
    loop and [resort] the second, before anything reads them: the model
    keeps a list and a number there.  [Broker.contains_partition] reads
    the [planned_items] of every disk of a broker: on a disk that is not
    in the list given to [plan] they are still [None], as its constructor
    left them, and reading them raises [TypeError].  Python ints are
    unbounded and floats are not: a quotient of two ints that is beyond
    the range of floats raises [OverflowError].
    [random.choice] draws from a sequence of draws given as a parameter.

    Of the code that talks to the cluster, the loop of
    [Disk.fetch_replicas] over the partitions and the verdict of
    [exec_reassign] are embedded: the directories found on the disk are a
    parameter of the first, and the host of the second is a record of
    what its calls return or raise, the polls numbered in order. *)

From Stdlib Require Import QArith Qcanon Qcabs Ascii Sorted.
From stdpp Require Import base numbers list strings gmap pretty.

Set Default Proof Using "Type".
Open Scope Z_scope.

(** ** Exceptions *)

Inductive exn : Set :=
  | RuntimeError | StatisticsError | TypeError | AttributeError
  | ValueError | ZeroDivisionError | IndexError | KeyError | UnboundLocalError
  | OverflowError.

Inductive result (A : Type) : Type :=
  | Ok (a : A)
  | Raise (e : exn).
Arguments Ok {A} a.
Arguments Raise {A} e.

#[export] Instance result_ret : MRet result := fun A a => Ok a.
#[export] Instance result_bind : MBind result := fun A B f r =>
  match r with
  | Ok a => f a
  | Raise e => Raise e
  end.

(** ** Floats

    What the planner needs from Python's float arithmetic and from
    [statistics.pvariance], which is not code of this repository.
    [truediv a b] is the float [a / b] gives on ints with [b] non-zero
    and a quotient in the range of floats; [overflows a b] tells that the
    quotient is beyond that range, where [a / b] raises [OverflowError].
    [fsub], [fabs] and [flt] are [-], [abs] and [<].  [pvariance_data] is
    the variance [statistics.pvariance] returns, and [pvariance_overflows]
    tells that it has none to return because a square or the result is
    beyond the range of floats, where it raises [OverflowError].

    The laws: neither the variance nor its overflow depends on the order
    of the data ([statistics] sums exact fractions of them); a quotient
    between 0 and 1 is in the range of floats, and so is the variance of
    such quotients. *)

Class Float := {
  F : Type;
  truediv : Z → Z → F;
  overflows : Z → Z → bool;
  fsub : F → F → F;
  fabs : F → F;
  flt : F → F → bool;
  pvariance_data : list F → F;
  pvariance_overflows : list F → bool;
  pvariance_perm : ∀ l k, l ≡ₚ k → pvariance_data l = pvariance_data k;
  pvariance_overflows_perm :
    ∀ l k, l ≡ₚ k → pvariance_overflows l = pvariance_overflows k;
  overflows_unit : ∀ a b, 0 ≤ a ≤ b → overflows a b = false;
  pvariance_unit :
    ∀ l, Forall (fun x => ∃ a b, 0 ≤ a ≤ b ∧ b ≠ 0 ∧ x = truediv a b) l →
         pvariance_overflows l = false;
}.

(** [a / b] on two ints. *)
Definition int_truediv `{Float} (a b : Z) : result F :=
  if decide (b = 0) then Raise ZeroDivisionError
  else if overflows a b then Raise OverflowError
  else Ok (truediv a b).

(** [a >= b] and [a > b] on floats that are numbers. *)
Definition fge `{Float} (a b : F) : bool := negb (flt a b).
Definition fgt `{Float} (a b : F) : bool := flt b a.

(** [statistics.pvariance(data)]: at least one data point is required. *)
Definition pvariance `{Float} (data : list F) : result F :=
  match data with
  | [] => Raise StatisticsError
  | _ => if pvariance_overflows data then Raise OverflowError
         else Ok (pvariance_data data)
  end.

(** ** The placement model *)

Definition node_ref := nat.
Definition item_ref := nat.
Definition broker_ref := nat.

(** [Node], with the fields [Disk] adds. *)
Record Node := mkNode {
  capacity : Z;
  initial_items : list item_ref;
  planned_items : list item_ref;
  planned_used : Z;
  broker : broker_ref;
  mount_point : string;
}.

(** [Item], with the fields [PartitionReplica] adds. *)
Record Item := mkItem {
  size : Z;
  initial_owner : option node_ref;
  planned_owner : option node_ref;
  topic : string;
  id : Z;
  replica_id : nat;
  is_leader : bool;
}.

Record Broker := mkBroker {
  broker_id : Z;
  disks : list node_ref;
}.

Record PlanSettings `{Float} := mkPlanSettings {
  max_iters : nat;
  node_fraction_threshold : F;
  item_fraction_threshold : option F;
  swap : bool;
}.
Arguments mkPlanSettings {_} _ _ _ _.

(** The store, and the list object [nodes] that [plan] is given. *)
Record State := mkState {
  nodes : list node_ref;
  node_at : node_ref → Node;
  item_at : item_ref → Item;
  broker_at : broker_ref → Broker;
}.

Definition upd {A} (f : nat → A) (k : nat) (v : A) : nat → A :=
  fun j => if decide (j = k) then v else f j.

Definition set_node (st : State) (n : node_ref) (v : Node) : State :=
  mkState (nodes st) (upd (node_at st) n v) (item_at st) (broker_at st).

Definition set_item (st : State) (i : item_ref) (v : Item) : State :=
  mkState (nodes st) (node_at st) (upd (item_at st) i v) (broker_at st).

Definition set_nodes (st : State) (ns : list node_ref) : State :=
  mkState ns (node_at st) (item_at st) (broker_at st).

Definition node_with_planned (nd : Node) (items : list item_ref) (used : Z) : Node :=
  mkNode (capacity nd) (initial_items nd) items used (broker nd) (mount_point nd).

Definition node_with_planned_items (nd : Node) (items : list item_ref) : Node :=
  node_with_planned nd items (planned_used nd).

Definition item_with_owners (it : Item) (io po : option node_ref) : Item :=
  mkItem (size it) io po (topic it) (id it) (replica_id it) (is_leader it).

(** A [for] loop whose body may raise. *)
Fixpoint for_each {A S} (body : S → A → result S) (l : list A) (s : S) : result S :=
  match l with
  | [] => Ok s
  | x :: l' => s' ← body s x; for_each body l' s'
  end.

(** [list.sort(key=..., reverse=True)]: stable, largest key first. *)
Fixpoint insert_desc {A K} (lt : K → K → bool) (key : A → K) (x : A) (l : list A) : list A :=
  match l with
  | [] => [x]
  | y :: l' => if lt (key x) (key y) then y :: insert_desc lt key x l' else x :: l
  end.

Definition sort_desc {A K} (lt : K → K → bool) (key : A → K) (l : list A) : list A :=
  foldr (insert_desc lt key) [] l.

(** [list.remove(x)]: the first occurrence goes, [ValueError] without one. *)
Fixpoint list_remove (x : nat) (l : list nat) : result (list nat) :=
  match l with
  | [] => Raise ValueError
  | y :: l' => if decide (y = x) then Ok l' else l'' ← list_remove x l'; Ok (y :: l'')
  end.

(** ** lib/rebalance.py *)

Section Planner.
Context `{FL : Float}.

(** [Node.planned_fraction_used]: [planned_used / capacity]. *)
Definition planned_fraction_used (st : State) (n : node_ref) : result F :=
  let nd := node_at st n in
  int_truediv (planned_used nd) (capacity nd).

Definition sum_sizes (st : State) (l : list item_ref) : Z :=
  foldr (fun i acc => size (item_at st i) + acc) 0 l.

(** [Node.planned_sort] *)
Definition planned_sort (st : State) (n : node_ref) : State :=
  let nd := node_at st n in
  let items := sort_desc Z.ltb (fun i => size (item_at st i)) (planned_items nd) in
  set_node st n (node_with_planned nd items (sum_sizes st items)).

Definition has_moved (it : Item) : bool :=
  match planned_owner it with Some _ => true | None => false end.

Definition current_owner (it : Item) : option node_ref :=
  match planned_owner it with
  | Some n => Some n
  | None => initial_owner it
  end.

(** [Item.can_move_to] *)
Definition Item_can_move_to (st : State) (it : Item) (n : node_ref) : bool :=
  if decide (initial_owner it = Some n) then false
  else if planned_used (node_at st n) + size it >? capacity (node_at st n) then false
  else true.

Definition initial_partition_replicas (st : State) (b : broker_ref) : list item_ref :=
  concat ((fun d => initial_items (node_at st d)) <$> disks (broker_at st b)).

Definition planned_partition_replicas (st : State) (b : broker_ref) : list item_ref :=
  concat ((fun d => planned_items (node_at st d)) <$> disks (broker_at st b)).

Definition is_replica_of (st : State) (t : string) (partition_id : Z) (r : item_ref) : bool :=
  bool_decide (topic (item_at st r) = t) && bool_decide (id (item_at st r) = partition_id).

(** The second loop of [Broker.contains_partition], over the
    [planned_items] of the broker's disks.  Only [plan] assigns
    [planned_items]: on a disk that is not in the list [plan] was given
    it is still [None], and the loop over it raises [TypeError]. *)
Fixpoint contains_planned (st : State) (t : string) (partition_id : Z)
    (ds : list node_ref) : result bool :=
  match ds with
  | [] => Ok false
  | disk :: rest =>
      if bool_decide (disk ∈ nodes st) then
        if existsb (is_replica_of st t partition_id) (planned_items (node_at st disk))
        then Ok true
        else contains_planned st t partition_id rest
      else Raise TypeError
  end.

(** [Broker.contains_partition] *)
Definition contains_partition (st : State) (b : broker_ref) (t : string) (partition_id : Z)
    : result bool :=
  if existsb (is_replica_of st t partition_id) (initial_partition_replicas st b)
  then Ok true
  else contains_planned st t partition_id (disks (broker_at st b)).

(** [PartitionReplica.can_move_to], the method the planner's items answer
    with. *)
Definition can_move_to (st : State) (i : item_ref) (disk : node_ref) : result bool :=
  let it := item_at st i in
  if is_leader it then Ok false
  else if negb (Item_can_move_to st it disk) then Ok false
  else
    match initial_owner it with
    | None => Raise AttributeError
    | Some o =>
        if decide (broker (node_at st disk) ≠ broker (node_at st o)) then
          held ← contains_partition st (broker (node_at st disk)) (topic it) (id it);
          Ok (negb held)
        else Ok true
    end.

(** The first loop of [plan]. *)
Definition init_item (n : node_ref) (st : State) (i : item_ref) : result State :=
  let it := item_at st i in
  match initial_owner it with
  | None => Ok (set_item st i (item_with_owners it (Some n) None))
  | Some o =>
      if decide (o = n) then Ok (set_item st i (item_with_owners it (Some o) None))
      else Raise RuntimeError
  end.

Definition init_node (st : State) (n : node_ref) : result State :=
  let nd := node_at st n in
  let st1 := set_node st n (node_with_planned_items nd (initial_items nd)) in
  for_each (init_item n) (initial_items nd) st1.

Definition plan_init (st : State) : result State :=
  for_each init_node (nodes st) st.

(** [move] *)
Definition move (st : State) (item : item_ref) (dest_node : node_ref) : result State :=
  match current_owner (item_at st item) with
  | None => Raise AttributeError
  | Some src_node =>
      let src := node_at st src_node in
      items ← list_remove item (planned_items src);
      let st1 := set_node st src_node (node_with_planned_items src items) in
      let st2 := set_item st1 item
                   (item_with_owners (item_at st1 item)
                      (initial_owner (item_at st1 item)) (Some dest_node)) in
      let dest := node_at st2 dest_node in
      Ok (set_node st2 dest_node
            (node_with_planned_items dest (planned_items dest ++ [item])))
  end.

(** [resort]: the keys of [nodes.sort] are all computed before the list is
    reordered. *)
Definition resort (st : State) : result State :=
  let st1 := foldl planned_sort st (nodes st) in
  keys ← mapM (planned_fraction_used st1) (nodes st1);
  Ok (set_nodes st1 (snd <$> sort_desc flt fst (zip keys (nodes st1)))).

Definition percentage (st : State)
    (include_items exclude_items : list (option node_ref * item_ref))
    (node : node_ref) : result F :=
  let the_sum := planned_used (node_at st node) in
  let the_sum :=
    foldl (fun s p => if decide (p.1 = Some node) then s - size (item_at st p.2) else s)
          the_sum exclude_items in
  let the_sum :=
    foldl (fun s p => if decide (p.1 = Some node) then s + size (item_at st p.2) else s)
          the_sum include_items in
  int_truediv the_sum (capacity (node_at st node)).

(** [percent_used_variance(nodes, include_items, exclude_items)] *)
Definition percent_used_variance (st : State)
    (include_items exclude_items : list (option node_ref * item_ref)) : result F :=
  data ← mapM (percentage st include_items exclude_items) (nodes st);
  pvariance data.

(** [abs(a - b) < threshold] *)
Definition too_similar (a b threshold : F) : bool :=
  flt (fabs (fsub a b)) threshold.

Definition unmoved (st : State) (l : list item_ref) : list item_ref :=
  filter (fun i => has_moved (item_at st i) = false) l.

(** [iter_large_items(settings, nodes_by_size)], as the list of what the
    generator yields.  Its body reads what no step changes before the
    round is over, and divides by capacities [resort] has divided by. *)
Fixpoint iter_large_nodes (st : State) (threshold : F) (last_node : node_ref)
    (ns : list node_ref) : result (list item_ref) :=
  match ns with
  | [] => Ok []
  | node :: rest =>
      a ← planned_fraction_used st last_node;
      b ← planned_fraction_used st node;
      if too_similar a b threshold then Ok []
      else
        more ← iter_large_nodes st threshold last_node rest;
        Ok (unmoved st (planned_items (node_at st node)) ++ more)
  end.

Definition iter_large_items (settings : PlanSettings) (st : State)
    (nodes_by_size : list node_ref) : result (list item_ref) :=
  match last nodes_by_size with
  | None => Ok []
  | Some last_node =>
      iter_large_nodes st (node_fraction_threshold settings) last_node nodes_by_size
  end.

(** A Python value, for the one call whose arguments are not what the
    callee's parameters expect. *)
Inductive pyobj :=
  | PySettings (s : PlanSettings)
  | PyNodeList (l : list node_ref)
  | PyNode (n : node_ref)
  | PyItem (i : item_ref).

Definition py_is_node (o : pyobj) (n : node_ref) : bool :=
  match o with
  | PyNode m => bool_decide (m = n)
  | _ => false
  end.

Fixpoint iter_small_nodes (st : State) (large_node : pyobj) (ns : list node_ref)
    : list item_ref :=
  match ns with
  | [] => []
  | node :: rest =>
      if py_is_node large_node node then []
      else unmoved st (reverse (planned_items (node_at st node)))
             ++ iter_small_nodes st large_node rest
  end.

(** [iter_small_items(settings, nodes_by_size, large_node)]:
    [reversed(nodes_by_size)] needs a sequence. *)
Definition iter_small_items (st : State) (settings nodes_by_size large_node : pyobj)
    : result (list item_ref) :=
  match nodes_by_size with
  | PyNodeList ns => Ok (iter_small_nodes st large_node (reverse ns))
  | _ => Raise TypeError
  end.

Definition owner_fraction_used (st : State) (i : item_ref) : result F :=
  match current_owner (item_at st i) with
  | None => Raise AttributeError
  | Some o => planned_fraction_used st o
  end.

(** The loop of [plan_step_move], over [reversed(nodes)]. *)
Fixpoint plan_step_move_loop (st : State) (settings : PlanSettings)
    (current_pvariance : F) (item : item_ref) (ns : list node_ref)
    : result (option (list item_ref) * State) :=
  match ns with
  | [] => Ok (None, st)
  | node :: rest =>
      a ← planned_fraction_used st node;
      b ← owner_fraction_used st item;
      if too_similar a b (node_fraction_threshold settings)
      then plan_step_move_loop st settings current_pvariance item rest
      else
        ok ← can_move_to st item node;
        if negb ok then plan_step_move_loop st settings current_pvariance item rest
        else
          moved_pvariance ←
            percent_used_variance st
              [(Some node, item)] [(initial_owner (item_at st item), item)];
          if fge moved_pvariance current_pvariance
          then plan_step_move_loop st settings current_pvariance item rest
          else
            st' ← move st item node;
            Ok (Some [item], st')
  end.

Definition plan_step_move (st : State) (settings : PlanSettings)
    (current_pvariance : F) (item : item_ref)
    : result (option (list item_ref) * State) :=
  plan_step_move_loop st settings current_pvariance item (reverse (nodes st)).

(** [item.store]: neither [Item] nor [PartitionReplica] has the attribute. *)
Definition Item_store (it : Item) : result Z := Raise AttributeError.

(** [item.can_move_to(node)] where [node] was read from a field that may
    hold [None]. *)
Definition can_move_to_opt (st : State) (i : item_ref) (node : option node_ref)
    : result bool :=
  match node with
  | Some n => can_move_to st i n
  | None =>
      if is_leader (item_at st i) then Ok false
      else if decide (initial_owner (item_at st i) = None) then Ok false
      else Raise AttributeError
  end.

Definition move_opt (st : State) (i : item_ref) (dest_node : option node_ref)
    : result State :=
  match dest_node with
  | Some n => move st i n
  | None => Raise AttributeError
  end.

(** The loop of [plan_step_swap] over the small items. *)
Fixpoint plan_step_swap_loop (st : State) (settings : PlanSettings)
    (current_pvariance : F) (large_item : item_ref) (smalls : list item_ref)
    : result (option (list item_ref) * State) :=
  match smalls with
  | [] => Ok (None, st)
  | small_item :: rest =>
      let large := item_at st large_item in
      let small := item_at st small_item in
      small_store ← Item_store small;
      large_store ← Item_store large;
      if small_store >=? large_store
      then plan_step_swap_loop st settings current_pvariance large_item rest
      else
        size_fraction ←
          int_truediv (Z.min (size large) (size small)) (Z.max (size large) (size small));
          match item_fraction_threshold settings with
          | None => Raise TypeError
          | Some item_threshold =>
              if fgt size_fraction item_threshold
              then plan_step_swap_loop st settings current_pvariance large_item rest
              else
                a ← owner_fraction_used st large_item;
                b ← owner_fraction_used st small_item;
                if too_similar a b (node_fraction_threshold settings)
                then plan_step_swap_loop st settings current_pvariance large_item rest
                else
                  small_ok ← can_move_to_opt st small_item (initial_owner large);
                  large_ok ←
                    (if small_ok
                     then can_move_to_opt st large_item (initial_owner small)
                     else Ok false);
                  if negb small_ok || negb large_ok
                  then plan_step_swap_loop st settings current_pvariance large_item rest
                  else
                    swapped_pvariance ←
                      percent_used_variance st
                        [(initial_owner large, small_item);
                         (initial_owner small, large_item)]
                        [(initial_owner large, large_item);
                         (initial_owner small, small_item)];
                    if fge swapped_pvariance current_pvariance
                    then plan_step_swap_loop st settings current_pvariance large_item rest
                    else
                      st1 ← move_opt st large_item (current_owner small);
                      st2 ← move_opt st1 small_item
                              (current_owner (item_at st1 large_item));
                      Ok (Some [large_item; small_item], st2)
          end
  end.

(** [plan_step_swap]: the call is
    [iter_small_items(nodes, settings, large_item)]. *)
Definition plan_step_swap (st : State) (settings : PlanSettings)
    (current_pvariance : F) (large_item : item_ref)
    : result (option (list item_ref) * State) :=
  smalls ← iter_small_items st
              (PyNodeList (nodes st)) (PySettings settings) (PyItem large_item);
  plan_step_swap_loop st settings current_pvariance large_item smalls.

Definition plan_step_t : Type :=
  State → PlanSettings → F → item_ref → result (option (list item_ref) * State).

Fixpoint plan_one_loop (plan_step : plan_step_t) (st : State) (settings : PlanSettings)
    (current_pvariance : F) (larges : list item_ref)
    : result (option (list item_ref) * State) :=
  match larges with
  | [] => Ok (None, st)
  | large_item :: rest =>
      r ← plan_step st settings current_pvariance large_item;
      match r.1 with
      | Some moved_items => Ok (Some moved_items, r.2)
      | None => plan_one_loop plan_step r.2 settings current_pvariance rest
      end
  end.

(** [plan_one] *)
Definition plan_one (st : State) (settings : PlanSettings) (plan_step : plan_step_t)
    : result (option (list item_ref) * State) :=
  st1 ← resort st;
  current_pvariance ← percent_used_variance st1 [] [];
  larges ← iter_large_items settings st1 (nodes st1);
  plan_one_loop plan_step st1 settings current_pvariance larges.

(** What a run of [plan] leaves: the list it returns, the store, and the
    number of rounds ([plan_one] calls) it made. *)
Record PlanRun := mkPlanRun {
  all_moves : list item_ref;
  final : State;
  rounds : nat;
}.

Definition plan_step_of (settings : PlanSettings) : plan_step_t :=
  if swap settings then plan_step_swap else plan_step_move.

(** The loop [for _ in range(settings.max_iters)] of [plan]. *)
Fixpoint plan_loop (iters : nat) (settings : PlanSettings) (run : PlanRun)
    : result PlanRun :=
  match iters with
  | O => Ok run
  | S iters' =>
      r ← plan_one (final run) settings (plan_step_of settings);
      match r.1 with
      | Some (m :: ms) =>
          plan_loop iters' settings
            (mkPlanRun (all_moves run ++ m :: ms) r.2 (S (rounds run)))
      | _ => Ok (mkPlanRun (all_moves run) r.2 (S (rounds run)))
      end
  end.

(** [plan(nodes, settings)] *)
Definition plan (st : State) (settings : PlanSettings) : result PlanRun :=
  st0 ← plan_init st;
  plan_loop (max_iters settings) settings (mkPlanRun [] st0 0).

(** The variance a round starts from: [plan_one] re-sorts, then calls
    [percent_used_variance(nodes)]. *)
Definition round_variance (st : State) : result F :=
  st1 ← resort st;
  percent_used_variance st1 [] [].

(** The states a run of [plan] goes through: the one its first loop
    leaves, and from there the one each [resort] and each round leaves. *)
Inductive plan_reaches (settings : PlanSettings) (st : State) : State → Prop :=
  | reaches_init st0 :
      plan_init st = Ok st0 → plan_reaches settings st st0
  | reaches_resort st1 st2 :
      plan_reaches settings st st1 → resort st1 = Ok st2 →
      plan_reaches settings st st2
  | reaches_round st1 r st2 :
      plan_reaches settings st st1 →
      plan_one st1 settings (plan_step_of settings) = Ok (r, st2) →
      plan_reaches settings st st2.

End Planner.

(** The items held across the nodes of the list, each node once: by
    their [planned_items], and by their [initial_items]. *)
Definition held_planned (st : State) : list item_ref :=
  concat ((fun n => planned_items (node_at st n)) <$> remove_dups (nodes st)).

Definition held_initial (st : State) : list item_ref :=
  concat ((fun n => initial_items (node_at st n)) <$> remove_dups (nodes st)).

(** [planned_used] as [planned_sort] computes it. *)
Definition used (st : State) (n : node_ref) : Z :=
  sum_sizes st (planned_items (node_at st n)).

(** ** lib/connections.py: the reassignment document *)

(** [l[i]] and [l[i] = x] on a list, with Python's bounds check (indices
    here are never negative). *)
Definition list_get {A} (l : list A) (i : nat) : result A :=
  match l !! i with
  | Some x => Ok x
  | None => Raise IndexError
  end.

Definition list_set {A} (l : list A) (i : nat) (x : A) : result (list A) :=
  if decide (i < length l)%nat then Ok (<[i:=x]> l) else Raise IndexError.

(** [l.index(x)] *)
Fixpoint list_index (x : Z) (l : list Z) : result nat :=
  match l with
  | [] => Raise ValueError
  | y :: l' => if decide (y = x) then Ok O else i ← list_index x l'; Ok (S i)
  end.

(** [l.count(x)] *)
Definition list_count (x : Z) (l : list Z) : nat :=
  length (filter (fun y => y = x) l).

(** [random.choice(seq)]: the generator is a sequence [rand] of draws, and
    [k] counts the draws made so far. *)
Definition random_choice (rand : nat → nat) (k : nat) (positions : list nat)
    : result (nat * nat) :=
  match positions !! (rand k mod length positions)%nat with
  | Some p => Ok (p, S k)
  | None => Raise IndexError
  end.

Definition enumerate {A} (l : list A) : list (nat * A) :=
  zip (seq 0 (length l)) l.

Definition _find_new_position (rand : nat → nat) (k : nat)
    (replicas : list Z) (new_id : Z) (new_position : nat) (old_id : Z)
    : result (nat * nat) :=
  if bool_decide (old_id ∈ replicas) then
    i ← list_index old_id replicas; Ok (i, k)
  else if bool_decide (list_count new_id replicas < 2)%nat then
    random_choice rand k
      (fst <$> filter (fun p => p.1 ≠ new_position) (enumerate replicas))
  else if bool_decide (new_id ∉ replicas) && bool_decide (old_id ∉ replicas) then
    Ok (O, k)
  else
    random_choice rand k
      (fst <$> filter (fun p => p.2 = new_id ∧ p.1 ≠ new_position) (enumerate replicas)).

(** A value of [new_assignments]. *)
Record PartitionData := mkPartitionData {
  pd_topic : string;
  pd_partition : Z;
  pd_replicas : list Z;
  pd_original_replicas : list Z;
  pd_log_dirs : list string;
}.

Definition with_replicas (pd : PartitionData) (l : list Z) : PartitionData :=
  mkPartitionData (pd_topic pd) (pd_partition pd) l (pd_original_replicas pd) (pd_log_dirs pd).

Definition with_log_dirs (pd : PartitionData) (l : list string) : PartitionData :=
  mkPartitionData (pd_topic pd) (pd_partition pd) (pd_replicas pd) (pd_original_replicas pd) l.

(** The dict [new_assignments] in insertion order, with keys that occur
    once. *)
Definition assignments := list (string * PartitionData).

Fixpoint dict_get (key : string) (d : assignments) : option PartitionData :=
  match d with
  | [] => None
  | (k, v) :: d' => if decide (k = key) then Some v else dict_get key d'
  end.

Fixpoint dict_set (key : string) (v : PartitionData) (d : assignments) : assignments :=
  match d with
  | [] => [(key, v)]
  | (k, w) :: d' => if decide (k = key) then (k, v) :: d' else (k, w) :: dict_set key v d'
  end.

(** [s.rstrip("/")] *)
Fixpoint rstrip_slash (s : string) : string :=
  match s with
  | EmptyString => EmptyString
  | String c s' =>
      let r := rstrip_slash s' in
      if bool_decide (r = EmptyString) && bool_decide (c = "/"%char)
      then EmptyString else String c r
  end.

(** What the loop of [gen_reassignment_file] carries from one item to the
    next: the dict, the record whose ["replicas"] list the local name
    [replicas] is bound to (the list made when a record was last created),
    and the number of random draws. *)
Record Builder := mkBuilder {
  new_assignments : assignments;
  replicas_var : option string;
  draws : nat;
}.

Definition planned_broker_id (st : State) (it : Item) : result Z :=
  match planned_owner it with
  | None => Raise AttributeError
  | Some o => Ok (broker_id (broker_at st (broker (node_at st o))))
  end.

Definition planned_log_dir (st : State) (it : Item) : result string :=
  match planned_owner it with
  | None => Raise AttributeError
  | Some o => Ok (rstrip_slash (mount_point (node_at st o)))
  end.

(** The body of the loop over [moved_replicas]. *)
Definition add_moved_replica (st : State) (partitions : gmap (string * Z) (Z * list Z))
    (rand : nat → nat) (b : Builder) (item : item_ref) : result Builder :=
  let it := item_at st item in
  let id_name := (topic it +:+ "-" +:+ pretty (id it))%string in
  match partitions !! (topic it, id it) with
  | None => Raise KeyError
  | Some (_, initial_replica_nodes) =>
      match dict_get id_name (new_assignments b) with
      | None =>
          let replicas := initial_replica_nodes in
          old_replica ← list_get replicas (replica_id it);
          new_id ← planned_broker_id st it;
          replicas ← list_set replicas (replica_id it) new_id;
          pos ← _find_new_position rand (draws b) replicas new_id (replica_id it) old_replica;
          replicas ← list_set replicas pos.1 old_replica;
          let log_dirs := replicate (length initial_replica_nodes) "any"%string in
          dir ← planned_log_dir st it;
          log_dirs ← list_set log_dirs (replica_id it) dir;
          Ok (mkBuilder
                (dict_set id_name
                   (mkPartitionData (topic it) (id it) replicas initial_replica_nodes log_dirs)
                   (new_assignments b))
                (Some id_name) pos.2)
      | Some pd =>
          old_replica ← list_get (pd_replicas pd) (replica_id it);
          new_id ← planned_broker_id st it;
          substituted ← list_set (pd_replicas pd) (replica_id it) new_id;
          let d1 := dict_set id_name (with_replicas pd substituted) (new_assignments b) in
          pos ← _find_new_position rand (draws b) substituted new_id (replica_id it) old_replica;
          match replicas_var b with
          | None => Raise UnboundLocalError
          | Some bound =>
              match dict_get bound d1 with
              | None => Raise UnboundLocalError
              | Some target =>
                  replicas ← list_set (pd_replicas target) pos.1 old_replica;
                  let d2 := dict_set bound (with_replicas target replicas) d1 in
                  match dict_get id_name d2 with
                  | None => Raise KeyError
                  | Some pd2 =>
                      dir ← planned_log_dir st it;
                      log_dirs ← list_set (pd_log_dirs pd2) (replica_id it) dir;
                      Ok (mkBuilder (dict_set id_name (with_log_dirs pd2 log_dirs) d2)
                            (Some bound) pos.2)
                  end
              end
          end
      end
  end.

(** An entry of the document's ["partitions"]. *)
Record JsonItem := mkJsonItem {
  json_topic : string;
  json_partition : Z;
  json_replicas : list Z;
  json_log_dirs : list string;
}.

Record Document := mkDocument {
  version : Z;
  partitions : list JsonItem;
}.

(** [len(replicas) == len(set(replicas))] *)
Definition no_duplicates (replicas : list Z) : bool :=
  bool_decide (length replicas = length (remove_dups replicas)).

Definition to_json (pd : PartitionData) : JsonItem :=
  mkJsonItem (pd_topic pd) (pd_partition pd) (pd_replicas pd) (pd_log_dirs pd).

Definition emit (d : assignments) : Document :=
  mkDocument 1
    (to_json <$> filter (fun pd => no_duplicates (pd_replicas pd) = true) (snd <$> d)).

Definition build_assignments (st : State) (partitions : gmap (string * Z) (Z * list Z))
    (moved_replicas : list item_ref) (rand : nat → nat) : result Builder :=
  for_each (add_moved_replica st partitions rand) moved_replicas (mkBuilder [] None 0).

(** [gen_reassignment_file(partitions, moved_replicas)] *)
Definition gen_reassignment_file (st : State) (partitions : gmap (string * Z) (Z * list Z))
    (moved_replicas : list item_ref) (rand : nat → nat) : result Document :=
  b ← build_assignments st partitions moved_replicas rand;
  Ok (emit (new_assignments b)).

(** ** Exact arithmetic

    The rationals as an instance of [Float]: the quotient, difference and
    absolute value are exact, [pvariance] is the mean of the squared
    deviations from the mean, and nothing is out of range.  The concrete
    runs below use it. *)

Definition Qc_sum (l : list Qc) : Qc := foldr Qcplus (Q2Qc 0) l.

Definition Qc_of_Z (z : Z) : Qc := Q2Qc (inject_Z z).

Definition Qc_pvariance (l : list Qc) : Qc :=
  let n := Qc_of_Z (Z.of_nat (length l)) in
  let mu := Qcdiv (Qc_sum l) n in
  Qcdiv (Qc_sum ((fun x => Qcmult (Qcminus x mu) (Qcminus x mu)) <$> l)) n.

Lemma Qc_sum_perm (l k : list Qc) : l ≡ₚ k → Qc_sum l = Qc_sum k.
Proof.
  induction 1 as [|x l k _ IH|x y l|l k m _ IH1 _ IH2]; simpl.
  - reflexivity.
  - by rewrite IH.
  - ring.
  - by rewrite IH1.
Qed.

Lemma Qc_pvariance_perm (l k : list Qc) : l ≡ₚ k → Qc_pvariance l = Qc_pvariance k.
Proof.
  intros Hp. unfold Qc_pvariance.
  rewrite (Permutation_length Hp), (Qc_sum_perm l k Hp).
  f_equal. apply Qc_sum_perm. by apply fmap_Permutation.
Qed.

#[export] Instance Qc_Float : Float := {|
  F := Qc;
  truediv := fun a b => Qcdiv (Qc_of_Z a) (Qc_of_Z b);
  overflows := fun _ _ => false;
  fsub := Qcminus;
  fabs := Qcabs;
  flt := fun a b => bool_decide (Qclt a b);
  pvariance_data := Qc_pvariance;
  pvariance_overflows := fun _ => false;
  pvariance_perm := Qc_pvariance_perm;
  pvariance_overflows_perm := fun _ _ _ => eq_refl;
  overflows_unit := fun _ _ _ => eq_refl;
  pvariance_unit := fun _ _ => eq_refl;
|}.

(** ** Concrete placements

    [Disk(broker, mount_point, capacity)] and
    [PartitionReplica(disk, topic, id, replica_id, is_leader, size)] as
    their constructors leave them; a store is given by the list of its
    objects.  The [None] of a new disk's [planned_items] and
    [planned_used] is kept as [[]] and [0]: [plan] assigns both on the
    nodes of its list before it reads them, and on any other disk the one
    read there is, in [contains_planned], raises without looking at
    them. *)

Definition Disk (b : broker_ref) (mp : string) (cap : Z) (items : list item_ref) : Node :=
  mkNode cap items [] 0 b mp.
Arguments Disk b%_nat mp%_string cap%_Z items.

Definition PartitionReplica (disk : node_ref) (t : string) (i : Z) (r : nat)
    (leader : bool) (sz : Z) : Item :=
  mkItem sz (Some disk) None t i r leader.
Arguments PartitionReplica disk%_nat t%_string i%_Z r%_nat leader sz%_Z.

Definition store_of {A} (l : list A) (d : A) : nat → A := fun n => nth n l d.

Definition no_disk : Node := Disk 0 "/" 1 [].
Definition no_replica : Item := mkItem 0 None None "" 0 0%nat false.
Definition no_broker : Broker := mkBroker 0 [].

Definition placement (ns : list Node) (its : list Item) (bs : list Broker) : State :=
  mkState (seq 0 (length ns)) (store_of ns no_disk) (store_of its no_replica)
    (store_of bs no_broker).

(** S1: disk A holds 40, 30 and 20, disk B is empty. *)
Definition S1 : State :=
  placement
    [Disk 0 "/kafka/0/" 100 [0; 1; 2]%nat; Disk 1 "/kafka/0/" 100 []]
    [PartitionReplica 0 "T" 0 0 false 40; PartitionReplica 0 "T" 1 0 false 30;
     PartitionReplica 0 "T" 2 0 false 20]
    [mkBroker 1 [0%nat]; mkBroker 2 [1%nat]].

(** S2: disk A holds one leader of size 50, disk B is empty. *)
Definition S2 : State :=
  placement
    [Disk 0 "/kafka/0/" 100 [0%nat]; Disk 1 "/kafka/0/" 100 []]
    [PartitionReplica 0 "T" 0 0 true 50]
    [mkBroker 1 [0%nat]; mkBroker 2 [1%nat]].

(** S4: disk A holds 80, disk B holds 5. *)
Definition S4 : State :=
  placement
    [Disk 0 "/kafka/0/" 100 [0%nat]; Disk 1 "/kafka/0/" 100 [1%nat]]
    [PartitionReplica 0 "T" 0 0 false 80; PartitionReplica 1 "U" 0 0 false 5]
    [mkBroker 1 [0%nat]; mkBroker 2 [1%nat]].

Definition percent (p : Z) : Qc := Qcdiv (Qc_of_Z p) (Qc_of_Z 100).

(** [PlanSettings(max_iters=.., node_percentage_threshold=..,
    item_percentage_threshold=.., swap=..)] *)
Definition settings_of (iters : nat) (node_percentage item_percentage : Z) (sw : bool)
    : PlanSettings :=
  mkPlanSettings iters (percent node_percentage)
    (Some (Qcminus (Qc_of_Z 1) (percent item_percentage))) sw.

(** A disk that starts over its capacity next to two that do not. *)
Definition overfull : State :=
  placement
    [Disk 0 "/kafka/0/" 100 [0%nat]; Disk 1 "/kafka/0/" 100 [1; 2]%nat;
     Disk 2 "/kafka/0/" 100 []]
    [PartitionReplica 0 "T" 0 0 false 110; PartitionReplica 1 "T" 1 0 false 50;
     PartitionReplica 1 "T" 2 0 false 40]
    [mkBroker 1 [0%nat]; mkBroker 2 [1%nat]; mkBroker 3 [2%nat]].

(** One disk with one replica. *)
Definition lone_disk : State :=
  placement
    [Disk 0 "/kafka/0/" 100 [0%nat]]
    [PartitionReplica 0 "T" 0 0 false 50]
    [mkBroker 1 [0%nat]].

(** Three planned moves, the first and the third of partition T-0, the
    second of T-1; every partition has replicas on brokers 1, 2 and 3. *)
Definition three_moves : State :=
  mkState [0; 1; 2]%nat
    (store_of [Disk 0 "/kafka/0/" 100 []; Disk 1 "/kafka/0/" 100 [];
               Disk 2 "/kafka/0/" 100 []] no_disk)
    (store_of [mkItem 10 (Some 3%nat) (Some 0%nat) "T" 0 0%nat false;
               mkItem 10 (Some 3%nat) (Some 1%nat) "T" 1 0%nat false;
               mkItem 10 (Some 4%nat) (Some 2%nat) "T" 0 1%nat false] no_replica)
    (store_of [mkBroker 5 [0%nat]; mkBroker 6 [1%nat]; mkBroker 7 [2%nat]] no_broker).

Definition three_moves_partitions : gmap (string * Z) (Z * list Z) :=
  <[("T"%string, 0) := (1, [1; 2; 3])]> (<[("T"%string, 1) := (1, [1; 2; 3])]> ∅).

(** ** What the properties are stated with *)

(** What no planner operation changes. *)
Definition static_eq (st st' : State) : Prop :=
  broker_at st' = broker_at st
  ∧ (∀ n, capacity (node_at st' n) = capacity (node_at st n)
          ∧ initial_items (node_at st' n) = initial_items (node_at st n)
          ∧ broker (node_at st' n) = broker (node_at st n)
          ∧ mount_point (node_at st' n) = mount_point (node_at st n))
  ∧ (∀ i, size (item_at st' i) = size (item_at st i)
          ∧ is_leader (item_at st' i) = is_leader (item_at st i)
          ∧ topic (item_at st' i) = topic (item_at st i)
          ∧ id (item_at st' i) = id (item_at st i)
          ∧ replica_id (item_at st' i) = replica_id (item_at st i)).

Definition within_capacity (st : State) : Prop :=
  ∀ n, n ∈ nodes st → used st n ≤ capacity (node_at st n).

(** Every node of the list holds, among the items not moved yet, only
    those it was the initial owner of. *)
Definition owned (st : State) : Prop :=
  ∀ n i, n ∈ nodes st → i ∈ planned_items (node_at st n) →
    planned_owner (item_at st i) = None →
    initial_owner (item_at st i) = Some n.

(** Every record of the dict keeps [replicas] and [log_dirs] of one
    length. *)
Definition parallel_lists (d : assignments) : Prop :=
  ∀ k pd, (k, pd) ∈ d → length (pd_replicas pd) = length (pd_log_dirs pd).

Section Predicates.
Context `{FL : Float}.

(** An accepted move of [item] to [node] from the round's state [st],
    with [cur] the variance the round started from. *)
Definition accepted_move (st : State) (settings : PlanSettings) (cur : F)
    (item : item_ref) (node : node_ref) (st' : State) : Prop :=
  node ∈ nodes st
  ∧ can_move_to st item node = Ok true
  ∧ (∃ v, percent_used_variance st [(Some node, item)]
            [(initial_owner (item_at st item), item)] = Ok v
          ∧ flt v cur = true)
  ∧ move st item node = Ok st'.

(** [planned_used / capacity] of a node that holds its initial items. *)
Definition initial_fraction_used (st : State) (n : node_ref) : F :=
  truediv (sum_sizes st (initial_items (node_at st n))) (capacity (node_at st n)).

(** The fraction used of node [n] can be computed: its capacity is not
    zero and the quotient is in the range of floats. *)
Definition in_range (st : State) (n : node_ref) : Prop :=
  capacity (node_at st n) ≠ 0
  ∧ overflows (used st n) (capacity (node_at st n)) = false.

(** [planned_used / capacity] of a node, from what it holds. *)
Definition fraction_used (st : State) (n : node_ref) : F :=
  truediv (used st n) (capacity (node_at st n)).

(** The first round can compute its fractions and their variance: no
    capacity is zero, and the quotients of the nodes' initial items by
    their capacities, and the variance of these, are in the range of
    floats. *)
Definition starts_in_range (st : State) : Prop :=
  (∀ n, n ∈ nodes st →
     capacity (node_at st n) ≠ 0
     ∧ overflows (sum_sizes st (initial_items (node_at st n))) (capacity (node_at st n))
       = false)
  ∧ pvariance_overflows (initial_fraction_used st <$> nodes st) = false.

(** Every node of the list is within the threshold of every other one,
    by the planner's own test. *)
Definition at_rest (settings : PlanSettings) (st : State) : Prop :=
  ∀ i j n m, i ≠ j → nodes st !! i = Some n → nodes st !! j = Some m →
    too_similar (initial_fraction_used st n) (initial_fraction_used st m)
      (node_fraction_threshold settings) = true.

End Predicates.

(** S1 after the first loop of [plan]. *)
Definition S1_started : State :=
  match plan_init S1 with
  | Ok st0 => st0
  | Raise _ => S1
  end.

(** Every item a node holds names that node as its current owner. *)
Definition coherent (st : State) : Prop :=
  ∀ n i, n ∈ nodes st → i ∈ planned_items (node_at st n) →
    current_owner (item_at st i) = Some n.

(** A planned owner is a node of the list, and never the initial owner. *)
Definition no_bounce_back (st : State) : Prop :=
  ∀ i d, i ∈ held_planned st → planned_owner (item_at st i) = Some d →
    d ∈ nodes st ∧ initial_owner (item_at st i) ≠ Some d.

(** The replicas of partition [(t, p)] on the disks of broker [b]: as
    planned, and as the disks list them initially. *)
Definition hosted (st : State) (b : broker_ref) (t : string) (p : Z) : list item_ref :=
  filter (fun r => is_replica_of st t p r = true) (planned_partition_replicas st b).

Definition hosted_initially (st : State) (b : broker_ref) (t : string) (p : Z)
    : list item_ref :=
  filter (fun r => is_replica_of st t p r = true) (initial_partition_replicas st b).

(** The brokers and the disks name each other, and the disks of the
    brokers are the nodes that are planned. *)
Definition brokers_consistent (st : State) : Prop :=
  (∀ b, NoDup (disks (broker_at st b)))
  ∧ (∀ b d, d ∈ disks (broker_at st b) → broker (node_at st d) = b ∧ d ∈ nodes st)
  ∧ (∀ d, d ∈ nodes st → d ∈ disks (broker_at st (broker (node_at st d)))).

(** ** More of lib/connections.py *)

(** [s.endswith("/")] *)
Fixpoint ends_with_slash (s : string) : bool :=
  match s with
  | EmptyString => false
  | String c EmptyString => bool_decide (c = "/"%char)
  | String _ s' => ends_with_slash s'
  end.

(** The mount point [Disk.__init__] keeps: a slash is added to a path
    that does not end with one. *)
Definition Disk_mount_point (mount_point : string) : string :=
  if ends_with_slash mount_point then mount_point else (mount_point +:+ "/")%string.

(** [Disk(broker, mount_point, capacity)], with the items it will hold. *)
Definition Disk_init (b : broker_ref) (mount_point : string) (cap : Z)
    (items : list item_ref) : Node :=
  Disk b (Disk_mount_point mount_point) cap items.

(** The key of an item's record in [new_assignments]:
    ["{}-{}".format(item.topic, item.id)]. *)
Definition id_name (it : Item) : string :=
  (topic it +:+ "-" +:+ pretty (id it))%string.

(** A property every record of the dict has. *)
Definition all_records (P : PartitionData → Prop) (d : assignments) : Prop :=
  ∀ k pd, (k, pd) ∈ d → P pd.

(** The name [replicas] is bound to a list of the dict once the dict has
    a record. *)
Definition bound_replicas (b : Builder) : Prop :=
  match replicas_var b with
  | Some bound => is_Some (dict_get bound (new_assignments b))
  | None => new_assignments b = []
  end.

(** Every record has [rf] replicas and [rf] log dirs. *)
Definition uniform (rf : nat) (b : Builder) : Prop :=
  all_records (fun pd => length (pd_replicas pd) = rf ∧ length (pd_log_dirs pd) = rf)
    (new_assignments b).

(** A broker id the input names: a current replica of the partition of a
    moved item, or the broker of a moved item's planned owner. *)
Definition known_broker (st : State) (parts : gmap (string * Z) (Z * list Z))
    (moved : list item_ref) (x : Z) : Prop :=
  ∃ item, item ∈ moved
    ∧ ((∃ leader initial,
          parts !! (topic (item_at st item), id (item_at st item)) = Some (leader, initial)
          ∧ x ∈ initial)
       ∨ planned_broker_id st (item_at st item) = Ok x).

(** A log dir the input names: ["any"], or the mount point of a moved
    item's planned owner without its trailing slashes. *)
Definition known_log_dir (st : State) (moved : list item_ref) (dir : string) : Prop :=
  dir = "any"%string
  ∨ ∃ item o, item ∈ moved ∧ planned_owner (item_at st item) = Some o
      ∧ dir = rstrip_slash (mount_point (node_at st o)).

(** A record of a partition one of the moved items belongs to. *)
Definition known_partition (st : State) (parts : gmap (string * Z) (Z * list Z))
    (moved : list item_ref) (t : string) (p : Z) : Prop :=
  ∃ item, item ∈ moved ∧ topic (item_at st item) = t ∧ id (item_at st item) = p
    ∧ is_Some (parts !! (t, p)).

(** A record that holds only what the input names. *)
Definition known_record (st : State) (parts : gmap (string * Z) (Z * list Z))
    (moved : list item_ref) (pd : PartitionData) : Prop :=
  (∀ x, x ∈ pd_replicas pd → known_broker st parts moved x)
  ∧ (∀ dir, dir ∈ pd_log_dirs pd → known_log_dir st moved dir)
  ∧ known_partition st parts moved (pd_topic pd) (pd_partition pd).

(** ** More concrete placements *)

(** Two disks that both list replica 0. *)
Definition shared_item : State :=
  placement
    [Disk 0 "/kafka/0/" 100 [0%nat]; Disk 1 "/kafka/0/" 100 [0%nat]]
    [PartitionReplica 0 "T" 0 0 false 10]
    [mkBroker 1 [0%nat]; mkBroker 2 [1%nat]].

(** Two disks that are equally full. *)
Definition balanced : State :=
  placement
    [Disk 0 "/kafka/0/" 100 [0%nat]; Disk 1 "/kafka/0/" 100 [1%nat]]
    [PartitionReplica 0 "T" 0 0 false 50; PartitionReplica 1 "U" 0 0 false 50]
    [mkBroker 1 [0%nat]; mkBroker 2 [1%nat]].

(** Partition T-0 with its only replica on broker 1. *)
Definition single_replica_partitions : gmap (string * Z) (Z * list Z) :=
  <[("T"%string, 0) := (1, [1])]> ∅.

(** The partitions of S1, each with replicas on brokers 1 and 3. *)
Definition S1_partitions : gmap (string * Z) (Z * list Z) :=
  <[("T"%string, 0) := (1, [1; 3])]>
    (<[("T"%string, 1) := (1, [1; 3])]> (<[("T"%string, 2) := (1, [1; 3])]> ∅)).

(** ** lib/connections.py: the replicas a disk is given

    The second loop of [Disk.fetch_replicas], over [partitions.items()]:
    [dirs] is the dict its first loop makes of the directories found on
    the disk, [partitions] the dict of [fetch] in insertion order. *)

(** One turn of the loop, from the list [replicas] built so far. *)
Definition fetch_replica (disk : node_ref) (broker_id : Z) (dirs : gmap string Z)
    (replicas : list Item) (entry : (string * Z) * (Z * list Z)) : result (list Item) :=
  let '((topic, partition), (leader, owning_brokers)) := entry in
  let key := (topic +:+ "-" +:+ pretty partition)%string in
  match dirs !! key with
  | None => Ok replicas
  | Some usage =>
      match list_index broker_id owning_brokers with
      | Ok replica_id =>
          Ok (replicas ++ [PartitionReplica disk topic partition replica_id
                             (bool_decide (leader = broker_id)) usage])
      | Raise ValueError => Ok replicas
      | Raise e => Raise e
      end
  end.

(** The list [fetch_replicas] assigns to [self.initial_items]. *)
Definition fetch_replicas (disk : node_ref) (broker_id : Z) (dirs : gmap string Z)
    (partitions : list ((string * Z) * (Z * list Z))) : result (list Item) :=
  for_each (fetch_replica disk broker_id dirs) partitions [].

(** ** lib/connections.py: exec_reassign *)

(** [needle in haystack], on strings. *)
Fixpoint contains (needle haystack : string) : bool :=
  String.prefix needle haystack
  || match haystack with
     | EmptyString => false
     | String _ rest => contains needle rest
     end.

Section Remote.
(** The exceptions of the connection. *)
Context {E : Type}.

(** A call on the remote host returns or raises. *)
Inductive ssh_result (A : Type) : Type :=
  | Returned (a : A)
  | Raised (e : E).
Arguments Returned {A} a.
Arguments Raised {A} e.

(** The host [exec_reassign] talks to: what [ssh.put] does, what the
    [--execute] command does (its output is only logged), and the
    standard output of the [k]-th [--verify] command. *)
Record Remote := mkRemote {
  ssh_put : ssh_result unit;
  ssh_execute : ssh_result unit;
  ssh_verify : nat → ssh_result string;
}.

(** The polling loop, [for spinner_char in itertools.cycle(..)]: [k]
    polls have been made, and [fuel] bounds the polls still looked at.
    [None]: the loop is still polling after [fuel] polls. *)
Fixpoint verify_loop (verify : nat → ssh_result string) (fuel k finished_failures : nat)
    : option (ssh_result string) :=
  match fuel with
  | O => None
  | S fuel' =>
      match verify k with
      | Raised e => Some (Raised e)
      | Returned stdout =>
          if contains "in progress" stdout then verify_loop verify fuel' (S k) 0
          else if contains "failed" stdout then
            if bool_decide (5 ≤ S finished_failures)%nat then Some (Returned stdout)
            else verify_loop verify fuel' (S k) (S finished_failures)
          else Some (Returned stdout)
      end
  end.

(** [exec_reassign(json_data, work_broker, .., wait)]: the value
    returned, [Some False], [Some True] or Python's [None]. *)
Definition exec_reassign (json_data : Document) (work_broker : Remote) (wait : bool)
    (fuel : nat) : option (ssh_result (option bool)) :=
  if bool_decide (length (partitions json_data) < 1)%nat then Some (Returned (Some false))
  else
    match ssh_put work_broker with
    | Raised e => Some (Raised e)
    | Returned _ =>
        match ssh_execute work_broker with
        | Raised e => Some (Raised e)
        | Returned _ =>
            if wait then
              match verify_loop (ssh_verify work_broker) fuel 0 0 with
              | None => None
              | Some (Raised e) => Some (Raised e)
              | Some (Returned stdout) =>
                  if contains "failed" stdout then Some (Returned (Some false))
                  else Some (Returned (Some true))
              end
            else Some (Returned None)
        end
    end.

End Remote.
Arguments ssh_result : clear implicits.
Arguments Remote : clear implicits.
Arguments Returned {E A} a.
Arguments Raised {E A} e.

(** A poll that shows the reassignment over: nothing in progress, and
    failed or not. *)
Definition failed_only (stdout : string) : Prop :=
  contains "in progress" stdout = false ∧ contains "failed" stdout = true.

Definition finished (stdout : string) : Prop :=
  contains "in progress" stdout = false ∧ contains "failed" stdout = false.

(** What [fetch_replicas] makes of an entry of [partitions] it keeps. *)
Definition fetched (disk : node_ref) (broker_id : Z) (dirs : gmap string Z)
    (partitions : list ((string * Z) * (Z * list Z))) (it : Item) : Prop :=
  ∃ leader owning_brokers,
    ((topic it, id it), (leader, owning_brokers)) ∈ partitions
    ∧ dirs !! id_name it = Some (size it)
    ∧ owning_brokers !! replica_id it = Some broker_id
    ∧ (∀ j, (j < replica_id it)%nat → owning_brokers !! j ≠ Some broker_id)
    ∧ is_leader it = bool_decide (leader = broker_id)
    ∧ initial_owner it = Some disk
    ∧ planned_owner it = None.

(** A document of one partition, and a host on which the reassignment
    is in progress for two polls and then over. *)
Definition one_partition_doc : Document :=
  mkDocument 1 [mkJsonItem "T" 0 [5; 2; 3] ["/kafka/0"; "any"; "any"]%string].

Definition patient_host : Remote unit :=
  mkRemote (Returned ()) (Returned ())
    (fun k => Returned (if (k <? 2)%nat
                        then "Reassignment of partition T-0 is still in progress"%string
                        else "Reassignment of partition T-0 is complete"%string)).

(** * Properties *)

(** ** The result monad and the list primitives *)

Lemma bind_Ok {A B} (f : A → result B) (r : result A) (b : B) :
  r ≫= f = Ok b → ∃ a, r = Ok a ∧ f a = Ok b.
Proof. destruct r as [a|e]; simpl; [eauto | discriminate]. Qed.

Ltac inv_bind H :=
  let x := fresh "x" in
  let Hx := fresh "Hx" in
  apply bind_Ok in H as (x & Hx & H).

Lemma upd_eq {A} (f : nat → A) k v : upd f k v k = v.
Proof. unfold upd. by rewrite decide_True. Qed.

Lemma upd_ne {A} (f : nat → A) k v j : j ≠ k → upd f k v j = f j.
Proof. intros. unfold upd. by rewrite decide_False. Qed.

Lemma mapM_Ok {A B} (f : A → result B) (l : list A) (k : list B) :
  mapM f l = Ok k → Forall2 (fun x y => f x = Ok y) l k.
Proof.
  revert k. induction l as [|x l IH]; intros k Hk; simpl in Hk.
  - injection Hk as <-. constructor.
  - inv_bind Hk. inv_bind Hk. injection Hk as <-. constructor; auto.
Qed.

Lemma mapM_Ok_elem {A B} (f : A → result B) (l : list A) (k : list B) x :
  mapM f l = Ok k → x ∈ l → ∃ y, f x = Ok y.
Proof.
  intros Hk Hx. apply mapM_Ok in Hk.
  induction Hk as [|a b l k Hab _ IH]; [by apply elem_of_nil in Hx|].
  apply elem_of_cons in Hx as [->|Hx]; eauto.
Qed.

Lemma mapM_is_Ok {A B} (f : A → result B) (l : list A) :
  Forall (fun x => ∃ y, f x = Ok y) l → ∃ k, mapM f l = Ok k.
Proof.
  induction 1 as [|x l [y Hy] _ [k Hk]]; simpl.
  - by eexists.
  - rewrite Hy. simpl. rewrite Hk. simpl. by eexists.
Qed.

Lemma mapM_ext_Ok {A B} (f g : A → result B) (l : list A) :
  Forall (fun x => f x = g x) l → mapM f l = mapM g l.
Proof.
  induction 1 as [|x l Hx _ IH]; simpl; [done|]. by rewrite Hx, IH.
Qed.

Lemma insert_desc_perm {A K} (lt : K → K → bool) (key : A → K) x l :
  insert_desc lt key x l ≡ₚ x :: l.
Proof.
  induction l as [|y l IH]; simpl; [done|].
  destruct (lt (key x) (key y)); [|done].
  rewrite IH. apply Permutation_swap.
Qed.

Lemma sort_desc_perm {A K} (lt : K → K → bool) (key : A → K) l :
  sort_desc lt key l ≡ₚ l.
Proof.
  induction l as [|x l IH]; simpl; [done|].
  unfold sort_desc in *. simpl. by rewrite insert_desc_perm, IH.
Qed.

Lemma list_remove_Ok x l l' :
  list_remove x l = Ok l' → l ≡ₚ x :: l'.
Proof.
  revert l'. induction l as [|y l IH]; intros l' Hl; simpl in Hl; [done|].
  destruct (decide (y = x)) as [->|Hne].
  - by injection Hl as <-.
  - inv_bind Hl. injection Hl as <-.
    rewrite (IH _ Hx). apply Permutation_swap.
Qed.

Lemma list_remove_elem x l :
  x ∈ l → ∃ l', list_remove x l = Ok l'.
Proof.
  induction l as [|y l IH]; intros Hin; [by apply elem_of_nil in Hin|].
  simpl. destruct (decide (y = x)) as [->|Hne]; [by eexists|].
  apply elem_of_cons in Hin as [->|Hin]; [done|].
  destruct (IH Hin) as [l' ->]. by eexists.
Qed.

(** ** The planner *)

Section PlannerFacts.
Context `{FL : Float}.

Lemma int_truediv_Ok (a b : Z) (q : F) :
  int_truediv a b = Ok q → b ≠ 0 ∧ overflows a b = false ∧ q = truediv a b.
Proof.
  unfold int_truediv. destruct (decide (b = 0)); [done|].
  destruct (overflows a b); [done|]. by intros [= <-].
Qed.

Lemma int_truediv_is_Ok (a b : Z) :
  b ≠ 0 → overflows a b = false → int_truediv a b = Ok (truediv a b).
Proof. intros Hb Ho. unfold int_truediv. by rewrite decide_False, Ho. Qed.

Lemma int_truediv_Raise (a b : Z) (e : exn) :
  int_truediv a b = Raise e →
  (e = ZeroDivisionError ∧ b = 0) ∨ (e = OverflowError ∧ b ≠ 0 ∧ overflows a b = true).
Proof.
  unfold int_truediv. destruct (decide (b = 0)); [intros [= <-]; by left|].
  destruct (overflows a b); [|done]. intros [= <-]. by right.
Qed.

(** C10: with no nodes and at least one iteration allowed, [plan] raises
    [StatisticsError]: the first round asks for the population variance
    of no data points. *)
Theorem plan_empty_nodes_raises (st : State) (settings : PlanSettings) :
  nodes st = [] → (1 ≤ max_iters settings)%nat →
  plan st settings = Raise StatisticsError.
Proof.
  intros Hn Hi. destruct st as [ns na ia ba]. simpl in Hn. subst ns.
  unfold plan. destruct (max_iters settings) as [|k]; [lia|]. reflexivity.
Qed.

Lemma plan_step_swap_raises st settings cur large_item :
  plan_step_swap st settings cur large_item = Raise TypeError.
Proof. reflexivity. Qed.

Lemma plan_step_swap_first_test st settings cur large_item small_item rest :
  plan_step_swap_loop st settings cur large_item (small_item :: rest)
  = Raise AttributeError.
Proof. reflexivity. Qed.

(** *** What no planner operation changes *)

Lemma static_eq_refl st : static_eq st st.
Proof. by repeat split. Qed.

Lemma static_eq_trans st1 st2 st3 :
  static_eq st1 st2 → static_eq st2 st3 → static_eq st1 st3.
Proof.
  intros (Hb & Hn & Hi) (Hb' & Hn' & Hi'). split; [congruence|]. split.
  - intros n. destruct (Hn n) as (?&?&?&?), (Hn' n) as (?&?&?&?).
    repeat split; congruence.
  - intros i. destruct (Hi i) as (?&?&?&?&?), (Hi' i) as (?&?&?&?&?).
    repeat split; congruence.
Qed.

Lemma static_eq_set_node st n items used :
  static_eq st (set_node st n (node_with_planned (node_at st n) items used)).
Proof.
  split; [done|]. split; [|done]. intros m. simpl.
  destruct (decide (m = n)) as [->|Hne];
    [rewrite upd_eq | rewrite upd_ne by done]; done.
Qed.

Lemma static_eq_set_item st i io po :
  static_eq st (set_item st i (item_with_owners (item_at st i) io po)).
Proof.
  split; [done|]. split; [done|]. intros j. simpl.
  destruct (decide (j = i)) as [->|Hne];
    [rewrite upd_eq | rewrite upd_ne by done]; done.
Qed.

Lemma static_eq_set_nodes st ns : static_eq st (set_nodes st ns).
Proof. by repeat split. Qed.

Lemma for_each_inv {A S} (P : S → Prop) (body : S → A → result S) l s s' :
  (∀ s x s', P s → body s x = Ok s' → P s') →
  P s → for_each body l s = Ok s' → P s'.
Proof.
  intros Hbody. revert s. induction l as [|x l IH]; intros s Hs Hl; simpl in Hl.
  - by injection Hl as <-.
  - inv_bind Hl. eauto.
Qed.

Lemma init_item_static n st i st' : init_item n st i = Ok st' → static_eq st st'.
Proof.
  unfold init_item. intros Hi.
  destruct (initial_owner (item_at st i)) as [o|].
  - destruct (decide (o = n)); [|done]. injection Hi as <-.
    apply static_eq_set_item.
  - injection Hi as <-. apply static_eq_set_item.
Qed.

Lemma init_node_static st n st' : init_node st n = Ok st' → static_eq st st'.
Proof.
  unfold init_node. intros Hn.
  eapply (for_each_inv (static_eq st)); [| |exact Hn].
  - intros s x s' Hs Hx. eapply static_eq_trans; [exact Hs|].
    by eapply init_item_static.
  - apply static_eq_set_node.
Qed.

Lemma plan_init_static st st' : plan_init st = Ok st' → static_eq st st'.
Proof.
  unfold plan_init. intros Hn.
  eapply (for_each_inv (static_eq st)); [| |exact Hn].
  - intros s x s' Hs Hx. eapply static_eq_trans; [exact Hs|].
    by eapply init_node_static.
  - apply static_eq_refl.
Qed.

Lemma planned_sort_static st n : static_eq st (planned_sort st n).
Proof. apply static_eq_set_node. Qed.

Lemma foldl_planned_sort_static l st : static_eq st (foldl planned_sort st l).
Proof.
  revert st. induction l as [|n l IH]; intros st; simpl.
  - apply static_eq_refl.
  - eapply static_eq_trans; [apply planned_sort_static|apply IH].
Qed.

Lemma resort_static st st' : resort st = Ok st' → static_eq st st'.
Proof.
  unfold resort. intros Hr. inv_bind Hr. injection Hr as <-.
  eapply static_eq_trans; [apply foldl_planned_sort_static|].
  apply static_eq_set_nodes.
Qed.

Lemma move_static st item dest st' : move st item dest = Ok st' → static_eq st st'.
Proof.
  unfold move. intros Hm.
  destruct (current_owner (item_at st item)) as [src|]; [|done].
  inv_bind Hm. injection Hm as <-.
  eapply static_eq_trans; [apply static_eq_set_node|].
  eapply static_eq_trans; [apply static_eq_set_item|].
  apply static_eq_set_node.
Qed.

(** *** What a round does *)

Lemma plan_step_move_loop_spec st settings cur item ns r st' :
  plan_step_move_loop st settings cur item ns = Ok (r, st') →
  (r = None ∧ st' = st)
  ∨ (r = Some [item]
     ∧ ∃ node, node ∈ ns
        ∧ can_move_to st item node = Ok true
        ∧ (∃ v, percent_used_variance st [(Some node, item)]
                  [(initial_owner (item_at st item), item)] = Ok v
                ∧ flt v cur = true)
        ∧ move st item node = Ok st').
Proof.
  induction ns as [|node rest IH]; simpl; intros Hl.
  - injection Hl as <- <-. by left.
  - assert (Hrest : plan_step_move_loop st settings cur item rest = Ok (r, st') →
      (r = None ∧ st' = st)
      ∨ (r = Some [item]
         ∧ ∃ node0, node0 ∈ node :: rest
            ∧ can_move_to st item node0 = Ok true
            ∧ (∃ v, percent_used_variance st [(Some node0, item)]
                      [(initial_owner (item_at st item), item)] = Ok v
                    ∧ flt v cur = true)
            ∧ move st item node0 = Ok st')).
    { intros H. destruct (IH H) as [?|(? & n0 & ? & ?)]; [by left|].
      right. split; [done|]. exists n0. split; [by apply list_elem_of_further|done]. }
    inv_bind Hl. inv_bind Hl.
    destruct (too_similar _ _ _); [by auto|].
    inv_bind Hl. destruct x1; simpl in Hl; [|by auto].
    inv_bind Hl. unfold fge in Hl.
    destruct (flt x1 cur) eqn:Hlt; simpl in Hl; [|by auto].
    inv_bind Hl. injection Hl as <- <-.
    right. split; [done|]. exists node. split; [by apply list_elem_of_here|].
    split; [done|]. split; [|done]. by exists x1.
Qed.

Lemma plan_step_of_spec settings st cur item r st' :
  plan_step_of settings st settings cur item = Ok (r, st') →
  (r = None ∧ st' = st)
  ∨ (swap settings = false ∧ r = Some [item]
     ∧ ∃ node, accepted_move st settings cur item node st').
Proof.
  unfold plan_step_of. destruct (swap settings) eqn:Hs.
  - by rewrite plan_step_swap_raises.
  - unfold plan_step_move. intros H.
    apply plan_step_move_loop_spec in H as [?|(-> & node & Hin & Hc & Hv & Hm)]; [by left|].
    right. split; [done|]. split; [done|]. exists node.
    rewrite elem_of_reverse in Hin. by unfold accepted_move.
Qed.

Lemma plan_one_loop_spec settings st cur larges r st' :
  plan_one_loop (plan_step_of settings) st settings cur larges = Ok (r, st') →
  (r = None ∧ st' = st)
  ∨ (swap settings = false
     ∧ ∃ item node, item ∈ larges ∧ r = Some [item]
        ∧ accepted_move st settings cur item node st').
Proof.
  induction larges as [|item rest IH]; simpl; intros Hl.
  - injection Hl as <- <-. by left.
  - inv_bind Hl. destruct x as [r0 st0].
    apply plan_step_of_spec in Hx as [[-> ->]|(Hs & -> & node & Hacc)]; simpl in Hl.
    + destruct (IH Hl) as [?|(? & i & n & ? & ?)]; [by left|].
      right. split; [done|]. exists i, n. split; [by apply list_elem_of_further|done].
    + injection Hl as <- <-. right. split; [done|].
      exists item, node. split; [by apply list_elem_of_here|done].
Qed.

Lemma plan_one_spec st settings r st' :
  plan_one st settings (plan_step_of settings) = Ok (r, st') →
  ∃ st1 cur larges,
    resort st = Ok st1
    ∧ percent_used_variance st1 [] [] = Ok cur
    ∧ iter_large_items settings st1 (nodes st1) = Ok larges
    ∧ ((r = None ∧ st' = st1)
       ∨ (swap settings = false
          ∧ ∃ item node, item ∈ larges ∧ r = Some [item]
             ∧ accepted_move st1 settings cur item node st')).
Proof.
  unfold plan_one. intros H.
  apply bind_Ok in H as (st1 & Hst1 & H).
  apply bind_Ok in H as (cur & Hcur & H).
  apply bind_Ok in H as (larges & Hlarges & H).
  exists st1, cur, larges. repeat (split; [done|]).
  by apply plan_one_loop_spec.
Qed.

(** *** [resort] *)

Lemma sum_sizes_perm st l k : l ≡ₚ k → sum_sizes st l = sum_sizes st k.
Proof.
  unfold sum_sizes.
  induction 1 as [|x l k _ IH|x y l|l k m _ IH1 _ IH2]; simpl; lia.
Qed.

Lemma sum_sizes_ext st st' l :
  (∀ i, size (item_at st' i) = size (item_at st i)) →
  sum_sizes st' l = sum_sizes st l.
Proof.
  intros Hs. unfold sum_sizes. induction l as [|x l IH]; simpl; [done|].
  by rewrite IH, Hs.
Qed.

Lemma sum_sizes_static st st' l : static_eq st st' → sum_sizes st' l = sum_sizes st l.
Proof. intros (_ & _ & Hi). apply sum_sizes_ext. intros i. apply Hi. Qed.

Lemma sum_sizes_app st l k : sum_sizes st (l ++ k) = sum_sizes st l + sum_sizes st k.
Proof. unfold sum_sizes. induction l as [|x l IH]; simpl; lia. Qed.

Lemma foldl_planned_sort_spec l st :
  nodes (foldl planned_sort st l) = nodes st
  ∧ item_at (foldl planned_sort st l) = item_at st
  ∧ ∀ n,
      planned_items (node_at (foldl planned_sort st l) n) ≡ₚ planned_items (node_at st n)
      ∧ (n ∈ l → planned_used (node_at (foldl planned_sort st l) n)
                 = sum_sizes st (planned_items (node_at (foldl planned_sort st l) n)))
      ∧ (n ∉ l → node_at (foldl planned_sort st l) n = node_at st n).
Proof.
  revert st. induction l as [|x l IH]; intros st; simpl.
  - repeat split; try done. intros Hn. by apply elem_of_nil in Hn.
  - destruct (IH (planned_sort st x)) as (Hns & Hit & Hn).
    split; [by rewrite Hns|]. split; [by rewrite Hit|].
    intros n. destruct (Hn n) as (Hp & Hin & Hout).
    assert (Hx : planned_items (node_at (planned_sort st x) n)
                 ≡ₚ planned_items (node_at st n)).
    { unfold planned_sort. simpl. destruct (decide (n = x)) as [->|Hne].
      - rewrite upd_eq. simpl. apply sort_desc_perm.
      - by rewrite upd_ne. }
    split; [by rewrite Hp|]. split.
    + intros Hel. destruct (decide (n ∈ l)) as [Hl|Hl].
      * rewrite (Hin Hl). by apply sum_sizes_ext.
      * rewrite (Hout Hl). apply elem_of_cons in Hel as [->|?]; [|done].
        unfold planned_sort. simpl. by rewrite upd_eq.
    + intros Hel. rewrite Hout.
      * unfold planned_sort. simpl. rewrite upd_ne; [done|].
        intros ->. apply Hel, list_elem_of_here.
      * intros ?. by apply Hel, list_elem_of_further.
Qed.

Lemma resort_spec st st1 :
  resort st = Ok st1 →
  nodes st1 ≡ₚ nodes st
  ∧ item_at st1 = item_at st
  ∧ static_eq st st1
  ∧ (∀ n, planned_items (node_at st1 n) ≡ₚ planned_items (node_at st n)
          ∧ (n ∈ nodes st → planned_used (node_at st1 n)
                            = sum_sizes st1 (planned_items (node_at st1 n)))
          ∧ (n ∉ nodes st → node_at st1 n = node_at st n))
  ∧ (∀ n, n ∈ nodes st → capacity (node_at st n) ≠ 0).
Proof.
  intros Hr. pose proof (resort_static _ _ Hr) as Hst.
  unfold resort in Hr. apply bind_Ok in Hr as (keys & Hk & Hr).
  injection Hr as <-.
  destruct (foldl_planned_sort_spec (nodes st) st) as (Hns & Hit & Hn).
  rewrite Hns in Hk.
  split; [|split; [done|split; [done|split]]].
  - simpl. rewrite Hns.
    rewrite (fmap_Permutation snd _ _ (sort_desc_perm flt fst _)).
    rewrite snd_zip; [done|].
    apply mapM_Ok, Forall2_length in Hk. lia.
  - intros n. simpl. destruct (Hn n) as (Hp & Hin & Hout).
    split; [done|]. split; [|done].
    intros Hel. rewrite (Hin Hel). symmetry.
    apply sum_sizes_ext. intros i. simpl. by rewrite Hit.
  - intros n Hel Hcap.
    destruct (mapM_Ok_elem _ _ _ _ Hk Hel) as [y Hy].
    unfold planned_fraction_used in Hy. apply int_truediv_Ok in Hy as (Hne & _).
    destruct (foldl_planned_sort_static (nodes st) st) as (_ & Hnn & _).
    destruct (Hnn n) as (Hc & _). by rewrite Hc in Hne.
Qed.

(** What [planned_sort] leaves in [planned_used]. *)
Lemma foldl_planned_sort_used st n :
  n ∈ nodes st →
  planned_used (node_at (foldl planned_sort st (nodes st)) n) = used st n.
Proof.
  intros Hn. destruct (foldl_planned_sort_spec (nodes st) st) as (_ & _ & Hnn).
  destruct (Hnn n) as (Hp & Hin & _). rewrite (Hin Hn). unfold used.
  by apply sum_sizes_perm.
Qed.

Lemma resort_is_Ok st :
  (∀ n, n ∈ nodes st → in_range st n) → ∃ st1, resort st = Ok st1.
Proof.
  intros Hcap. unfold resort.
  destruct (foldl_planned_sort_spec (nodes st) st) as (Hns & _ & _).
  destruct (foldl_planned_sort_static (nodes st) st) as (_ & Hnn & _).
  destruct (mapM_is_Ok (planned_fraction_used (foldl planned_sort st (nodes st)))
              (nodes (foldl planned_sort st (nodes st)))) as [keys Hk].
  - rewrite Hns. apply Forall_forall. intros n Hn.
    unfold planned_fraction_used. destruct (Hnn n) as (Hc & _). rewrite Hc.
    rewrite (foldl_planned_sort_used st n Hn).
    destruct (Hcap n Hn) as [Hne Hov]. rewrite (int_truediv_is_Ok _ _ Hne Hov).
    by eexists.
  - rewrite Hk. simpl. by eexists.
Qed.

(** After [resort] the fraction used of every node of the list is the
    quotient of what it holds by its capacity, within the range of
    floats. *)
Lemma resort_fraction st st1 n :
  resort st = Ok st1 → n ∈ nodes st →
  in_range st n ∧ planned_fraction_used st1 n = Ok (fraction_used st n).
Proof.
  intros Hr Hn. unfold resort in Hr. apply bind_Ok in Hr as (keys & Hk & Hr).
  injection Hr as <-.
  destruct (foldl_planned_sort_spec (nodes st) st) as (Hns & _ & _).
  destruct (foldl_planned_sort_static (nodes st) st) as (_ & Hnn & _).
  rewrite Hns in Hk. destruct (mapM_Ok_elem _ _ _ _ Hk Hn) as [y Hy].
  unfold planned_fraction_used in Hy |- *. simpl.
  pose proof Hy as Hy'. apply int_truediv_Ok in Hy' as (Hne & Hov & ->).
  rewrite (foldl_planned_sort_used st n Hn) in Hy, Hov.
  destruct (Hnn n) as (Hc & _). rewrite Hc in Hy, Hov, Hne.
  split; [by split|]. rewrite (foldl_planned_sort_used st n Hn), Hc. exact Hy.
Qed.

(** *** [move] *)

Lemma move_spec st item dest st' :
  move st item dest = Ok st' →
  ∃ src items,
    current_owner (item_at st item) = Some src
    ∧ list_remove item (planned_items (node_at st src)) = Ok items
    ∧ nodes st' = nodes st
    ∧ (∀ j, j ≠ item → item_at st' j = item_at st j)
    ∧ planned_owner (item_at st' item) = Some dest
    ∧ initial_owner (item_at st' item) = initial_owner (item_at st item)
    ∧ (∀ n, planned_used (node_at st' n) = planned_used (node_at st n))
    ∧ (∀ n, n ≠ src → n ≠ dest → node_at st' n = node_at st n)
    ∧ (src ≠ dest →
       planned_items (node_at st' src) = items
       ∧ planned_items (node_at st' dest) = planned_items (node_at st dest) ++ [item])
    ∧ (src = dest → planned_items (node_at st' dest) = items ++ [item]).
Proof.
  unfold move. intros Hm.
  destruct (current_owner (item_at st item)) as [src|]; [|done].
  apply bind_Ok in Hm as (items & Hitems & Hm). injection Hm as <-.
  exists src, items. simpl. rewrite !upd_eq.
  repeat (split; [done|]).
  split; [by intros j Hj; rewrite upd_ne|].
  split; [done|]. split; [done|]. split; [|split; [|split]].
  - intros n. destruct (decide (n = dest)) as [->|Hd].
    + rewrite upd_eq. simpl. destruct (decide (dest = src)) as [->|Hs].
      * by rewrite upd_eq.
      * by rewrite upd_ne.
    + rewrite upd_ne by done. destruct (decide (n = src)) as [->|Hs].
      * by rewrite upd_eq.
      * by rewrite upd_ne.
  - intros n Hs Hd. by rewrite !upd_ne.
  - intros Hne. rewrite (upd_ne _ dest _ src) by done. rewrite upd_eq. simpl.
    split; [done|]. by rewrite upd_ne by done.
  - intros ->. by rewrite upd_eq.
Qed.

Lemma plan_one_static st settings r st' :
  plan_one st settings (plan_step_of settings) = Ok (r, st') → static_eq st st'.
Proof.
  intros H. apply plan_one_spec in H as (st1 & cur & larges & Hr & _ & _ & H).
  apply resort_static in Hr.
  destruct H as [[_ ->]|(_ & item & node & _ & _ & _ & _ & _ & Hm)]; [done|].
  eapply static_eq_trans; [exact Hr|]. by eapply move_static.
Qed.

(** *** The loop of [plan] *)

Lemma plan_loop_inv (P : PlanRun → Prop) settings iters run run' :
  (∀ run st', P run →
     plan_one (final run) settings (plan_step_of settings) = Ok (None, st') →
     P (mkPlanRun (all_moves run) st' (S (rounds run)))) →
  (∀ run item st', P run →
     plan_one (final run) settings (plan_step_of settings) = Ok (Some [item], st') →
     P (mkPlanRun (all_moves run ++ [item]) st' (S (rounds run)))) →
  P run → plan_loop iters settings run = Ok run' → P run'.
Proof.
  intros Hnone Hsome. revert run.
  induction iters as [|iters IH]; intros run Hrun Hl; simpl in Hl.
  - by injection Hl as <-.
  - apply bind_Ok in Hl as ([r st'] & Hone & Hl). simpl in Hl.
    pose proof Hone as Hone'.
    apply plan_one_spec in Hone' as (st1 & cur & larges & _ & _ & _ & Hcase).
    destruct Hcase as [[-> ->]|(_ & item & node & _ & -> & _)].
    + injection Hl as <-. by apply Hnone.
    + eapply IH; [|exact Hl]. by apply Hsome.
Qed.

Lemma plan_loop_bound settings iters run run' :
  plan_loop iters settings run = Ok run' →
  (rounds run' ≤ rounds run + iters)%nat
  ∧ (length (all_moves run') + rounds run ≤ length (all_moves run) + rounds run')%nat.
Proof.
  revert run. induction iters as [|iters IH]; intros run Hl; simpl in Hl.
  - injection Hl as <-. lia.
  - apply bind_Ok in Hl as ([r st'] & Hone & Hl). simpl in Hl.
    apply plan_one_spec in Hone as (st1 & cur & larges & _ & _ & _ & Hcase).
    destruct Hcase as [[-> ->]|(_ & item & node & _ & -> & _)].
    + injection Hl as <-. simpl. lia.
    + apply IH in Hl. simpl in Hl. rewrite length_app in Hl. simpl in Hl. lia.
Qed.

(** C9: [plan] is a total function: it raises or it returns.  When it
    returns it made at most [max_iters] rounds, and the list it returns
    has at most [max_iters] items in move mode and at most
    [2 * max_iters] items in swap mode. *)
Theorem plan_iteration_bound (st : State) (settings : PlanSettings) :
  (∃ e, plan st settings = Raise e)
  ∨ (∃ run, plan st settings = Ok run
       ∧ (rounds run ≤ max_iters settings)%nat
       ∧ (length (all_moves run)
          ≤ if swap settings then 2 * max_iters settings else max_iters settings)%nat).
Proof.
  destruct (plan st settings) as [run|e] eqn:Hp; [right|left; by eexists].
  exists run. split; [done|].
  unfold plan in Hp. apply bind_Ok in Hp as (st0 & _ & Hl).
  apply plan_loop_bound in Hl. simpl in Hl.
  split; [lia|]. destruct (swap settings); lia.
Qed.

(** *** Leaders *)

Lemma can_move_to_not_leader st i node :
  can_move_to st i node = Ok true → is_leader (item_at st i) = false.
Proof. unfold can_move_to. by destruct (is_leader (item_at st i)). Qed.

Lemma plan_moves_not_leader st settings run i :
  plan st settings = Ok run → i ∈ all_moves run → is_leader (item_at st i) = false.
Proof.
  unfold plan. intros Hp. apply bind_Ok in Hp as (st0 & Hinit & Hl).
  apply plan_init_static in Hinit.
  assert (HP : static_eq st (final run)
               ∧ ∀ j, j ∈ all_moves run → is_leader (item_at st j) = false);
    [|by apply HP].
  eapply (plan_loop_inv
            (fun run => static_eq st (final run)
                        ∧ ∀ j, j ∈ all_moves run → is_leader (item_at st j) = false));
    [| | |exact Hl]; simpl.
  - intros run0 st' [Hs Hm] Hone. split; [|done].
    eapply static_eq_trans; [exact Hs|]. by eapply plan_one_static.
  - intros run0 item st' [Hs Hm] Hone. split.
    { eapply static_eq_trans; [exact Hs|]. by eapply plan_one_static. }
    intros j Hj. apply elem_of_app in Hj as [Hj|Hj]; [by apply Hm|].
    apply list_elem_of_singleton in Hj as ->.
    apply plan_one_spec in Hone as (st1 & cur & larges & Hr & _ & _ & Hcase).
    destruct Hcase as [[? _]|(_ & it & node & _ & Heq & _ & Hc & _)]; [done|].
    injection Heq as <-. apply can_move_to_not_leader in Hc.
    apply resort_static in Hr.
    destruct (static_eq_trans _ _ _ Hs Hr) as (_ & _ & Hi).
    destruct (Hi item) as (_ & Hlead & _). congruence.
  - split; [done|]. intros j Hj. by apply elem_of_nil in Hj.
Qed.

Lemma mapM_fmap_Ok {A B} (f : A → result B) (g : A → B) (l : list A) :
  (∀ x, x ∈ l → f x = Ok (g x)) → mapM f l = Ok (g <$> l).
Proof.
  induction l as [|x l IH]; intros Hl; simpl; [done|].
  rewrite (Hl x) by apply list_elem_of_here. simpl.
  rewrite IH; [done|]. intros y Hy. by apply Hl, list_elem_of_further.
Qed.

Lemma mapM_Ok_Forall {A B} (f : A → result B) (P : B → Prop) (l : list A) (k : list B) :
  mapM f l = Ok k → (∀ x y, x ∈ l → f x = Ok y → P y) → Forall P k.
Proof.
  intros Hk. apply mapM_Ok in Hk.
  induction Hk as [|x y l k Hxy _ IH]; intros HP; constructor.
  - apply (HP x y); [apply list_elem_of_here|done].
  - apply IH. intros x' y' Hx'. apply HP. by apply list_elem_of_further.
Qed.

Lemma pvariance_is_Ok (data : list F) :
  data ≠ [] → pvariance_overflows data = false → pvariance data = Ok (pvariance_data data).
Proof. intros Hne Hov. unfold pvariance. destruct data; [done|]. by rewrite Hov. Qed.

(** The variance of quotients that can be computed, when it is in the
    range of floats. *)
Lemma percent_used_variance_is_Ok st inc exc (f : node_ref → F) :
  nodes st ≠ [] →
  (∀ n, n ∈ nodes st → percentage st inc exc n = Ok (f n)) →
  pvariance_overflows (f <$> nodes st) = false →
  percent_used_variance st inc exc = Ok (pvariance_data (f <$> nodes st)).
Proof.
  intros Hne Hpct Hov. unfold percent_used_variance.
  rewrite (mapM_fmap_Ok _ f _ Hpct). simpl.
  apply pvariance_is_Ok; [|done]. by destruct (nodes st).
Qed.

(** The variance of quotients between 0 and 1. *)
Lemma percent_used_variance_unit st inc exc :
  nodes st ≠ [] →
  (∀ n, n ∈ nodes st →
     ∃ a b, 0 ≤ a ≤ b ∧ b ≠ 0 ∧ percentage st inc exc n = Ok (truediv a b)) →
  ∃ v, percent_used_variance st inc exc = Ok v.
Proof.
  intros Hne Hpct. unfold percent_used_variance.
  destruct (mapM_is_Ok (percentage st inc exc) (nodes st)) as [data Hd].
  - apply Forall_forall. intros n Hn.
    destruct (Hpct n Hn) as (a & b & _ & _ & ->). by eexists.
  - rewrite Hd. simpl. exists (pvariance_data data). apply pvariance_is_Ok.
    + apply mapM_Ok, Forall2_length in Hd. destruct data; [|done].
      by destruct (nodes st).
    + apply pvariance_unit. eapply mapM_Ok_Forall; [exact Hd|].
      intros n y Hn Hy. destruct (Hpct n Hn) as (a & b & Hab & Hb & Hp).
      rewrite Hp in Hy. injection Hy as <-. by exists a, b.
Qed.

Lemma percentage_nil st n : percentage st [] [] n = planned_fraction_used st n.
Proof. done. Qed.

Lemma iter_large_nodes_is_Ok st t last_node ns :
  (∃ a, planned_fraction_used st last_node = Ok a) →
  (∀ n, n ∈ ns → ∃ b, planned_fraction_used st n = Ok b) →
  ∃ l, iter_large_nodes st t last_node ns = Ok l.
Proof.
  intros [a Ha]. induction ns as [|n ns IH]; intros Hns; simpl; [by eexists|].
  rewrite Ha. destruct (Hns n) as [b ->]; [apply list_elem_of_here|].
  simpl. destruct (too_similar a b t); [by eexists|].
  destruct IH as [l ->]; [intros m Hm; by apply Hns, list_elem_of_further|].
  by eexists.
Qed.

Lemma iter_large_nodes_elem st t last_node ns l i :
  iter_large_nodes st t last_node ns = Ok l → i ∈ l →
  has_moved (item_at st i) = false
  ∧ ∃ n, n ∈ ns ∧ i ∈ planned_items (node_at st n).
Proof.
  revert l. induction ns as [|n ns IH]; intros l Hl Hi; simpl in Hl.
  - injection Hl as <-. by apply elem_of_nil in Hi.
  - apply bind_Ok in Hl as (a & _ & Hl). apply bind_Ok in Hl as (b & _ & Hl).
    destruct (too_similar a b t).
    { injection Hl as <-. by apply elem_of_nil in Hi. }
    apply bind_Ok in Hl as (more & Hmore & Hl). injection Hl as <-.
    apply elem_of_app in Hi as [Hi|Hi].
    + unfold unmoved in Hi. apply list_elem_of_filter in Hi as [Hm Hi].
      split; [done|]. exists n. split; [apply list_elem_of_here|done].
    + destruct (IH _ Hmore Hi) as (Hm & m & Hin & Hpl).
      split; [done|]. exists m. split; [by apply list_elem_of_further|done].
Qed.

Lemma iter_large_items_is_Ok settings st :
  (∀ n, n ∈ nodes st → ∃ a, planned_fraction_used st n = Ok a) →
  ∃ l, iter_large_items settings st (nodes st) = Ok l.
Proof.
  intros Hfr. unfold iter_large_items.
  destruct (last (nodes st)) as [last_node|] eqn:Hlast; [|by eexists].
  apply iter_large_nodes_is_Ok; [|done].
  by apply Hfr, last_Some_elem_of.
Qed.

Lemma iter_large_items_elem settings st l i :
  iter_large_items settings st (nodes st) = Ok l → i ∈ l →
  has_moved (item_at st i) = false
  ∧ ∃ n, n ∈ nodes st ∧ i ∈ planned_items (node_at st n).
Proof.
  unfold iter_large_items. destruct (last (nodes st)) as [last_node|].
  - apply iter_large_nodes_elem.
  - intros Hl Hi. injection Hl as <-. by apply elem_of_nil in Hi.
Qed.

Lemma plan_step_move_loop_leader st settings cur item ns o :
  is_leader (item_at st item) = true →
  current_owner (item_at st item) = Some o →
  (∃ b, planned_fraction_used st o = Ok b) →
  (∀ n, n ∈ ns → ∃ a, planned_fraction_used st n = Ok a) →
  plan_step_move_loop st settings cur item ns = Ok (None, st).
Proof.
  intros Hlead Ho [b Hb]. induction ns as [|n ns IH]; intros Hns; simpl; [done|].
  destruct (Hns n) as [a ->]; [apply list_elem_of_here|].
  unfold owner_fraction_used. rewrite Ho, Hb. simpl.
  assert (Hrest : plan_step_move_loop st settings cur item ns = Ok (None, st)).
  { apply IH. intros m Hm. by apply Hns, list_elem_of_further. }
  destruct (too_similar a b _); [done|].
  unfold can_move_to. rewrite Hlead. simpl. done.
Qed.

Lemma plan_one_loop_none settings step st cur larges :
  (∀ i, i ∈ larges → step st settings cur i = Ok (None, st)) →
  plan_one_loop step st settings cur larges = Ok (None, st).
Proof.
  induction larges as [|i larges IH]; intros Hstep; simpl; [done|].
  rewrite (Hstep i) by apply list_elem_of_here. simpl.
  apply IH. intros j Hj. by apply Hstep, list_elem_of_further.
Qed.

(** What a round starts with, once [resort] has returned: the variance
    and the stream of large items. *)
Lemma resort_fractions st st1 :
  resort st = Ok st1 →
  ∀ n, n ∈ nodes st1 → planned_fraction_used st1 n = Ok (fraction_used st n).
Proof.
  intros Hr n Hn. pose proof (resort_spec _ _ Hr) as (Hperm & _).
  rewrite Hperm in Hn. by destruct (resort_fraction st st1 n Hr Hn).
Qed.

Lemma round_start_is_Ok st st1 settings :
  resort st = Ok st1 → nodes st ≠ [] →
  pvariance_overflows (fraction_used st <$> nodes st) = false →
  ∃ cur larges,
    percent_used_variance st1 [] [] = Ok cur
    ∧ iter_large_items settings st1 (nodes st1) = Ok larges.
Proof.
  intros Hr Hne Hov.
  pose proof (resort_spec _ _ Hr) as (Hperm & _).
  pose proof (resort_fractions _ _ Hr) as Hfr.
  assert (Hne1 : nodes st1 ≠ []).
  { intros H1. rewrite H1 in Hperm. symmetry in Hperm.
    by apply Permutation_nil_r in Hperm. }
  destruct (iter_large_items_is_Ok settings st1) as [larges Hl].
  { intros n Hn. rewrite (Hfr n Hn). by eexists. }
  eexists _, larges. split; [|done].
  apply (percent_used_variance_is_Ok st1 [] [] (fraction_used st)); [done| |].
  - intros n Hn. rewrite percentage_nil. by apply Hfr.
  - rewrite <- Hov. apply pvariance_overflows_perm. by apply fmap_Permutation.
Qed.

(** Nodes that hold between nothing and their capacity: the fractions
    and their variance are in the range of floats. *)
Lemma fits_in_range st :
  (∀ n, n ∈ nodes st →
     0 ≤ used st n ≤ capacity (node_at st n) ∧ capacity (node_at st n) ≠ 0) →
  (∀ n, n ∈ nodes st → in_range st n)
  ∧ pvariance_overflows (fraction_used st <$> nodes st) = false.
Proof.
  intros Hfit. split.
  - intros n Hn. destruct (Hfit n Hn) as [Hu Hc]. split; [done|].
    by apply overflows_unit.
  - apply pvariance_unit. apply Forall_fmap, Forall_forall. intros n Hn. simpl.
    destruct (Hfit n Hn) as [Hu Hc]. by exists (used st n), (capacity (node_at st n)).
Qed.

(** A round in move mode over a placement whose replicas are all
    leaders accepts nothing. *)
Lemma plan_one_all_leaders st settings :
  swap settings = false →
  nodes st ≠ [] →
  (∀ n, n ∈ nodes st → in_range st n) →
  pvariance_overflows (fraction_used st <$> nodes st) = false →
  (∀ n i, n ∈ nodes st → i ∈ planned_items (node_at st n) →
     is_leader (item_at st i) = true
     ∧ ∃ o, current_owner (item_at st i) = Some o ∧ o ∈ nodes st) →
  ∃ st1, plan_one st settings (plan_step_of settings) = Ok (None, st1).
Proof.
  intros Hsw Hne Hcap Hov Hlead.
  destruct (resort_is_Ok st Hcap) as [st1 Hr].
  pose proof (resort_spec _ _ Hr) as (Hperm & Hit & Hst & Hn & _).
  pose proof (resort_fractions _ _ Hr) as Hfr.
  destruct (round_start_is_Ok st st1 settings Hr Hne Hov) as (cur & larges & Hcur & Hl).
  exists st1. unfold plan_one. rewrite Hr. simpl. rewrite Hcur. simpl.
  rewrite Hl. simpl. apply plan_one_loop_none. intros i Hi.
  destruct (iter_large_items_elem _ _ _ _ Hl Hi) as (_ & n & Hin & Hpl).
  rewrite Hperm in Hin. destruct (Hn n) as (Hpn & _). rewrite Hpn in Hpl.
  destruct (Hlead n i Hin Hpl) as (Hld & o & Ho & Hco).
  unfold plan_step_of. rewrite Hsw. unfold plan_step_move.
  apply plan_step_move_loop_leader with (o := o).
  - by rewrite Hit.
  - by rewrite Hit.
  - rewrite (Hfr o) by (by rewrite Hperm). by eexists.
  - intros m Hm. rewrite elem_of_reverse in Hm. rewrite (Hfr m Hm). by eexists.
Qed.

(** On the placement S2 (disk A with one leader of size 50, disk B
    empty, both of capacity 100) [plan], in move mode, returns the empty
    list, whatever the iteration count and the thresholds. *)
Lemma plan_S2_move_mode iters threshold item_threshold :
  ∃ run, plan S2 (mkPlanSettings iters threshold item_threshold false) = Ok run
         ∧ all_moves run = [].
Proof.
  unfold plan.
  destruct (plan_init S2) as [st0|e] eqn:Hinit; [|by vm_compute in Hinit].
  simpl. destruct iters as [|iters]; [by eexists|]. simpl.
  assert (Hfit : ∀ n, n ∈ nodes st0 →
            0 ≤ used st0 n ≤ capacity (node_at st0 n) ∧ capacity (node_at st0 n) ≠ 0).
  { vm_compute in Hinit. injection Hinit as <-. intros n Hn.
    repeat (apply elem_of_cons in Hn as [->|Hn]; [vm_compute; repeat split; discriminate|]).
    by apply elem_of_nil in Hn. }
  assert (Hlead : ∀ n i, n ∈ nodes st0 → i ∈ planned_items (node_at st0 n) →
            is_leader (item_at st0 i) = true
            ∧ ∃ o, current_owner (item_at st0 i) = Some o ∧ o ∈ nodes st0).
  { vm_compute in Hinit. injection Hinit as <-. intros n i Hn Hi.
    repeat (apply elem_of_cons in Hn as [->|Hn];
            [vm_compute in Hi;
             repeat (apply elem_of_cons in Hi as [->|Hi];
                     [split; [done|]; exists 0%nat; split; [done|apply list_elem_of_here]|]);
             by apply elem_of_nil in Hi|]).
    by apply elem_of_nil in Hn. }
  assert (Hne : nodes st0 ≠ []).
  { vm_compute in Hinit. by injection Hinit as <-. }
  destruct (fits_in_range st0 Hfit) as [Hrange Hvar].
  destruct (plan_one_all_leaders st0
              (mkPlanSettings (S iters) threshold item_threshold false))
    as [st1 Hone]; try done.
  rewrite Hone. by eexists.
Qed.

(** *** The first loop of [plan] *)

Lemma init_item_spec n st i st' :
  init_item n st i = Ok st' →
  nodes st' = nodes st ∧ node_at st' = node_at st
  ∧ initial_owner (item_at st' i) = Some n
  ∧ planned_owner (item_at st' i) = None
  ∧ (∀ j, j ≠ i → item_at st' j = item_at st j)
  ∧ (∀ j m, initial_owner (item_at st j) = Some m →
            initial_owner (item_at st' j) = Some m).
Proof.
  unfold init_item. intros H.
  destruct (initial_owner (item_at st i)) as [o|] eqn:Ho.
  - destruct (decide (o = n)) as [->|]; [|done]. injection H as <-. simpl.
    rewrite upd_eq. repeat (split; [done|]).
    split; [by intros j Hj; rewrite upd_ne|].
    intros j m Hj. destruct (decide (j = i)) as [->|Hne].
    + rewrite upd_eq. simpl. congruence.
    + by rewrite upd_ne.
  - injection H as <-. simpl. rewrite upd_eq. repeat (split; [done|]).
    split; [by intros j Hj; rewrite upd_ne|].
    intros j m Hj. destruct (decide (j = i)) as [->|Hne]; [congruence|].
    by rewrite upd_ne.
Qed.

Lemma for_each_init_item_spec n l st st' :
  for_each (init_item n) l st = Ok st' →
  nodes st' = nodes st ∧ node_at st' = node_at st
  ∧ (∀ i, i ∈ l → initial_owner (item_at st' i) = Some n
                  ∧ planned_owner (item_at st' i) = None)
  ∧ (∀ j, j ∉ l → item_at st' j = item_at st j)
  ∧ (∀ j m, initial_owner (item_at st j) = Some m →
            initial_owner (item_at st' j) = Some m).
Proof.
  revert st. induction l as [|x l IH]; intros st H; simpl in H.
  - injection H as <-. do 2 (split; [done|]). split; [|done].
    intros i Hi. by apply elem_of_nil in Hi.
  - apply bind_Ok in H as (s1 & Hx & H).
    apply init_item_spec in Hx as (Hn1 & Hna1 & Hio & Hpo & Hoth & Hmono).
    apply IH in H as (Hn2 & Hna2 & Hin & Hout & Hmono2).
    split; [congruence|]. split; [congruence|]. split; [|split].
    + intros i Hi. destruct (decide (i ∈ l)) as [Hl|Hl]; [by apply Hin|].
      apply elem_of_cons in Hi as [->|?]; [|done].
      rewrite (Hout _ Hl). done.
    + intros j Hj. rewrite Hout, Hoth; [done| |].
      * intros ->. apply Hj, list_elem_of_here.
      * intros ?. by apply Hj, list_elem_of_further.
    + intros j m Hj. by apply Hmono2, Hmono.
Qed.

Lemma init_node_spec st n st' :
  init_node st n = Ok st' →
  nodes st' = nodes st
  ∧ planned_items (node_at st' n) = initial_items (node_at st n)
  ∧ (∀ m, m ≠ n → node_at st' m = node_at st m)
  ∧ (∀ i, i ∈ initial_items (node_at st n) →
          initial_owner (item_at st' i) = Some n
          ∧ planned_owner (item_at st' i) = None)
  ∧ (∀ j m, initial_owner (item_at st j) = Some m →
            initial_owner (item_at st' j) = Some m)
  ∧ (∀ j, planned_owner (item_at st j) = None → planned_owner (item_at st' j) = None).
Proof.
  unfold init_node. intros H.
  apply for_each_init_item_spec in H as (Hn & Hna & Hin & Hout & Hmono).
  simpl in *. split; [done|]. rewrite Hna.
  split; [by rewrite upd_eq|]. split; [by intros m Hm; rewrite upd_ne|].
  split; [done|]. split; [done|].
  intros j Hj. destruct (decide (j ∈ initial_items (node_at st n))) as [Hl|Hl].
  - by apply Hin.
  - by rewrite Hout.
Qed.

Lemma for_each_init_node_spec l st st' :
  for_each init_node l st = Ok st' →
  nodes st' = nodes st
  ∧ (∀ n, n ∈ l → planned_items (node_at st' n) = initial_items (node_at st n))
  ∧ (∀ n i, n ∈ l → i ∈ initial_items (node_at st n) →
            initial_owner (item_at st' i) = Some n
            ∧ planned_owner (item_at st' i) = None)
  ∧ (∀ n, n ∉ l → node_at st' n = node_at st n)
  ∧ (∀ j m, initial_owner (item_at st j) = Some m →
            initial_owner (item_at st' j) = Some m)
  ∧ (∀ j, planned_owner (item_at st j) = None → planned_owner (item_at st' j) = None).
Proof.
  revert st. induction l as [|x l IH]; intros st H; simpl in H.
  - injection H as <-. split; [done|].
    split; [intros n Hn; by apply elem_of_nil in Hn|].
    split; [intros n i Hn; by apply elem_of_nil in Hn|]. done.
  - apply bind_Ok in H as (s1 & Hx & H).
    pose proof (init_node_static _ _ _ Hx) as (_ & Hstat & _).
    apply init_node_spec in Hx as (Hn1 & Hpl & Hoth & Hown & Hmono & Hpo).
    apply IH in H as (Hn2 & Hin & Hown2 & Hout & Hmono2 & Hpo2).
    assert (Hini : ∀ n, initial_items (node_at s1 n) = initial_items (node_at st n)).
    { intros n. by destruct (Hstat n) as (_ & -> & _). }
    split; [congruence|]. split; [|split; [|split; [|split]]].
    + intros n Hnl. destruct (decide (n ∈ l)) as [Hl|Hl].
      * by rewrite (Hin _ Hl), Hini.
      * apply elem_of_cons in Hnl as [->|?]; [|done]. by rewrite (Hout _ Hl).
    + intros n i Hnl Hi. destruct (decide (n ∈ l)) as [Hl|Hl].
      * apply Hown2; [done|]. by rewrite Hini.
      * apply elem_of_cons in Hnl as [->|?]; [|done].
        destruct (Hown i Hi) as [Hio Hpn]. split; [by apply Hmono2|by apply Hpo2].
    + intros n Hnl. rewrite Hout, Hoth; [done| |].
      * intros ->. apply Hnl, list_elem_of_here.
      * intros ?. by apply Hnl, list_elem_of_further.
    + intros j m Hj. by apply Hmono2, Hmono.
    + intros j Hj. by apply Hpo2, Hpo.
Qed.

Lemma plan_init_spec st st0 :
  plan_init st = Ok st0 →
  nodes st0 = nodes st
  ∧ static_eq st st0
  ∧ (∀ n, n ∈ nodes st → planned_items (node_at st0 n) = initial_items (node_at st n))
  ∧ (∀ n i, n ∈ nodes st → i ∈ initial_items (node_at st n) →
            initial_owner (item_at st0 i) = Some n
            ∧ planned_owner (item_at st0 i) = None).
Proof.
  intros H. pose proof (plan_init_static _ _ H) as Hs.
  apply for_each_init_node_spec in H as (Hn & Hpl & Hown & _).
  done.
Qed.

(** *** An accepted round *)

Lemma accepted_move_spec st settings cur item node st' :
  has_moved (item_at st item) = false →
  accepted_move st settings cur item node st' →
  ∃ src items,
    src ≠ node
    ∧ initial_owner (item_at st item) = Some src
    ∧ planned_items (node_at st src) ≡ₚ item :: items
    ∧ planned_items (node_at st' src) = items
    ∧ planned_items (node_at st' node) = planned_items (node_at st node) ++ [item]
    ∧ (∀ n, n ≠ src → n ≠ node → node_at st' n = node_at st n)
    ∧ (∀ n, planned_used (node_at st' n) = planned_used (node_at st n))
    ∧ nodes st' = nodes st
    ∧ static_eq st st'
    ∧ planned_used (node_at st node) + size (item_at st item) ≤ capacity (node_at st node)
    ∧ (∀ j, j ≠ item → item_at st' j = item_at st j)
    ∧ planned_owner (item_at st' item) = Some node.
Proof.
  intros Hun (Hin & Hcan & _ & Hm).
  pose proof (move_static _ _ _ _ Hm) as Hstat.
  apply move_spec in Hm
    as (src & items & Hcur & Hrem & Hn & Hoth & Hpo & Hio & Hused & Hnode & Hne & _).
  unfold has_moved in Hun. unfold current_owner in Hcur.
  destruct (planned_owner (item_at st item)); [done|].
  unfold can_move_to in Hcan.
  destruct (is_leader (item_at st item)); [done|].
  destruct (Item_can_move_to st (item_at st item) node) eqn:Hbase; [|done].
  unfold Item_can_move_to in Hbase.
  destruct (decide (initial_owner (item_at st item) = Some node)) as [|Hnot]; [done|].
  destruct (_ >? _) eqn:Hgt; [done|].
  assert (Hsd : src ≠ node) by congruence.
  destruct (Hne Hsd) as [Hs Hd].
  exists src, items. repeat (split; [done|]).
  split; [by apply list_remove_Ok|]. repeat (split; [done|]).
  split; [lia|]. done.
Qed.

Lemma plan_one_accepted st settings ms st' :
  plan_one st settings (plan_step_of settings) = Ok (Some ms, st') →
  ∃ st1 cur item node n,
    resort st = Ok st1
    ∧ percent_used_variance st1 [] [] = Ok cur
    ∧ ms = [item]
    ∧ has_moved (item_at st1 item) = false
    ∧ n ∈ nodes st1 ∧ item ∈ planned_items (node_at st1 n)
    ∧ accepted_move st1 settings cur item node st'.
Proof.
  intros H. apply plan_one_spec in H as (st1 & cur & larges & Hr & Hcur & Hl & Hcase).
  destruct Hcase as [[? _]|(_ & item & node & Hin & [= ->] & Hacc)]; [done|].
  destruct (iter_large_items_elem _ _ _ _ Hl Hin) as (Hun & n & Hn & Hpl).
  by exists st1, cur, item, node, n.
Qed.

(** *** Invariants of a run *)

Lemma plan_reaches_inv (P : State → Prop) settings st :
  (∀ st0, plan_init st = Ok st0 → P st0) →
  (∀ st1 st2, P st1 → resort st1 = Ok st2 → P st2) →
  (∀ st1 cur item node n st2,
     P st1 →
     has_moved (item_at st1 item) = false →
     n ∈ nodes st1 → item ∈ planned_items (node_at st1 n) →
     (∀ m, m ∈ nodes st1 → planned_used (node_at st1 m) = used st1 m) →
     accepted_move st1 settings cur item node st2 →
     P st2) →
  ∀ st', plan_reaches settings st st' → P st'.
Proof.
  intros Hinit Hresort Hmove st' Hreach.
  induction Hreach as [st0 H0|st1 st2 _ IH Hr|st1 r st2 _ IH Hone]; [by auto|by eauto|].
  destruct r as [ms|].
  - apply plan_one_accepted in Hone
      as (s1 & cur & item & node & n & Hr & _ & _ & Hun & Hn & Hpl & Hacc).
    eapply (Hmove s1); eauto.
    intros m Hm. apply resort_spec in Hr as (Hperm & _ & _ & Hnn & _).
    destruct (Hnn m) as (_ & Hu & _). apply Hu. by rewrite <- Hperm.
  - apply plan_one_spec in Hone as (s1 & cur & larges & Hr & _ & _ & Hcase).
    destruct Hcase as [[_ ->]|(_ & ? & ? & _ & ? & _)]; [by eauto|done].
Qed.

Lemma plan_final_reached st settings run :
  plan st settings = Ok run → plan_reaches settings st (final run).
Proof.
  unfold plan. intros H. apply bind_Ok in H as (st0 & Hinit & Hl).
  eapply (plan_loop_inv (fun run => plan_reaches settings st (final run)));
    [| | |exact Hl]; simpl.
  - intros run0 st' Hrun Hone. by eapply reaches_round.
  - intros run0 item st' Hrun Hone. by eapply reaches_round.
  - by apply reaches_init.
Qed.

(** *** Capacity *)

Lemma plan_reaches_within_capacity st settings st' :
  (∀ i, 0 ≤ size (item_at st i)) →
  (∀ n, n ∈ nodes st →
     sum_sizes st (initial_items (node_at st n)) ≤ capacity (node_at st n)) →
  plan_reaches settings st st' →
  static_eq st st' ∧ within_capacity st'.
Proof.
  intros Hsize Hfit Hreach. revert st' Hreach.
  apply (plan_reaches_inv (fun st' => static_eq st st' ∧ within_capacity st')).
  - intros st0 H0. apply plan_init_spec in H0 as (Hn & Hs & Hpl & _).
    split; [done|]. intros n Hin. rewrite Hn in Hin. unfold used.
    rewrite (Hpl _ Hin), (sum_sizes_static _ _ _ Hs).
    destruct Hs as (_ & Hnn & _). destruct (Hnn n) as (-> & _). by apply Hfit.
  - intros st1 st2 [Hs Hcap] Hr.
    apply resort_spec in Hr as (Hperm & _ & Hs12 & Hnn & _).
    split; [by eapply static_eq_trans|]. intros n Hin. rewrite Hperm in Hin.
    unfold used. destruct (Hnn n) as (Hp & _).
    rewrite (sum_sizes_static _ _ _ Hs12), (sum_sizes_perm _ _ _ Hp).
    destruct Hs12 as (_ & Hc & _). destruct (Hc n) as (-> & _). by apply Hcap.
  - intros st1 cur item node n0 st2 [Hs Hcap] Hun _ _ Hused Hacc.
    pose proof Hacc as (Hnode & _).
    apply accepted_move_spec in Hacc
      as (src & items & Hsd & _ & Hperm & Hsrc & Hdst & Hoth & _ & Hn & Hs12 & Hroom & _);
      [|done].
    split; [by eapply static_eq_trans|]. intros n Hin. rewrite Hn in Hin.
    unfold used. rewrite (sum_sizes_static _ _ _ Hs12).
    pose proof Hs12 as (_ & Hc & _). destruct (Hc n) as (-> & _).
    assert (Hnonneg : 0 ≤ size (item_at st1 item)).
    { destruct Hs as (_ & _ & Hi). destruct (Hi item) as (-> & _). apply Hsize. }
    destruct (decide (n = src)) as [->|Hns].
    + rewrite Hsrc. specialize (Hcap _ Hin). unfold used in Hcap.
      rewrite (sum_sizes_perm _ _ _ Hperm) in Hcap.
      unfold sum_sizes in *. simpl in Hcap. lia.
    + destruct (decide (n = node)) as [->|Hnd].
      * rewrite Hdst, sum_sizes_app. rewrite (Hused _ Hnode) in Hroom.
        unfold used in Hroom. unfold sum_sizes at 2. simpl. lia.
      * rewrite (Hoth _ Hns Hnd). by apply Hcap.
Qed.

(** C3, as amended: when no size is negative and every node starts with
    its items within its capacity, every node holds at most its capacity
    in every state a run of [plan] goes through (after its first loop,
    after each re-sort and after each accepted move), and so in the
    state [plan] returns in. *)
Theorem plan_respects_capacity (st : State) (settings : PlanSettings) :
  (∀ i, 0 ≤ size (item_at st i)) →
  (∀ n, n ∈ nodes st →
     sum_sizes st (initial_items (node_at st n)) ≤ capacity (node_at st n)) →
  (∀ st', plan_reaches settings st st' →
     ∀ n, n ∈ nodes st' →
       sum_sizes st' (planned_items (node_at st' n)) ≤ capacity (node_at st' n))
  ∧ (∀ run, plan st settings = Ok run →
       ∀ n, n ∈ nodes (final run) →
         sum_sizes (final run) (planned_items (node_at (final run) n))
         ≤ capacity (node_at (final run) n)).
Proof.
  intros Hsize Hfit.
  assert (H : ∀ st', plan_reaches settings st st' → within_capacity st').
  { intros st' Hr. by eapply plan_reaches_within_capacity. }
  split; [exact H|].
  intros run Hp. by apply H, plan_final_reached.
Qed.

(** *** Conservation *)

Lemma remove_dups_perm (l k : list nat) : l ≡ₚ k → remove_dups l ≡ₚ remove_dups k.
Proof.
  intros Hp. apply NoDup_Permutation; [apply NoDup_remove_dups..|].
  intros x. by rewrite !elem_of_remove_dups, Hp.
Qed.

Lemma concat_fmap_perm (f g : nat → list nat) (l k : list nat) :
  l ≡ₚ k → (∀ n, n ∈ l → f n ≡ₚ g n) → concat (f <$> l) ≡ₚ concat (g <$> k).
Proof.
  intros Hp Hfg. rewrite <- Hp. clear k Hp.
  induction l as [|x l IH]; simpl; [done|].
  rewrite (Hfg x) by apply list_elem_of_here.
  rewrite IH; [done|]. intros n Hn. by apply Hfg, list_elem_of_further.
Qed.

Lemma concat_fmap_move (f f' : nat → list nat) (l : list nat) src dest item items :
  NoDup l → src ∈ l → dest ∈ l → src ≠ dest →
  f src ≡ₚ item :: items → f' src = items → f' dest = f dest ++ [item] →
  (∀ n, n ≠ src → n ≠ dest → f' n = f n) →
  concat (f' <$> l) ≡ₚ concat (f <$> l).
Proof.
  intros Hnd Hs Hd Hne Hfs Hfs' Hfd' Hoth.
  apply elem_of_Permutation in Hs as [k Hk].
  assert (Hdk : dest ∈ k).
  { rewrite Hk in Hd. apply elem_of_cons in Hd as [?|?]; [congruence|done]. }
  apply elem_of_Permutation in Hdk as [k' Hk'].
  assert (Hl : l ≡ₚ src :: dest :: k') by (by rewrite Hk, Hk').
  rewrite Hl in Hnd. apply NoDup_cons in Hnd as [Hs1 Hnd].
  apply NoDup_cons in Hnd as [Hd1 _].
  rewrite (concat_fmap_perm f' f' _ _ Hl) by done.
  rewrite (concat_fmap_perm f f _ _ Hl) by done.
  simpl. rewrite Hfs', Hfd', Hfs.
  rewrite (concat_fmap_perm f' f k' k' (reflexivity _)).
  - simpl. rewrite <- (app_assoc (f dest)). simpl.
    rewrite !(app_assoc items). symmetry. apply Permutation_middle.
  - intros n Hn. rewrite Hoth; [done| |].
    + intros ->. apply Hs1. by apply list_elem_of_further.
    + by intros ->.
Qed.

Lemma plan_reaches_conserves st settings st' :
  plan_reaches settings st st' →
  nodes st' ≡ₚ nodes st ∧ held_planned st' ≡ₚ held_initial st ∧ owned st'.
Proof.
  intros Hreach. revert st' Hreach.
  apply (plan_reaches_inv
           (fun st' => nodes st' ≡ₚ nodes st ∧ held_planned st' ≡ₚ held_initial st
                       ∧ owned st')).
  - intros st0 H0. apply plan_init_spec in H0 as (Hn & Hs & Hpl & Hown).
    split; [by rewrite Hn|]. split.
    + unfold held_planned, held_initial. rewrite Hn.
      apply concat_fmap_perm; [done|]. intros n Hin.
      rewrite elem_of_remove_dups in Hin. by rewrite (Hpl _ Hin).
    + intros n i Hin Hi _. rewrite Hn in Hin. rewrite (Hpl _ Hin) in Hi.
      by destruct (Hown n i Hin Hi).
  - intros st1 st2 (Hns & Hheld & Hown) Hr.
    apply resort_spec in Hr as (Hperm & Hit & _ & Hnn & _).
    split; [by rewrite Hperm|]. split.
    + rewrite <- Hheld. unfold held_planned.
      apply concat_fmap_perm; [by apply remove_dups_perm|].
      intros n _. by destruct (Hnn n) as (Hp & _).
    + intros n i Hin Hi. rewrite Hperm in Hin. destruct (Hnn n) as (Hp & _).
      rewrite Hp in Hi. rewrite Hit. by apply Hown.
  - intros st1 cur item node n0 st2 (Hns & Hheld & Hown) Hun Hn0 Hpl0 _ Hacc.
    pose proof Hacc as (Hnode & _).
    apply accepted_move_spec in Hacc
      as (src & items & Hsd & Hio & Hperm & Hsrc & Hdst & Hoth & _ & Hn & _ & _
          & Hitems & Hpo); [|done].
    assert (Hn0src : n0 = src).
    { unfold has_moved in Hun.
      destruct (planned_owner (item_at st1 item)) eqn:Hp; [done|].
      specialize (Hown n0 item Hn0 Hpl0 Hp). congruence. }
    subst n0.
    split; [by rewrite Hn|]. split.
    + rewrite <- Hheld. unfold held_planned. rewrite Hn.
      apply (concat_fmap_move _ _ _ src node item items); try done.
      * apply NoDup_remove_dups.
      * by rewrite elem_of_remove_dups.
      * by rewrite elem_of_remove_dups.
      * intros n Hs' Hd'. by rewrite Hoth.
    + intros n i Hin Hi Hnone. rewrite Hn in Hin.
      assert (Hi' : i ≠ item) by (intros ->; congruence).
      rewrite (Hitems _ Hi') in Hnone |- *.
      apply Hown; [done| |done].
      destruct (decide (n = src)) as [->|Hns'].
      * rewrite Hsrc in Hi. rewrite Hperm. by apply list_elem_of_further.
      * destruct (decide (n = node)) as [->|Hnd].
        -- rewrite Hdst in Hi. apply elem_of_app in Hi as [?|Hi]; [done|].
           by apply list_elem_of_singleton in Hi.
        -- by rewrite <- (Hoth _ Hns' Hnd).
Qed.

(** C2: in every state a run of [plan] goes through, and in the state it
    returns in, the items the nodes hold by their [planned_items] are, as
    a multiset, the items the nodes held by their [initial_items] when
    [plan] was called; and an accepted move takes one occurrence of the
    item out of one node's [planned_items], appends the item to another
    node's, and leaves every other node as it was. *)
Theorem plan_conserves_items (st : State) (settings : PlanSettings) :
  (∀ st', plan_reaches settings st st' → held_planned st' ≡ₚ held_initial st)
  ∧ (∀ run, plan st settings = Ok run → held_planned (final run) ≡ₚ held_initial st)
  ∧ (∀ st1 cur item node st2,
       has_moved (item_at st1 item) = false →
       accepted_move st1 settings cur item node st2 →
       ∃ src items,
         src ≠ node
         ∧ planned_items (node_at st1 src) ≡ₚ item :: items
         ∧ planned_items (node_at st2 src) = items
         ∧ planned_items (node_at st2 node) = planned_items (node_at st1 node) ++ [item]
         ∧ ∀ n, n ≠ src → n ≠ node → node_at st2 n = node_at st1 n).
Proof.
  split; [|split].
  - intros st' Hr. by apply plan_reaches_conserves in Hr as (_ & ? & _).
  - intros run Hp. apply plan_final_reached in Hp.
    by apply plan_reaches_conserves in Hp as (_ & ? & _).
  - intros st1 cur item node st2 Hun Hacc.
    apply accepted_move_spec in Hacc
      as (src & items & ? & _ & ? & ? & ? & ? & _); [|done].
    by exists src, items.
Qed.

(** *** Variance *)

Lemma mapM_perm {A B} (f : A → result B) (l k : list A) (data : list B) :
  l ≡ₚ k → mapM f l = Ok data → ∃ data', mapM f k = Ok data' ∧ data' ≡ₚ data.
Proof.
  intros Hp. revert data.
  induction Hp as [|x l k _ IH|x y l|l k m _ IH1 _ IH2]; intros data Hd.
  - by exists data.
  - simpl in *. apply bind_Ok in Hd as (a & -> & Hd).
    apply bind_Ok in Hd as (r & Hr & [= <-]).
    destruct (IH _ Hr) as (r' & -> & Hp'). simpl. exists (a :: r').
    split; [done|]. by apply Permutation_cons.
  - simpl in *. apply bind_Ok in Hd as (a & -> & Hd).
    apply bind_Ok in Hd as (r & Hr & [= <-]).
    apply bind_Ok in Hr as (b & -> & Hr).
    apply bind_Ok in Hr as (r2 & -> & [= <-]). simpl.
    exists (b :: a :: r2). split; [done|]. apply Permutation_swap.
  - destruct (IH1 _ Hd) as (r1 & Hr1 & Hp1).
    destruct (IH2 _ Hr1) as (r2 & Hr2 & Hp2).
    exists r2. split; [done|]. by rewrite Hp2.
Qed.

Lemma pvariance_Ok_perm (data data' : list F) v :
  data' ≡ₚ data → pvariance data = Ok v → pvariance data' = Ok v.
Proof.
  intros Hp Hv. destruct data as [|d data]; [done|].
  destruct data' as [|d' data'].
  { symmetry in Hp. by apply Permutation_nil_r in Hp. }
  unfold pvariance in *. rewrite (pvariance_overflows_perm _ _ Hp).
  destruct (pvariance_overflows (d :: data)); [done|].
  injection Hv as <-. f_equal. by apply pvariance_perm.
Qed.

Lemma percent_used_variance_perm st st' inc exc inc' exc' v :
  nodes st ≡ₚ nodes st' →
  (∀ n, n ∈ nodes st →
     percentage st' inc' exc' n = percentage st inc exc n) →
  percent_used_variance st inc exc = Ok v →
  percent_used_variance st' inc' exc' = Ok v.
Proof.
  intros Hperm Hpct. unfold percent_used_variance. intros H.
  apply bind_Ok in H as (data & Hd & Hv).
  assert (Hd0 : mapM (percentage st' inc' exc') (nodes st) = Ok data).
  { rewrite <- Hd. apply mapM_ext_Ok, Forall_forall. intros n Hn. by apply Hpct. }
  destruct (mapM_perm _ _ _ _ Hperm Hd0) as (data' & -> & Hp). simpl.
  by eapply pvariance_Ok_perm.
Qed.

(** C4: a round that accepts a move strictly lowers the variance: the
    variance the next round starts from (or the one [plan] ends with),
    computed from the re-sorted nodes, is less than the variance the
    accepting round started from.  (Swap mode accepts nothing.) *)
Theorem accepted_round_lowers_variance (st : State) (settings : PlanSettings)
    (ms : list item_ref) (st' : State) :
  plan_one st settings (plan_step_of settings) = Ok (Some ms, st') →
  ∃ v v', round_variance st = Ok v ∧ round_variance st' = Ok v' ∧ flt v' v = true.
Proof.
  intros H. apply plan_one_accepted in H
    as (st1 & cur & item & node & n0 & Hr & Hcur & -> & Hun & Hn0 & Hpl0 & Hacc).
  pose proof Hacc as (Hnode & _ & (v & Hv & Hlt) & _).
  exists cur, v. split; [by unfold round_variance; rewrite Hr|]. split; [|done].
  apply accepted_move_spec in Hacc
    as (src & items & Hsd & Hio & Hperm & Hsrc & Hdst & Hoth & Hpu & Hn & Hs12
        & Hroom & Hitems & Hpo); [|done].
  pose proof (resort_spec _ _ Hr) as (Hp01 & _ & Hs01 & Hnn1 & Hcap0).
  assert (Hcap1 : ∀ n, n ∈ nodes st1 → capacity (node_at st1 n) ≠ 0).
  { intros n Hin. rewrite Hp01 in Hin. destruct Hs01 as (_ & Hc & _).
    destruct (Hc n) as (-> & _). by apply Hcap0. }
  pose proof Hs12 as (_ & Hc12 & _).
  assert (Hpct : ∀ n, n ∈ nodes st1 →
            percentage st1 [(Some node, item)] [(initial_owner (item_at st1 item), item)] n
            = int_truediv (used st' n) (capacity (node_at st' n))).
  { intros n Hin. unfold percentage. simpl.
    destruct (Hc12 n) as (-> & _). f_equal. symmetry. unfold used.
    rewrite (sum_sizes_static _ _ _ Hs12).
    destruct (Hnn1 n) as (_ & Hu1 & _). rewrite Hu1 by (by rewrite <- Hp01).
    rewrite (sum_sizes_static _ _ _ Hs01). rewrite Hio.
    destruct (decide (n = src)) as [->|Hns].
    - rewrite Hsrc. rewrite (decide_True (P := Some src = Some src)) by done.
      rewrite (decide_False (P := Some node = Some src)) by congruence.
      rewrite <- (sum_sizes_static _ _ _ Hs01), (sum_sizes_perm _ _ _ Hperm).
      unfold sum_sizes. simpl. lia.
    - rewrite (decide_False (P := Some src = Some n)) by congruence.
      destruct (decide (n = node)) as [->|Hnd].
      + rewrite Hdst, (decide_True (P := Some node = Some node)) by done.
        rewrite <- (sum_sizes_static _ _ _ Hs01), sum_sizes_app.
        unfold sum_sizes at 2. simpl. lia.
      + rewrite (decide_False (P := Some node = Some n)) by congruence.
        rewrite (Hoth _ Hns Hnd).
        by rewrite (sum_sizes_static _ _ _ Hs01). }
  assert (Hrange : ∀ n, n ∈ nodes st' → in_range st' n).
  { intros n Hin. rewrite Hn in Hin. unfold percent_used_variance in Hv.
    apply bind_Ok in Hv as (data & Hd & _).
    destruct (mapM_Ok_elem _ _ _ _ Hd Hin) as [y Hy]. rewrite (Hpct n Hin) in Hy.
    by apply int_truediv_Ok in Hy as (? & ? & _). }
  destruct (resort_is_Ok st' Hrange) as [st2 Hr2].
  unfold round_variance. rewrite Hr2. simpl.
  pose proof (resort_spec _ _ Hr2) as (Hp2 & _).
  eapply percent_used_variance_perm; [| |exact Hv].
  { by rewrite Hp2, Hn. }
  intros n Hin. rewrite percentage_nil, (Hpct n Hin).
  rewrite (resort_fractions _ _ Hr2) by (by rewrite Hp2, Hn).
  destruct (Hrange n) as [Hne Hov]; [by rewrite Hn|].
  by rewrite (int_truediv_is_Ok _ _ Hne Hov).
Qed.

(** *** A placement at rest *)

Lemma plan_init_used st st0 n :
  plan_init st = Ok st0 → n ∈ nodes st →
  used st0 n = sum_sizes st (initial_items (node_at st n))
  ∧ capacity (node_at st0 n) = capacity (node_at st n).
Proof.
  intros H0 Hn. apply plan_init_spec in H0 as (_ & Hs0 & Hpl & _).
  unfold used. rewrite (Hpl _ Hn), (sum_sizes_static _ _ _ Hs0).
  destruct Hs0 as (_ & Hc & _). by destruct (Hc n) as (-> & _).
Qed.

Lemma plan_init_in_range st st0 :
  plan_init st = Ok st0 → starts_in_range st →
  (∀ n, n ∈ nodes st0 → in_range st0 n)
  ∧ pvariance_overflows (fraction_used st0 <$> nodes st0) = false.
Proof.
  intros H0 [Hrange Hvar].
  pose proof (plan_init_spec _ _ H0) as (Hn0 & _). rewrite Hn0. split.
  - intros n Hn. destruct (plan_init_used _ _ _ H0 Hn) as [Hu Hc].
    unfold in_range. rewrite Hu, Hc. by apply Hrange.
  - rewrite <- Hvar. f_equal. apply Forall_fmap_ext_1, Forall_forall. intros n Hn.
    destruct (plan_init_used _ _ _ H0 Hn) as [Hu Hc].
    unfold fraction_used, initial_fraction_used. by rewrite Hu, Hc.
Qed.

(** Nodes whose initial items fit: the first round can compute its
    fractions and their variance. *)
Lemma fits_starts_in_range st :
  (∀ n, n ∈ nodes st →
     0 ≤ sum_sizes st (initial_items (node_at st n)) ≤ capacity (node_at st n)
     ∧ capacity (node_at st n) ≠ 0) →
  starts_in_range st.
Proof.
  intros Hfit. split.
  - intros n Hn. destruct (Hfit n Hn) as [Hu Hc]. split; [done|].
    by apply overflows_unit.
  - apply pvariance_unit. apply Forall_fmap, Forall_forall. intros n Hn. simpl.
    destruct (Hfit n Hn) as [Hu Hc].
    by exists (sum_sizes st (initial_items (node_at st n))), (capacity (node_at st n)).
Qed.

Lemma first_round_fraction st st0 st1 n :
  plan_init st = Ok st0 → resort st0 = Ok st1 → n ∈ nodes st →
  planned_fraction_used st1 n = Ok (initial_fraction_used st n).
Proof.
  intros H0 H1 Hn.
  pose proof (plan_init_spec _ _ H0) as (Hn0 & _).
  pose proof (resort_spec _ _ H1) as (Hperm & _).
  rewrite (resort_fractions _ _ H1) by (by rewrite Hperm, Hn0).
  destruct (plan_init_used _ _ _ H0 Hn) as [Hu Hc].
  unfold fraction_used, initial_fraction_used. by rewrite Hu, Hc.
Qed.

Lemma first_round_is_Ok st st0 settings :
  plan_init st = Ok st0 → nodes st ≠ [] →
  starts_in_range st →
  ∃ st1 cur larges,
    resort st0 = Ok st1
    ∧ nodes st1 ≡ₚ nodes st
    ∧ percent_used_variance st1 [] [] = Ok cur
    ∧ iter_large_items settings st1 (nodes st1) = Ok larges
    ∧ (∀ n, n ∈ nodes st1 → ∃ a, planned_fraction_used st1 n = Ok a).
Proof.
  intros H0 Hne Hstart.
  pose proof (plan_init_spec _ _ H0) as (Hn0 & Hs0 & _).
  destruct (plan_init_in_range _ _ H0 Hstart) as [Hrange Hvar].
  destruct (resort_is_Ok st0 Hrange) as [st1 Hr].
  pose proof (resort_spec _ _ Hr) as (Hperm & _).
  destruct (round_start_is_Ok st0 st1 settings Hr) as (cur & larges & Hcur & Hl);
    [by rewrite Hn0|done|].
  exists st1, cur, larges. split; [done|].
  split; [by rewrite Hperm, Hn0|]. split; [done|]. split; [done|].
  intros n Hn. rewrite (resort_fractions _ _ Hr n Hn). by eexists.
Qed.

(** With two nodes or more at rest, the first node the large-item stream
    visits is within the threshold of the last: nothing is yielded. *)
Lemma at_rest_no_candidate st st0 st1 settings :
  plan_init st = Ok st0 → resort st0 = Ok st1 →
  (2 ≤ length (nodes st))%nat →
  at_rest settings st →
  iter_large_items settings st1 (nodes st1) = Ok [].
Proof.
  intros H0 H1 Hlen Hrest.
  pose proof (plan_init_spec _ _ H0) as (Hn0 & _).
  pose proof (resort_spec _ _ H1) as (Hperm & _).
  rewrite Hn0 in Hperm.
  pose proof (Permutation_length Hperm) as Hlen1.
  apply Permutation_inj in Hperm as (_ & f & Hinj & Hf).
  unfold iter_large_items. rewrite last_lookup.
  destruct (nodes st1) as [|first rest] eqn:Hns; [simpl in Hlen1; lia|].
  destruct ((first :: rest) !! pred (length (first :: rest))) as [last_node|] eqn:Hlast.
  2:{ apply lookup_ge_None in Hlast. simpl in Hlast. lia. }
  simpl iter_large_nodes.
  assert (Hfirst : (first :: rest) !! 0%nat = Some first) by done.
  rewrite Hf in Hfirst, Hlast.
  rewrite (first_round_fraction st st0 st1 last_node H0 H1)
    by (by eapply list_elem_of_lookup_2).
  rewrite (first_round_fraction st st0 st1 first H0 H1)
    by (by eapply list_elem_of_lookup_2).
  assert (Hne : f (pred (length (first :: rest))) ≠ f 0%nat).
  { intros Heq. apply Hinj in Heq. simpl in Heq, Hlen1. lia. }
  simpl. by rewrite (Hrest _ _ _ _ Hne Hlast Hfirst).
Qed.

(** X17: at rest with two nodes or more, when the first round can
    compute its fractions and their variance, [plan] returns the empty
    list in either mode, and no planned owner is set. *)
Lemma plan_at_rest st st0 settings :
  plan_init st = Ok st0 →
  (2 ≤ length (nodes st))%nat →
  starts_in_range st →
  at_rest settings st →
  ∃ run, plan st settings = Ok run ∧ all_moves run = []
    ∧ ∀ n i, n ∈ nodes st → i ∈ initial_items (node_at st n) →
        planned_owner (item_at (final run) i) = None.
Proof.
  intros H0 Hlen Hstart Hrest.
  pose proof (plan_init_spec _ _ H0) as (_ & _ & _ & Hown).
  unfold plan. rewrite H0. simpl.
  destruct (max_iters settings) as [|iters]; simpl.
  { eexists. split; [done|]. split; [done|]. intros n i Hn Hi.
    by destruct (Hown n i Hn Hi). }
  destruct (first_round_is_Ok st st0 settings H0) as (st1 & cur & larges & Hr & _ & Hcur & _).
  { destruct (nodes st); [simpl in Hlen; lia|done]. }
  { done. }
  unfold plan_one. rewrite Hr. simpl. rewrite Hcur. simpl.
  rewrite (at_rest_no_candidate st st0 st1 settings H0 Hr Hlen Hrest). simpl.
  eexists. split; [done|]. split; [done|]. intros n i Hn Hi. simpl.
  apply resort_spec in Hr as (_ & -> & _). by destruct (Hown n i Hn Hi).
Qed.

(** X18: in move mode one node whose fraction used can be computed is
    enough for [plan] to return the empty list: the node is the initial
    owner of all it holds, and no item moves to its initial owner. *)
Lemma plan_lone_node_move st st0 settings n :
  plan_init st = Ok st0 →
  nodes st = [n] → starts_in_range st → swap settings = false →
  ∃ run, plan st settings = Ok run ∧ all_moves run = []
    ∧ ∀ i, i ∈ initial_items (node_at st n) →
        planned_owner (item_at (final run) i) = None.
Proof.
  intros H0 Hns Hstart Hsw.
  pose proof (plan_init_spec _ _ H0) as (_ & _ & _ & Hown).
  assert (Hpo : ∀ i, i ∈ initial_items (node_at st n) →
            planned_owner (item_at st0 i) = None).
  { intros i Hi. destruct (Hown n i) as [_ ?]; [rewrite Hns; apply list_elem_of_here|done..]. }
  unfold plan. rewrite H0. simpl.
  destruct (max_iters settings) as [|iters]; simpl; [by eexists|].
  destruct (first_round_is_Ok st st0 settings H0)
    as (st1 & cur & larges & Hr & Hperm & Hcur & Hl & Hfr).
  { by rewrite Hns. }
  { done. }
  rewrite Hns in Hperm. apply Permutation_singleton_r in Hperm.
  assert (Hown1 : owned st1).
  { eapply (plan_reaches_conserves st settings), reaches_resort; [|exact Hr].
    by apply reaches_init. }
  unfold plan_one. rewrite Hr. simpl. rewrite Hcur. simpl. rewrite Hl. simpl.
  rewrite plan_one_loop_none.
  - simpl. eexists. split; [done|]. split; [done|]. intros i Hi. simpl.
    apply resort_spec in Hr as (_ & -> & _). by apply Hpo.
  - intros i Hi. destruct (iter_large_items_elem _ _ _ _ Hl Hi) as (Hun & m & Hm & Hpl).
    rewrite Hperm in Hm. apply list_elem_of_singleton in Hm as ->.
    unfold has_moved in Hun.
    destruct (planned_owner (item_at st1 i)) eqn:Hp; [done|].
    assert (Hio : initial_owner (item_at st1 i) = Some n).
    { apply Hown1; [rewrite Hperm; apply list_elem_of_here|done..]. }
    unfold plan_step_of. rewrite Hsw. unfold plan_step_move. rewrite Hperm. simpl.
    destruct (Hfr n) as [a Ha]; [rewrite Hperm; apply list_elem_of_here|].
    unfold owner_fraction_used, current_owner. rewrite Hp, Hio, Ha. simpl.
    destruct (too_similar a a _); [done|].
    unfold can_move_to, Item_can_move_to. rewrite Hio.
    rewrite decide_True by done. simpl. by destruct (is_leader _).
Qed.

End PlannerFacts.

(** ** The reassignment document *)

Lemma length_remove_dups_le (l : list Z) : (length (remove_dups l) ≤ length l)%nat.
Proof.
  induction l as [|x l IH]; simpl; [done|].
  destruct (decide_rel elem_of x l); simpl; lia.
Qed.

Lemma no_duplicates_NoDup (l : list Z) : no_duplicates l = true ↔ NoDup l.
Proof.
  unfold no_duplicates. rewrite bool_decide_eq_true.
  induction l as [|x l IH]; simpl.
  - split; [constructor|done].
  - pose proof (length_remove_dups_le l) as Hle.
    rewrite NoDup_cons. destruct (decide_rel elem_of x l) as [Hin|Hin]; simpl.
    + split; [lia|]. by intros [? _].
    + split.
      * intros Hlen. split; [done|]. apply IH. lia.
      * intros [_ Hnd]. apply IH in Hnd. lia.
Qed.

Lemma list_set_length {A} (l l' : list A) i x :
  list_set l i x = Ok l' → length l' = length l.
Proof.
  unfold list_set. destruct (decide _); [|done].
  intros [= <-]. apply length_insert.
Qed.

Lemma dict_set_elem key v (d : assignments) k pd :
  (k, pd) ∈ dict_set key v d → pd = v ∨ (k, pd) ∈ d.
Proof.
  induction d as [|[k0 w] d IH]; simpl.
  - intros H. apply list_elem_of_singleton in H as [= -> ->]. by left.
  - destruct (decide (k0 = key)) as [->|Hne]; intros H;
      apply elem_of_cons in H as [[= -> ->]|H].
    + by left.
    + right. by apply list_elem_of_further.
    + right. apply list_elem_of_here.
    + destruct (IH H) as [?|?]; [by left|right; by apply list_elem_of_further].
Qed.

Lemma dict_get_elem key (d : assignments) pd :
  dict_get key d = Some pd → (key, pd) ∈ d.
Proof.
  induction d as [|[k0 w] d IH]; simpl; [done|].
  destruct (decide (k0 = key)) as [->|Hne].
  - intros [= ->]. apply list_elem_of_here.
  - intros H. by apply list_elem_of_further, IH.
Qed.

Lemma parallel_lists_set key v d :
  parallel_lists d → length (pd_replicas v) = length (pd_log_dirs v) →
  parallel_lists (dict_set key v d).
Proof.
  intros Hd Hv k pd Hin. apply dict_set_elem in Hin as [->|Hin]; [done|].
  by eapply Hd.
Qed.

Lemma add_moved_replica_parallel st parts rand b item b' :
  parallel_lists (new_assignments b) →
  add_moved_replica st parts rand b item = Ok b' →
  parallel_lists (new_assignments b').
Proof.
  intros Hb. unfold add_moved_replica.
  destruct (parts !! _) as [[leader initial]|]; [|done].
  destruct (dict_get _ (new_assignments b)) as [pd|] eqn:Hget.
  - intros H.
    apply bind_Ok in H as (old & _ & H). apply bind_Ok in H as (new_id & _ & H).
    apply bind_Ok in H as (subst & Hsub & H). apply bind_Ok in H as (pos & _ & H).
    destruct (replicas_var b) as [bound|]; [|done].
    destruct (dict_get bound _) as [target|] eqn:Htarget; [|done].
    apply bind_Ok in H as (reps & Hreps & H).
    destruct (dict_get _ (dict_set bound _ _)) as [pd2|] eqn:Hpd2; [|done].
    apply bind_Ok in H as (dir & _ & H). apply bind_Ok in H as (dirs & Hdirs & H).
    injection H as <-. simpl.
    apply dict_get_elem in Hget, Htarget, Hpd2.
    apply list_set_length in Hsub, Hreps, Hdirs.
    assert (H1 : parallel_lists
                   (dict_set (topic (item_at st item) +:+ "-" +:+ pretty (id (item_at st item)))
                      (with_replicas pd subst) (new_assignments b))).
    { apply parallel_lists_set; [done|]. simpl. rewrite Hsub. by eapply Hb. }
    assert (H2 : parallel_lists
                   (dict_set bound (with_replicas target reps)
                      (dict_set (topic (item_at st item) +:+ "-" +:+ pretty (id (item_at st item)))
                         (with_replicas pd subst) (new_assignments b)))).
    { apply parallel_lists_set; [done|]. simpl. rewrite Hreps. by eapply H1. }
    apply parallel_lists_set; [done|]. simpl. rewrite Hdirs. by eapply H2.
  - intros H.
    apply bind_Ok in H as (old & _ & H). apply bind_Ok in H as (new_id & _ & H).
    apply bind_Ok in H as (reps1 & Hreps1 & H). apply bind_Ok in H as (pos & _ & H).
    apply bind_Ok in H as (reps2 & Hreps2 & H). apply bind_Ok in H as (dir & _ & H).
    apply bind_Ok in H as (dirs & Hdirs & H). injection H as <-. simpl.
    apply list_set_length in Hreps1, Hreps2, Hdirs.
    apply parallel_lists_set; [done|]. simpl.
    rewrite Hreps2, Hreps1, Hdirs. by rewrite length_replicate.
Qed.

Lemma build_assignments_parallel st parts moved rand b :
  build_assignments st parts moved rand = Ok b → parallel_lists (new_assignments b).
Proof.
  unfold build_assignments. intros H.
  eapply (for_each_inv (fun b => parallel_lists (new_assignments b))); [| |exact H].
  - intros b0 x b1. apply add_moved_replica_parallel.
  - intros k pd Hin. by apply elem_of_nil in Hin.
Qed.

(** C5: every record of the document [gen_reassignment_file] returns has
    [replicas] and [log_dirs] of one length and no broker twice in
    [replicas]; a record of the assignment map is in the document exactly
    when its [replicas] has no duplicate, so the others are dropped. *)
Theorem gen_reassignment_file_valid (st : State)
    (parts : gmap (string * Z) (Z * list Z)) (moved : list item_ref)
    (rand : nat → nat) (doc : Document) :
  gen_reassignment_file st parts moved rand = Ok doc →
  (∀ r, r ∈ partitions doc →
     length (json_replicas r) = length (json_log_dirs r) ∧ NoDup (json_replicas r))
  ∧ ∃ b, build_assignments st parts moved rand = Ok b
      ∧ ∀ k pd, (k, pd) ∈ new_assignments b →
          (to_json pd ∈ partitions doc ↔ NoDup (pd_replicas pd)).
Proof.
  unfold gen_reassignment_file. intros H.
  apply bind_Ok in H as (b & Hb & H). injection H as <-.
  pose proof (build_assignments_parallel _ _ _ _ _ Hb) as Hpar.
  assert (Hvalid : ∀ r, r ∈ partitions (emit (new_assignments b)) →
            length (json_replicas r) = length (json_log_dirs r) ∧ NoDup (json_replicas r)).
  { intros r Hr. unfold emit in Hr. simpl in Hr.
    apply list_elem_of_fmap in Hr as (pd & -> & Hpd).
    apply list_elem_of_filter in Hpd as [Hnd Hpd].
    apply list_elem_of_fmap in Hpd as ([k pd'] & -> & Hin). simpl in *.
    split; [by eapply Hpar|]. by apply no_duplicates_NoDup. }
  split; [done|]. exists b. split; [done|].
  intros k pd Hin. split.
  - intros Hr. by destruct (Hvalid _ Hr) as [_ Hnd].
  - intros Hnd. unfold emit. simpl.
    apply list_elem_of_fmap_2, list_elem_of_filter. split.
    + by apply no_duplicates_NoDup.
    + apply list_elem_of_fmap. by exists (k, pd).
Qed.

(** C6, on the three moves T-0, T-1, T-0: after the first two the records
    hold [5; 1; 3] and [6; 1; 3].  The third move substitutes broker 7 at
    index 1 of T-0's record, and the displaced broker 1 is then written
    at index 0 of T-1's record, the list the name [replicas] is bound to;
    T-0's record is not repositioned, T-1's is changed and, now holding
    broker 1 twice, is dropped from the document. *)
Theorem moved_replica_rewrites_other_partition :
  ∃ b2 b3 : Builder,
    build_assignments three_moves three_moves_partitions [0; 1]%nat (fun _ => 0%nat) = Ok b2
    ∧ add_moved_replica three_moves three_moves_partitions (fun _ => 0%nat) b2 2%nat = Ok b3
    ∧ pd_replicas <$> (new_assignments b2).*2 = [[5; 1; 3]; [6; 1; 3]]
    ∧ pd_replicas <$> (new_assignments b3).*2 = [[5; 7; 3]; [1; 1; 3]]
    ∧ json_partition <$>
        partitions (emit (new_assignments b3)) = [0].
Proof.
  eexists. eexists.
  split; [vm_compute; reflexivity|].
  split; [vm_compute; reflexivity|].
  repeat split.
Qed.

(** ** Runs on concrete placements, in exact arithmetic *)

(** C1: the first test of the swap step reads the [store] attribute of
    the two items, which no item has, not their [size]: on any candidate
    the loop raises [AttributeError].  The step never gets that far: its
    call of [iter_small_items] passes the settings where the node list is
    expected, and raises [TypeError].  On S4 (disk A holding 80, disk B
    holding 5, thresholds 10 and 50, swap mode) [plan] raises instead of
    swapping. *)
Theorem swap_step_does_not_compare_sizes :
  (∀ (FL : Float) st settings cur large_item small_item rest,
     plan_step_swap_loop st settings cur large_item (small_item :: rest)
     = Raise AttributeError)
  ∧ (∀ (FL : Float) st settings cur large_item,
       plan_step_swap st settings cur large_item = Raise TypeError)
  ∧ plan S4 (settings_of 5 10 50 true) = Raise TypeError.
Proof.
  split; [intros; apply plan_step_swap_first_test|].
  split; [intros; apply plan_step_swap_raises|].
  vm_compute. reflexivity.
Qed.

(** C3 as stated fails: on [overfull], disk 0 starts with 110 on a
    capacity of 100; [plan] accepts the move of item 1 from disk 1 to
    disk 2, and after it disk 0 still holds 110. *)
Lemma plan_overfull_exceeds_capacity :
  ∃ run, plan overfull (settings_of 5 5 50 false) = Ok run
    ∧ all_moves run = [1%nat]
    ∧ (0%nat) ∈ nodes (final run)
    ∧ sum_sizes (final run) (planned_items (node_at (final run) 0%nat)) = 110
    ∧ capacity (node_at (final run) 0%nat) = 100.
Proof.
  destruct (plan overfull (settings_of 5 5 50 false)) as [run|e] eqn:Hp;
    [|by vm_compute in Hp].
  exists run. split; [done|].
  vm_compute in Hp. injection Hp as <-. simpl.
  split; [done|]. split; [apply list_elem_of_here|]. by vm_compute.
Qed.

(** C8: one disk holding one replica, a node threshold of 0, swap mode:
    no node is another's, so every node is within the threshold of every
    other; the round offers the replica to the swap step, and [plan]
    raises [TypeError] instead of returning the empty list.  In move mode
    the same placement gives the empty list. *)
Theorem plan_lone_disk_swap_raises :
  plan lone_disk (settings_of 1 0 50 true) = Raise TypeError
  ∧ all_moves <$> (match plan lone_disk (settings_of 1 0 50 false) with
                   | Ok run => Some run
                   | Raise _ => None
                   end) = Some [].
Proof. split; vm_compute; reflexivity. Qed.

(** C7: no leader is in a list [plan] returns, in either mode; but on
    the placement S2 (disk A with one leader of size 50, disk B empty,
    both of capacity 100) [plan] returns the empty list in move mode
    only, whatever the iteration count and the thresholds.  In swap mode
    (thresholds 5 and 50) the leader is offered to the swap step, whose
    call of [iter_small_items] raises [TypeError] before any test of the
    leader is made: [plan] raises instead of returning the empty list. *)
Theorem plan_leader_swap_raises :
  plan S2 (settings_of 5 5 50 true) = Raise TypeError
  ∧ (∀ (FL : Float) (st : State) (settings : PlanSettings) (run : PlanRun)
       (i : item_ref),
       plan st settings = Ok run → i ∈ all_moves run →
       is_leader (item_at st i) = false)
  ∧ (∀ (FL : Float) iters threshold item_threshold,
       ∃ run, plan S2 (mkPlanSettings iters threshold item_threshold false) = Ok run
              ∧ all_moves run = []).
Proof.
  split; [vm_compute; reflexivity|].
  split; [intros FL st settings run i; apply plan_moves_not_leader|].
  intros FL iters threshold item_threshold. apply plan_S2_move_mode.
Qed.

Lemma plan_empty_nodes_raises_witness :
  nodes (placement [] [] []) = []
  ∧ (1 ≤ max_iters (settings_of 1 10 50 false))%nat
  ∧ plan (placement [] [] []) (settings_of 1 10 50 false) = Raise StatisticsError.
Proof.
  split; [reflexivity|]. split; [simpl; lia|].
  apply plan_empty_nodes_raises; [reflexivity|simpl; lia].
Defined.

Lemma plan_respects_capacity_witness :
  (∀ i, 0 ≤ size (item_at S1 i))
  ∧ (∀ n, n ∈ nodes S1 →
       sum_sizes S1 (initial_items (node_at S1 n)) ≤ capacity (node_at S1 n))
  ∧ ∃ run, plan S1 (settings_of 5 5 50 false) = Ok run
      ∧ all_moves run = [0%nat]
      ∧ ∀ n, n ∈ nodes (final run) →
          sum_sizes (final run) (planned_items (node_at (final run) n))
          ≤ capacity (node_at (final run) n).
Proof.
  assert (Hsize : ∀ i, 0 ≤ size (item_at S1 i)).
  { intros i. do 3 (destruct i as [|i]; [simpl; lia|]). destruct i; simpl; lia. }
  assert (Hfit : ∀ n, n ∈ nodes S1 →
            sum_sizes S1 (initial_items (node_at S1 n)) ≤ capacity (node_at S1 n)).
  { intros n Hn. simpl in Hn.
    repeat (apply elem_of_cons in Hn as [->|Hn]; [vm_compute; discriminate|]).
    by apply elem_of_nil in Hn. }
  split; [exact Hsize|]. split; [exact Hfit|].
  destruct (plan S1 (settings_of 5 5 50 false)) as [run|e] eqn:Hp;
    [|by vm_compute in Hp].
  exists run. split; [reflexivity|]. split.
  - vm_compute in Hp. by injection Hp as <-.
  - exact (proj2 (plan_respects_capacity S1 (settings_of 5 5 50 false) Hsize Hfit) run Hp).
Defined.

Lemma accepted_round_lowers_variance_witness :
  ∃ ms st',
    plan_one S1_started (settings_of 5 5 50 false)
      (plan_step_of (settings_of 5 5 50 false)) = Ok (Some ms, st')
    ∧ ∃ v v', round_variance S1_started = Ok v ∧ round_variance st' = Ok v'
        ∧ flt v' v = true.
Proof.
  destruct (plan_one S1_started (settings_of 5 5 50 false)
              (plan_step_of (settings_of 5 5 50 false)))
    as [[[ms|] st']|e] eqn:Hone; [|by vm_compute in Hone..].
  exists ms, st'. split; [reflexivity|].
  exact (accepted_round_lowers_variance _ _ _ _ Hone).
Defined.

Lemma gen_reassignment_file_valid_witness :
  ∃ doc,
    gen_reassignment_file three_moves three_moves_partitions [0; 1; 2]%nat
      (fun _ => 0%nat) = Ok doc
    ∧ (∀ r, r ∈ partitions doc →
         length (json_replicas r) = length (json_log_dirs r) ∧ NoDup (json_replicas r))
    ∧ json_replicas <$> partitions doc = [[5; 7; 3]].
Proof.
  destruct (gen_reassignment_file three_moves three_moves_partitions [0; 1; 2]%nat
              (fun _ => 0%nat)) as [doc|e] eqn:Hdoc; [|by vm_compute in Hdoc].
  exists doc. split; [reflexivity|]. split.
  - exact (proj1 (gen_reassignment_file_valid _ _ _ _ _ Hdoc)).
  - vm_compute in Hdoc. by injection Hdoc as <-.
Defined.

(** * More of the planner *)

Section PlannerMore.
Context `{FL : Float}.

(** The induction over a run, with the run so far at hand. *)
Lemma plan_reaches_inv_strong (P : State → Prop) settings st :
  (∀ st0, plan_init st = Ok st0 → P st0) →
  (∀ st1 st2, plan_reaches settings st st1 → P st1 → resort st1 = Ok st2 → P st2) →
  (∀ st1 cur item node n st2,
     plan_reaches settings st st1 → P st1 →
     has_moved (item_at st1 item) = false →
     n ∈ nodes st1 → item ∈ planned_items (node_at st1 n) →
     (∀ m, m ∈ nodes st1 → planned_used (node_at st1 m) = used st1 m) →
     accepted_move st1 settings cur item node st2 →
     P st2) →
  ∀ st', plan_reaches settings st st' → P st'.
Proof.
  intros Hinit Hresort Hmove st' Hreach.
  induction Hreach as [st0 H0|st1 st2 Hr1 IH Hr|st1 r st2 Hr1 IH Hone];
    [by auto|by eauto|].
  destruct r as [ms|].
  - apply plan_one_accepted in Hone
      as (s1 & cur & item & node & n & Hr & _ & _ & Hun & Hn & Hpl & Hacc).
    eapply (Hmove s1); eauto.
    + by eapply reaches_resort.
    + intros m Hm. apply resort_spec in Hr as (Hperm & _ & _ & Hnn & _).
      destruct (Hnn m) as (_ & Hu & _). apply Hu. by rewrite <- Hperm.
  - apply plan_one_spec in Hone as (s1 & cur & larges & Hr & _ & _ & Hcase).
    destruct Hcase as [[_ ->]|(_ & ? & ? & _ & ? & _)]; [by eauto|done].
Qed.

(** *** Who holds what *)

Lemma elem_of_concat_fmap (f : nat → list nat) (l : list nat) a :
  a ∈ concat (f <$> l) ↔ ∃ n, n ∈ l ∧ a ∈ f n.
Proof.
  induction l as [|x l IH]; simpl.
  - split; [by intros ?%elem_of_nil|by intros (? & ?%elem_of_nil & _)].
  - rewrite elem_of_app, IH. split.
    + intros [Ha|(n & Hn & Ha)].
      * exists x. split; [apply list_elem_of_here|done].
      * exists n. split; [by apply list_elem_of_further|done].
    + intros (n & Hn & Ha). apply elem_of_cons in Hn as [->|Hn]; [by left|].
      right. by exists n.
Qed.

Lemma concat_fmap_NoDup_each (f : nat → list nat) (l : list nat) n :
  NoDup (concat (f <$> l)) → n ∈ l → NoDup (f n).
Proof.
  induction l as [|x l IH]; simpl; intros Hnd Hn; [by apply elem_of_nil in Hn|].
  apply NoDup_app in Hnd as (Hx & _ & Hl).
  apply elem_of_cons in Hn as [->|Hn]; auto.
Qed.

Lemma concat_fmap_NoDup_unique (f : nat → list nat) (l : list nat) a n m :
  NoDup (concat (f <$> l)) → n ∈ l → m ∈ l → a ∈ f n → a ∈ f m → n = m.
Proof.
  induction l as [|x l IH]; simpl; intros Hnd Hn Hm Han Ham;
    [by apply elem_of_nil in Hn|].
  apply NoDup_app in Hnd as (_ & Hdisj & Hl).
  assert (Hin : ∀ k, k ∈ l → a ∈ f k → a ∈ concat (f <$> l)).
  { intros k Hk Hak. apply elem_of_concat_fmap. by exists k. }
  apply elem_of_cons in Hn as [->|Hn]; apply elem_of_cons in Hm as [->|Hm].
  - done.
  - exfalso. eapply Hdisj; [exact Han|]. by eapply Hin.
  - exfalso. eapply Hdisj; [exact Ham|]. by eapply Hin.
  - by apply IH.
Qed.

Lemma held_planned_elem st n i :
  n ∈ nodes st → i ∈ planned_items (node_at st n) → i ∈ held_planned st.
Proof.
  intros Hn Hi. unfold held_planned. apply elem_of_concat_fmap.
  exists n. split; [by apply elem_of_remove_dups|done].
Qed.

Lemma held_planned_inv st i :
  i ∈ held_planned st → ∃ n, n ∈ nodes st ∧ i ∈ planned_items (node_at st n).
Proof.
  unfold held_planned. intros Hi. apply elem_of_concat_fmap in Hi as (n & Hn & Hi).
  rewrite elem_of_remove_dups in Hn. by exists n.
Qed.

Lemma plan_reaches_coherent st settings st' :
  NoDup (held_initial st) → plan_reaches settings st st' → coherent st'.
Proof.
  intros Hnd Hreach. revert st' Hreach.
  apply (plan_reaches_inv_strong coherent).
  - intros st0 H0. apply plan_init_spec in H0 as (Hn & _ & Hpl & Hown).
    intros n i Hin Hi. rewrite Hn in Hin. rewrite (Hpl _ Hin) in Hi.
    destruct (Hown n i Hin Hi) as [Hio Hpo]. unfold current_owner. by rewrite Hpo.
  - intros st1 st2 _ Hco Hr. apply resort_spec in Hr as (Hperm & Hit & _ & Hnn & _).
    intros n i Hin Hi. rewrite Hperm in Hin. destruct (Hnn n) as (Hp & _).
    rewrite Hp in Hi. rewrite Hit. by apply Hco.
  - intros st1 cur item node n0 st2 Hreach Hco Hun Hn0 Hpl0 _ Hacc.
    pose proof (plan_reaches_conserves _ _ _ Hreach) as (_ & Hheld & Hown).
    assert (Hnd1 : NoDup (held_planned st1)) by (by rewrite Hheld).
    pose proof Hacc as (Hnode & _).
    apply accepted_move_spec in Hacc
      as (src & items & Hsd & Hio & Hperm & Hsrc & Hdst & Hoth & _ & Hn & _ & _
          & Hitems & Hpo); [|done].
    assert (Hsrc0 : n0 = src).
    { unfold has_moved in Hun.
      destruct (planned_owner (item_at st1 item)) eqn:Hp; [done|].
      specialize (Hown n0 item Hn0 Hpl0 Hp). congruence. }
    subst n0.
    assert (Hitem_src : item ∉ items).
    { pose proof (concat_fmap_NoDup_each _ _ src Hnd1) as Hs.
      rewrite elem_of_remove_dups in Hs. specialize (Hs Hn0).
      simpl in Hs. rewrite Hperm in Hs. by apply NoDup_cons in Hs as [? _]. }
    intros n i Hin Hi. rewrite Hn in Hin.
    destruct (decide (i = item)) as [->|Hne].
    + unfold current_owner. rewrite Hpo. f_equal.
      destruct (decide (n = node)) as [|Hnn]; [done|]. exfalso.
      destruct (decide (n = src)) as [->|Hns].
      * by rewrite Hsrc in Hi.
      * rewrite (Hoth _ Hns Hnn) in Hi. apply Hns.
        eapply (concat_fmap_NoDup_unique _ _ item n src Hnd1);
          [by apply elem_of_remove_dups..|done|done].
    + rewrite (Hitems _ Hne). apply Hco; [done|].
      destruct (decide (n = src)) as [->|Hns].
      * rewrite Hsrc in Hi. rewrite Hperm. by apply list_elem_of_further.
      * destruct (decide (n = node)) as [->|Hnn].
        -- rewrite Hdst in Hi. apply elem_of_app in Hi as [?|Hi]; [done|].
           by apply list_elem_of_singleton in Hi.
        -- by rewrite <- (Hoth _ Hns Hnn).
Qed.

(** X1: when the nodes list every item once, then in every state a run
    of [plan] goes through, and in the state it returns in, every item a
    node holds names that node as its current owner (its planned owner
    if it has moved, its initial owner if not), and no item is held
    twice. *)
Theorem plan_keeps_owners_coherent (st : State) (settings : PlanSettings) :
  NoDup (held_initial st) →
  (∀ st', plan_reaches settings st st' → coherent st' ∧ NoDup (held_planned st'))
  ∧ (∀ run, plan st settings = Ok run →
       coherent (final run) ∧ NoDup (held_planned (final run))).
Proof.
  intros Hnd.
  assert (H : ∀ st', plan_reaches settings st st' →
            coherent st' ∧ NoDup (held_planned st')).
  { intros st' Hr. split; [by eapply plan_reaches_coherent|].
    apply plan_reaches_conserves in Hr as (_ & Hheld & _). by rewrite Hheld. }
  split; [exact H|]. intros run Hp. by apply H, plan_final_reached.
Qed.

(** *** No way back *)

Lemma move_keeps_other_held st settings cur item node st' n i :
  has_moved (item_at st item) = false →
  accepted_move st settings cur item node st' →
  i ≠ item → i ∈ planned_items (node_at st' n) → i ∈ planned_items (node_at st n).
Proof.
  intros Hun Hacc Hne Hi.
  apply accepted_move_spec in Hacc
    as (src & items & _ & _ & Hperm & Hsrc & Hdst & Hoth & _); [|done].
  destruct (decide (n = src)) as [->|Hns].
  - rewrite Hsrc in Hi. rewrite Hperm. by apply list_elem_of_further.
  - destruct (decide (n = node)) as [->|Hnn].
    + rewrite Hdst in Hi. apply elem_of_app in Hi as [?|Hi]; [done|].
      by apply list_elem_of_singleton in Hi.
    + by rewrite <- (Hoth _ Hns Hnn).
Qed.

Lemma plan_reaches_no_bounce_back st settings st' :
  plan_reaches settings st st' → no_bounce_back st'.
Proof.
  intros Hreach. revert st' Hreach.
  apply (plan_reaches_inv no_bounce_back).
  - intros st0 H0. apply plan_init_spec in H0 as (Hn & _ & Hpl & Hown).
    intros i d Hi Hpo. exfalso.
    apply held_planned_inv in Hi as (n & Hin & Hi). rewrite Hn in Hin.
    rewrite (Hpl _ Hin) in Hi. destruct (Hown n i Hin Hi) as [_ Hnone]. congruence.
  - intros st1 st2 Hnb Hr. apply resort_spec in Hr as (Hperm & Hit & _ & Hnn & _).
    intros i d Hi Hpo. rewrite Hit in Hpo |- *. rewrite Hperm.
    apply Hnb; [|done].
    apply held_planned_inv in Hi as (n & Hin & Hi). rewrite Hperm in Hin.
    destruct (Hnn n) as (Hp & _). rewrite Hp in Hi. by eapply held_planned_elem.
  - intros st1 cur item node n0 st2 Hnb Hun Hn0 Hpl0 _ Hacc.
    pose proof Hacc as (Hnode & _ & _ & Hm).
    apply move_spec in Hm as (? & ? & _ & _ & _ & _ & _ & Hio2 & _).
    pose proof (fun n i => move_keeps_other_held _ _ _ _ _ _ n i Hun Hacc) as Hkeep.
    apply accepted_move_spec in Hacc
      as (src & items & Hsd & Hio & _ & _ & _ & _ & _ & Hn & _ & _ & Hitems & Hpo);
      [|done].
    intros i d Hi Hd. rewrite Hn.
    destruct (decide (i = item)) as [->|Hne].
    + rewrite Hpo in Hd. injection Hd as <-. split; [done|].
      rewrite Hio2, Hio. congruence.
    + rewrite (Hitems _ Hne) in Hd |- *. apply Hnb; [|done].
      apply held_planned_inv in Hi as (n & Hin & Hi). rewrite Hn in Hin.
      eapply held_planned_elem; [exact Hin|]. by eapply Hkeep.
Qed.

(** X2: in every state a run of [plan] goes through, and in the state it
    returns in, the planned owner of an item the nodes hold is a node of
    the list and is not the item's initial owner: no item is planned onto
    the node it started on. *)
Theorem plan_never_bounces_back (st : State) (settings : PlanSettings) :
  (∀ st', plan_reaches settings st st' → no_bounce_back st')
  ∧ (∀ run, plan st settings = Ok run → no_bounce_back (final run)).
Proof.
  split; [apply plan_reaches_no_bounce_back|].
  intros run Hp. by eapply plan_reaches_no_bounce_back, plan_final_reached.
Qed.

(** *** The list [plan] returns *)

Lemma held_initial_planned st settings st' i :
  plan_reaches settings st st' → (i ∈ held_planned st' ↔ i ∈ held_initial st).
Proof. intros Hr. apply plan_reaches_conserves in Hr as (_ & Hheld & _). by rewrite Hheld. Qed.

Lemma plan_moves_spec (st : State) (settings : PlanSettings)
    (run : PlanRun) :
  plan st settings = Ok run →
  NoDup (all_moves run)
  ∧ (∀ i, i ∈ all_moves run → i ∈ held_initial st)
  ∧ (∀ i, i ∈ held_initial st →
       (i ∈ all_moves run ↔ has_moved (item_at (final run) i) = true)).
Proof.
  unfold plan. intros Hp. apply bind_Ok in Hp as (st0 & Hinit & Hl).
  assert (HP : plan_reaches settings st (final run)
               ∧ NoDup (all_moves run)
               ∧ (∀ i, i ∈ all_moves run → i ∈ held_initial st)
               ∧ (∀ i, i ∈ held_initial st →
                    (i ∈ all_moves run ↔ has_moved (item_at (final run) i) = true)));
    [|by destruct HP as (_ & ? & ? & ?)].
  eapply (plan_loop_inv
            (fun run => plan_reaches settings st (final run)
               ∧ NoDup (all_moves run)
               ∧ (∀ i, i ∈ all_moves run → i ∈ held_initial st)
               ∧ (∀ i, i ∈ held_initial st →
                    (i ∈ all_moves run ↔ has_moved (item_at (final run) i) = true))));
    [| | |exact Hl]; simpl.
  - intros run0 st' (Hr & Hnd & Hsub & Hiff) Hone.
    split; [by eapply reaches_round|]. split; [done|]. split; [done|].
    apply plan_one_spec in Hone as (s1 & cur & larges & Hs & _ & _ & Hcase).
    destruct Hcase as [[_ ->]|(_ & ? & ? & _ & ? & _)]; [|done].
    apply resort_spec in Hs as (_ & -> & _). done.
  - intros run0 item st' (Hr & Hnd & Hsub & Hiff) Hone.
    split; [by eapply reaches_round|].
    apply plan_one_accepted in Hone
      as (s1 & cur & it & node & n & Hs & _ & [= <-] & Hun & Hn & Hpl & Hacc).
    pose proof (reaches_resort _ _ _ _ Hr Hs) as Hr1.
    pose proof (resort_spec _ _ Hs) as (_ & Hit & _).
    assert (Hheld : item ∈ held_initial st).
    { apply (held_initial_planned _ _ _ _ Hr1). by eapply held_planned_elem. }
    assert (Hfresh : item ∉ all_moves run0).
    { intros Hin. apply Hiff in Hin; [|done]. rewrite <- Hit in Hin. congruence. }
    apply accepted_move_spec in Hacc
      as (src & items & _ & _ & _ & _ & _ & _ & _ & _ & _ & _ & Hitems & Hpo); [|done].
    split; [|split].
    + apply NoDup_app. split; [done|]. split; [|apply NoDup_singleton].
      intros i Hi Hi'. apply list_elem_of_singleton in Hi' as ->. done.
    + intros i Hi. apply elem_of_app in Hi as [Hi|Hi]; [by apply Hsub|].
      by apply list_elem_of_singleton in Hi as ->.
    + intros i Hi. rewrite elem_of_app, list_elem_of_singleton.
      destruct (decide (i = item)) as [->|Hne].
      * unfold has_moved. rewrite Hpo. split; [done|by right].
      * rewrite (Hitems _ Hne), Hit, (Hiff i Hi). split; [|by left].
        by intros [?|?].
  - split; [by apply reaches_init|]. split; [apply NoDup_nil_2|].
    split; [by intros i ?%elem_of_nil|].
    intros i Hi. split; [by intros ?%elem_of_nil|]. intros Hm. exfalso.
    pose proof (reaches_init settings st st0 Hinit) as Hr0.
    apply (held_initial_planned _ _ _ i Hr0) in Hi.
    apply held_planned_inv in Hi as (n & Hin & Hi).
    apply plan_init_spec in Hinit as (Hn & _ & Hpl & Hown).
    rewrite Hn in Hin. rewrite (Hpl _ Hin) in Hi.
    destruct (Hown n i Hin Hi) as [_ Hnone].
    unfold has_moved in Hm. by rewrite Hnone in Hm.
Qed.

(** X3: the list [plan] returns holds no item twice and only items the
    nodes listed on entry; among those, it holds exactly the items that
    have a planned owner when [plan] returns.  So every returned item has
    a planned owner, and every other item has none. *)
Theorem plan_returns_the_moved_items (st : State) (settings : PlanSettings)
    (run : PlanRun) :
  plan st settings = Ok run →
  NoDup (all_moves run)
  ∧ (∀ i, i ∈ all_moves run → i ∈ held_initial st)
  ∧ (∀ i, i ∈ held_initial st →
       (i ∈ all_moves run ↔ has_moved (item_at (final run) i) = true)).
Proof. apply plan_moves_spec. Qed.

(** *** What [plan] can raise *)

Lemma for_each_Raise {A S} (body : S → A → result S) l s e :
  for_each body l s = Raise e → ∃ s' x, x ∈ l ∧ body s' x = Raise e.
Proof.
  revert s. induction l as [|x l IH]; intros s H; simpl in H; [done|].
  destruct (body s x) as [s1|e1] eqn:Hx; simpl in H.
  - destruct (IH _ H) as (s' & y & Hy & Hb). exists s', y.
    split; [by apply list_elem_of_further|done].
  - injection H as ->. exists s, x. split; [apply list_elem_of_here|done].
Qed.

Lemma plan_init_Raise st e : plan_init st = Raise e → e = RuntimeError.
Proof.
  unfold plan_init. intros H.
  apply for_each_Raise in H as (s1 & n & _ & H). unfold init_node in H.
  apply for_each_Raise in H as (s2 & i & _ & H). unfold init_item in H.
  destruct (initial_owner (item_at s2 i)); [|done].
  destruct (decide _); [done|]. by injection H as <-.
Qed.

Lemma sum_sizes_nonneg st l :
  (∀ i, 0 ≤ size (item_at st i)) → 0 ≤ sum_sizes st l.
Proof.
  intros Hs. unfold sum_sizes. induction l as [|x l IH]; simpl; [done|].
  specialize (Hs x). lia.
Qed.

Lemma sum_sizes_elem_le st l i :
  (∀ j, 0 ≤ size (item_at st j)) → i ∈ l → size (item_at st i) ≤ sum_sizes st l.
Proof.
  intros Hs. induction l as [|x l IH]; intros Hi; [by apply elem_of_nil in Hi|].
  pose proof (sum_sizes_nonneg st l Hs) as Hl.
  apply elem_of_cons in Hi as [->|Hi]; unfold sum_sizes in *; simpl.
  - lia.
  - specialize (IH Hi). specialize (Hs x). lia.
Qed.

Lemma int_truediv_unit (a b : Z) :
  0 ≤ a ≤ b → b ≠ 0 →
  ∃ a' b', 0 ≤ a' ≤ b' ∧ b' ≠ 0 ∧ int_truediv a b = Ok (truediv a' b').
Proof.
  intros Hab Hb. exists a, b. split; [done|]. split; [done|].
  apply int_truediv_is_Ok; [done|]. by apply overflows_unit.
Qed.

Lemma contains_planned_is_Ok st t p ds :
  (∀ d, d ∈ ds → d ∈ nodes st) →
  contains_planned st t p ds
  = Ok (existsb (is_replica_of st t p)
          (concat ((fun d => planned_items (node_at st d)) <$> ds))).
Proof.
  induction ds as [|d ds IH]; intros Hds; simpl; [done|].
  rewrite bool_decide_eq_true_2 by apply Hds, list_elem_of_here.
  rewrite existsb_app.
  destruct (existsb _ (planned_items _)); [done|]. simpl.
  apply IH. intros d' Hd'. by apply Hds, list_elem_of_further.
Qed.

Lemma contains_partition_is_Ok st b t p :
  (∀ d, d ∈ disks (broker_at st b) → d ∈ nodes st) →
  contains_partition st b t p
  = Ok (existsb (is_replica_of st t p) (initial_partition_replicas st b)
        || existsb (is_replica_of st t p) (planned_partition_replicas st b)).
Proof.
  intros Hds. unfold contains_partition.
  destruct (existsb _ (initial_partition_replicas st b)); [done|]. simpl.
  by apply contains_planned_is_Ok.
Qed.

Lemma can_move_to_is_Ok st item node o :
  initial_owner (item_at st item) = Some o →
  (∀ b d, d ∈ disks (broker_at st b) → d ∈ nodes st) →
  ∃ ok, can_move_to st item node = Ok ok
    ∧ (ok = true →
       o ≠ node
       ∧ planned_used (node_at st node) + size (item_at st item)
         ≤ capacity (node_at st node)).
Proof.
  intros Hio Hdisks. unfold can_move_to. rewrite Hio.
  destruct (is_leader _); [by exists false|].
  unfold Item_can_move_to. rewrite Hio.
  destruct (decide (Some o = Some node)) as [Heq|Hne]; simpl; [by exists false|].
  destruct (_ >? _) eqn:Hgt; simpl; [by exists false|].
  assert (Hfacts : o ≠ node
            ∧ planned_used (node_at st node) + size (item_at st item)
              ≤ capacity (node_at st node)).
  { split; [congruence|]. lia. }
  destruct (decide (_ ≠ _)); [|by exists true].
  rewrite contains_partition_is_Ok by apply Hdisks. simpl.
  eexists. split; [done|]. by intros _.
Qed.

(** One step in move mode, from the state a round has re-sorted: the
    nodes hold between nothing and their capacity, so every quotient the
    step computes, of an actual load or of the load a move would give, is
    between 0 and 1. *)
Lemma plan_step_move_loop_is_Ok st settings cur item n ns :
  nodes st ≠ [] →
  (∀ m, m ∈ nodes st → ∃ a, planned_fraction_used st m = Ok a) →
  (∀ m, m ∈ nodes st → planned_used (node_at st m) = used st m) →
  (∀ m, m ∈ nodes st →
     used st m ≤ capacity (node_at st m) ∧ capacity (node_at st m) ≠ 0) →
  (∀ i, 0 ≤ size (item_at st i)) →
  (∀ b d, d ∈ disks (broker_at st b) → d ∈ nodes st) →
  (∀ m, m ∈ ns → m ∈ nodes st) →
  n ∈ nodes st → item ∈ planned_items (node_at st n) →
  planned_owner (item_at st item) = None →
  initial_owner (item_at st item) = Some n →
  ∃ r st', plan_step_move_loop st settings cur item ns = Ok (r, st').
Proof.
  intros Hne Hfr Hused Hfit Hsize Hdisks Hns Hn Hi Hpo Hio.
  induction ns as [|node rest IH]; simpl; [by eexists _, _|].
  destruct IH as (r0 & st0 & IH); [intros m Hm; by apply Hns, list_elem_of_further|].
  assert (Hnode : node ∈ nodes st) by apply Hns, list_elem_of_here.
  destruct (Hfr node Hnode) as [a ->].
  unfold owner_fraction_used, current_owner. rewrite Hpo, Hio.
  destruct (Hfr n Hn) as [b ->]. simpl.
  destruct (too_similar a b _); [by eexists _, _|].
  destruct (can_move_to_is_Ok st item node n Hio Hdisks) as (ok & -> & Hok). simpl.
  destruct ok; simpl; [|by eexists _, _].
  destruct Hok as [Hdiff Hroom]; [done|].
  destruct (percent_used_variance_unit st [(Some node, item)] [(Some n, item)] Hne)
    as [v ->].
  { intros m Hm. unfold percentage. simpl.
    destruct (Hfit m Hm) as [Hle Hc].
    pose proof (sum_sizes_nonneg st (planned_items (node_at st m)) Hsize) as H0.
    pose proof (Hsize item) as Hitem. fold (used st m) in H0.
    apply int_truediv_unit; [|done]. rewrite (Hused m Hm).
    destruct (decide (Some n = Some m)) as [[= <-]|Hnm].
    - rewrite decide_False by congruence.
      pose proof (sum_sizes_elem_le st _ item Hsize Hi) as Hel.
      fold (used st n) in Hel. lia.
    - destruct (decide (Some node = Some m)) as [[= <-]|Hdm]; [|lia].
      rewrite (Hused node Hnode) in Hroom. lia. }
  simpl. destruct (fge v cur); [by eexists _, _|].
  unfold move, current_owner. rewrite Hpo, Hio.
  destruct (list_remove_elem _ _ Hi) as [items ->]. simpl. by eexists _, _.
Qed.

Lemma plan_one_move_is_Ok st settings :
  swap settings = false →
  nodes st ≠ [] →
  (∀ m, m ∈ nodes st →
     used st m ≤ capacity (node_at st m) ∧ capacity (node_at st m) ≠ 0) →
  (∀ i, 0 ≤ size (item_at st i)) →
  (∀ b d, d ∈ disks (broker_at st b) → d ∈ nodes st) →
  owned st →
  ∃ r st', plan_one st settings (plan_step_of settings) = Ok (r, st').
Proof.
  intros Hsw Hne Hfit Hsize Hdisks Hown.
  destruct (fits_in_range st) as [Hrange Hvar].
  { intros m Hm. destruct (Hfit m Hm) as [Hle Hc]. split; [|done]. split; [|done].
    by apply sum_sizes_nonneg. }
  destruct (resort_is_Ok st Hrange) as [st1 Hr].
  pose proof (resort_spec _ _ Hr) as (Hperm & Hit & Hst & Hnn & _).
  pose proof (resort_fractions _ _ Hr) as Hfr.
  destruct (round_start_is_Ok st st1 settings Hr Hne Hvar) as (cur & larges & Hcur & Hl).
  assert (Hne1 : nodes st1 ≠ []).
  { intros H1. rewrite H1 in Hperm. symmetry in Hperm.
    by apply Permutation_nil_r in Hperm. }
  assert (Hused1 : ∀ m, m ∈ nodes st1 → planned_used (node_at st1 m) = used st1 m).
  { intros m Hm. rewrite Hperm in Hm. by destruct (Hnn m) as (_ & -> & _). }
  assert (Hfit1 : ∀ m, m ∈ nodes st1 →
            used st1 m ≤ capacity (node_at st1 m) ∧ capacity (node_at st1 m) ≠ 0).
  { intros m Hm. rewrite Hperm in Hm. destruct (Hfit m Hm) as [Hle Hc].
    destruct (Hnn m) as (Hp & _). pose proof Hst as (_ & Hcs & _).
    destruct (Hcs m) as (-> & _). unfold used.
    rewrite (sum_sizes_static _ _ _ Hst), (sum_sizes_perm _ _ _ Hp). done. }
  assert (Hsize1 : ∀ i, 0 ≤ size (item_at st1 i)).
  { intros i. rewrite Hit. apply Hsize. }
  assert (Hdisks1 : ∀ b d, d ∈ disks (broker_at st1 b) → d ∈ nodes st1).
  { intros b d Hd. destruct Hst as (-> & _) in Hd. rewrite Hperm. by eapply Hdisks. }
  unfold plan_one. rewrite Hr. simpl. rewrite Hcur. simpl. rewrite Hl. simpl.
  assert (Hall : ∀ i, i ∈ larges →
            ∃ r st', plan_step_of settings st1 settings cur i = Ok (r, st')).
  { intros i Hi. destruct (iter_large_items_elem _ _ _ _ Hl Hi) as (Hun & n & Hn & Hpl).
    unfold has_moved in Hun.
    destruct (planned_owner (item_at st1 i)) eqn:Hpo; [done|].
    unfold plan_step_of. rewrite Hsw. unfold plan_step_move.
    apply (plan_step_move_loop_is_Ok _ _ _ _ n); try done.
    - intros m Hm. rewrite (Hfr m Hm). by eexists.
    - intros m Hm. by rewrite elem_of_reverse in Hm.
    - rewrite Hit in Hpo |- *. destruct (Hnn n) as (Hp & _).
      apply Hown; [by rewrite <- Hperm|by rewrite <- Hp|done]. }
  clear Hl. induction larges as [|i larges IH]; simpl; [by eexists _, _|].
  destruct (Hall i) as (r & st' & Hstep); [apply list_elem_of_here|].
  rewrite Hstep. simpl.
  apply plan_step_of_spec in Hstep as [[-> ->]|(_ & -> & _)]; [|by eexists _, _].
  apply IH. intros j Hj. by apply Hall, list_elem_of_further.
Qed.

Lemma plan_loop_move_is_Ok st settings iters run :
  swap settings = false →
  nodes st ≠ [] →
  (∀ i, 0 ≤ size (item_at st i)) →
  (∀ n, n ∈ nodes st →
     sum_sizes st (initial_items (node_at st n)) ≤ capacity (node_at st n)
     ∧ capacity (node_at st n) ≠ 0) →
  (∀ b d, d ∈ disks (broker_at st b) → d ∈ nodes st) →
  plan_reaches settings st (final run) →
  ∃ run', plan_loop iters settings run = Ok run'.
Proof.
  intros Hsw Hne Hsize Hfit Hdisks. revert run.
  induction iters as [|iters IH]; intros run Hreach; simpl; [by eexists|].
  pose proof (plan_reaches_conserves _ _ _ Hreach) as (Hperm & _ & Hown).
  destruct (plan_reaches_within_capacity st settings (final run) Hsize) as [Hstat Hcap];
    [intros n Hn; by destruct (Hfit n Hn)|done|].
  destruct (plan_one_move_is_Ok (final run) settings Hsw) as (r & st' & Hone).
  - intros H. rewrite H in Hperm. by apply Permutation_nil_l in Hperm.
  - intros m Hm. split; [by apply Hcap|]. rewrite Hperm in Hm.
    destruct Hstat as (_ & Hc & _). destruct (Hc m) as (-> & _).
    by destruct (Hfit m Hm).
  - intros i. destruct Hstat as (_ & _ & Hi). destruct (Hi i) as (-> & _). apply Hsize.
  - intros b d Hd. destruct Hstat as (Hb & _). rewrite Hb in Hd. rewrite Hperm.
    by eapply Hdisks.
  - done.
  - rewrite Hone. simpl. destruct r as [[|m ms]|]; [by eexists| |by eexists].
    apply IH. simpl. by eapply reaches_round.
Qed.

(** X4: in move mode, with at least one node, no negative size, every
    node's initial items within its capacity, no capacity of zero, and
    every disk of a broker in the list, [plan] returns, or raises
    [RuntimeError] from its first loop (an item whose initial owner is
    not the node that lists it); nothing else is raised: no division by
    zero and no quotient or variance beyond the range of floats (every
    load stays between nothing and the capacity), no variance of no data,
    no item missing from its owner's list, no disk whose [planned_items]
    are still [None]. *)
Theorem plan_move_mode_returns (st : State) (settings : PlanSettings) :
  swap settings = false →
  nodes st ≠ [] →
  (∀ i, 0 ≤ size (item_at st i)) →
  (∀ n, n ∈ nodes st →
     sum_sizes st (initial_items (node_at st n)) ≤ capacity (node_at st n)
     ∧ capacity (node_at st n) ≠ 0) →
  (∀ b d, d ∈ disks (broker_at st b) → d ∈ nodes st) →
  (∃ run, plan st settings = Ok run) ∨ plan st settings = Raise RuntimeError.
Proof.
  intros Hsw Hne Hsize Hfit Hdisks. unfold plan.
  destruct (plan_init st) as [st0|e] eqn:Hinit; simpl.
  - left. apply (plan_loop_move_is_Ok st); try done. simpl. by apply reaches_init.
  - right. by rewrite (plan_init_Raise _ _ Hinit).
Qed.

(** X5: when two different nodes of the list both list one item in
    their [initial_items], [plan] raises [RuntimeError]. *)
Theorem plan_shared_item_raises (st : State) (settings : PlanSettings) (n m : node_ref)
    (i : item_ref) :
  n ∈ nodes st → m ∈ nodes st → n ≠ m →
  i ∈ initial_items (node_at st n) → i ∈ initial_items (node_at st m) →
  plan st settings = Raise RuntimeError.
Proof.
  intros Hn Hm Hne Hin Him. unfold plan.
  destruct (plan_init st) as [st0|e] eqn:Hinit; simpl.
  - apply plan_init_spec in Hinit as (_ & _ & _ & Hown).
    destruct (Hown n i Hn Hin) as [H1 _]. destruct (Hown m i Hm Him) as [H2 _].
    congruence.
  - by rewrite (plan_init_Raise _ _ Hinit).
Qed.

(** *** What [resort] leaves sorted *)

Lemma insert_desc_Sorted {A K} (lt : K → K → bool) (key : A → K) x l :
  (∀ a b, lt a b = true → lt b a = false) →
  Sorted (fun a b => lt (key a) (key b) = false) l →
  Sorted (fun a b => lt (key a) (key b) = false) (insert_desc lt key x l).
Proof.
  intros Hasym. induction 1 as [|y l Hl IH Hhd]; simpl.
  - repeat constructor.
  - destruct (lt (key x) (key y)) eqn:Hxy.
    + constructor; [done|]. destruct l as [|z l]; simpl.
      * constructor. by apply Hasym.
      * inversion Hhd; subst. destruct (lt (key x) (key z)); constructor; auto.
    + constructor; [by constructor|]. by constructor.
Qed.

Lemma sort_desc_Sorted {A K} (lt : K → K → bool) (key : A → K) l :
  (∀ a b, lt a b = true → lt b a = false) →
  Sorted (fun a b => lt (key a) (key b) = false) (sort_desc lt key l).
Proof.
  intros Hasym. induction l as [|x l IH]; simpl; [constructor|].
  by apply insert_desc_Sorted.
Qed.

Lemma Sorted_weaken {A} (R R' : A → A → Prop) (l : list A) :
  (∀ x y, R x y → R' x y) → Sorted R l → Sorted R' l.
Proof.
  intros HR. induction 1 as [|x l Hl IH Hhd]; constructor; [done|].
  destruct Hhd; constructor; auto.
Qed.

Lemma sort_desc_sizes st l :
  StronglySorted (fun i j => size (item_at st j) ≤ size (item_at st i))
    (sort_desc Z.ltb (fun i => size (item_at st i)) l).
Proof.
  apply Sorted_StronglySorted.
  - intros i j k Hij Hjk. lia.
  - eapply Sorted_weaken; [|apply (sort_desc_Sorted Z.ltb)].
    + intros i j Hij. simpl in Hij. lia.
    + intros a b Hab. lia.
Qed.

Lemma foldl_planned_sort_sorted l st n :
  n ∈ l →
  StronglySorted (fun i j => size (item_at st j) ≤ size (item_at st i))
    (planned_items (node_at (foldl planned_sort st l) n)).
Proof.
  revert st. induction l as [|x l IH]; intros st Hn; [by apply elem_of_nil in Hn|].
  simpl. destruct (decide (n ∈ l)) as [Hl|Hl].
  - apply (IH (planned_sort st x)) in Hl. exact Hl.
  - apply elem_of_cons in Hn as [->|?]; [|done].
    destruct (foldl_planned_sort_spec l (planned_sort st x)) as (_ & _ & Hnn).
    destruct (Hnn x) as (_ & _ & Hout). rewrite (Hout Hl).
    unfold planned_sort. simpl. rewrite upd_eq. simpl. apply sort_desc_sizes.
Qed.

Lemma Sorted_fmap_rel {A B} (R : A → A → Prop) (R' : B → B → Prop) (P : A → Prop)
    (f : A → B) (l : list A) :
  (∀ x y, P x → P y → R x y → R' (f x) (f y)) →
  Forall P l → Sorted R l → Sorted R' (f <$> l).
Proof.
  intros HR HP Hs. induction Hs as [|x l Hl IH Hhd]; simpl; [constructor|].
  apply Forall_cons in HP as [Hx HP]. constructor; [by apply IH|].
  destruct Hhd as [|y l Hxy]; simpl; constructor.
  apply Forall_cons in HP as [Hy _]. by apply HR.
Qed.

Lemma mapM_Ok_zip {A B} (f : A → result B) (l : list A) (k : list B) y x :
  mapM f l = Ok k → (y, x) ∈ zip k l → f x = Ok y.
Proof.
  intros Hk. apply mapM_Ok in Hk.
  induction Hk as [|a b l k Hab _ IH]; simpl; intros Hin.
  - by apply elem_of_nil in Hin.
  - apply elem_of_cons in Hin as [[= -> ->]|Hin]; auto.
Qed.

(** X6: after [resort], every node of the list holds its items largest
    first and carries their total size in [planned_used]; and when [<] on
    floats is asymmetric, the list is in order of fraction used, fullest
    first: no node is followed by one that is fuller. *)
Theorem resort_sorts (st st1 : State) :
  resort st = Ok st1 →
  (∀ n, n ∈ nodes st1 →
     StronglySorted (fun i j => size (item_at st1 j) ≤ size (item_at st1 i))
       (planned_items (node_at st1 n))
     ∧ planned_used (node_at st1 n) = sum_sizes st1 (planned_items (node_at st1 n)))
  ∧ ((∀ a b, flt a b = true → flt b a = false) →
     Sorted (fun n m => ∃ a b, planned_fraction_used st1 n = Ok a
                               ∧ planned_fraction_used st1 m = Ok b
                               ∧ flt a b = false) (nodes st1)).
Proof.
  intros Hr. pose proof (resort_spec _ _ Hr) as (Hperm & Hit & _ & Hnn & _).
  unfold resort in Hr. apply bind_Ok in Hr as (keys & Hk & Hr). injection Hr as <-.
  destruct (foldl_planned_sort_spec (nodes st) st) as (Hns & Hit0 & _).
  split.
  - intros n Hn. rewrite Hperm in Hn. split.
    + simpl. rewrite Hit0. by apply foldl_planned_sort_sorted.
    + by destruct (Hnn n) as (_ & -> & _).
  - intros Hasym. simpl.
    apply (Sorted_fmap_rel (fun p q => flt p.1 q.1 = false) _
             (fun p => planned_fraction_used (foldl planned_sort st (nodes st)) p.2
                       = Ok p.1)).
    + intros [a n] [b m] Hp Hq Hab. simpl in *. by exists a, b.
    + apply Forall_forall. intros [a n] Hin.
      rewrite (sort_desc_perm flt fst _) in Hin. simpl.
      by eapply mapM_Ok_zip.
    + by apply sort_desc_Sorted.
Qed.

(** *** Variance over a run *)

Lemma round_variance_from st st' inc exc v :
  nodes st' ≡ₚ nodes st →
  (∀ n, n ∈ nodes st →
     capacity (node_at st' n) = capacity (node_at st n)
     ∧ percentage st inc exc n = int_truediv (used st' n) (capacity (node_at st n))) →
  percent_used_variance st inc exc = Ok v →
  round_variance st' = Ok v.
Proof.
  intros Hperm Hpct Hv.
  assert (Hrange : ∀ n, n ∈ nodes st' → in_range st' n).
  { intros n Hn. rewrite Hperm in Hn. destruct (Hpct n Hn) as [Hc Hp].
    unfold percent_used_variance in Hv. apply bind_Ok in Hv as (data & Hd & _).
    destruct (mapM_Ok_elem _ _ _ _ Hd Hn) as [y Hy]. rewrite Hp in Hy.
    apply int_truediv_Ok in Hy as (Hne & Hov & _). unfold in_range. by rewrite Hc. }
  destruct (resort_is_Ok st' Hrange) as [st2 Hr2].
  unfold round_variance. rewrite Hr2. simpl.
  pose proof (resort_spec _ _ Hr2) as (Hp2 & _).
  eapply percent_used_variance_perm; [| |exact Hv].
  { by rewrite Hp2. }
  intros n Hn. destruct (Hpct n Hn) as [Hc ->].
  rewrite percentage_nil, (resort_fractions _ _ Hr2) by (by rewrite Hp2, Hperm).
  destruct (Hrange n) as [Hne Hov]; [by rewrite Hperm|].
  rewrite Hc in Hne, Hov. rewrite (int_truediv_is_Ok _ _ Hne Hov).
  unfold fraction_used. by rewrite Hc.
Qed.

Lemma round_variance_resort st st1 v :
  resort st = Ok st1 → percent_used_variance st1 [] [] = Ok v →
  round_variance st1 = Ok v.
Proof.
  intros Hr Hv. pose proof (resort_spec _ _ Hr) as (Hperm & _ & _ & Hnn & Hcap).
  eapply (round_variance_from st1 st1 [] []); [done| |exact Hv].
  intros n Hn. split; [done|]. unfold percentage. simpl. f_equal.
  destruct (Hnn n) as (_ & Hu & _). apply Hu. by rewrite <- Hperm.
Qed.

Lemma round_variance_move st settings cur item node st' v :
  has_moved (item_at st item) = false →
  (∀ m, m ∈ nodes st → planned_used (node_at st m) = used st m) →
  accepted_move st settings cur item node st' →
  percent_used_variance st [(Some node, item)]
    [(initial_owner (item_at st item), item)] = Ok v →
  round_variance st' = Ok v.
Proof.
  intros Hun Hused Hacc Hv.
  apply accepted_move_spec in Hacc
    as (src & items & Hsd & Hio & Hperm & Hsrc & Hdst & Hoth & _ & Hn & Hs12 & _);
    [|done].
  eapply (round_variance_from st st'); [by rewrite Hn| |exact Hv].
  intros n Hin. pose proof Hs12 as (_ & Hc & _). destruct (Hc n) as (Hcn & _).
  split; [done|].
  unfold percentage. simpl. f_equal.
  rewrite (Hused _ Hin), Hio. unfold used.
  rewrite (sum_sizes_static _ _ _ Hs12).
  destruct (decide (n = src)) as [->|Hns].
  - rewrite Hsrc. rewrite (decide_True (P := Some src = Some src)) by done.
    rewrite (decide_False (P := Some node = Some src)) by congruence.
    rewrite (sum_sizes_perm _ _ _ Hperm). unfold sum_sizes. simpl. lia.
  - rewrite (decide_False (P := Some src = Some n)) by congruence.
    destruct (decide (n = node)) as [->|Hnd].
    + rewrite Hdst, (decide_True (P := Some node = Some node)) by done.
      rewrite sum_sizes_app. unfold sum_sizes at 3. simpl. lia.
    + rewrite (decide_False (P := Some node = Some n)) by congruence.
      by rewrite (Hoth _ Hns Hnd).
Qed.

(** X7: when [<] on floats is transitive, a run of [plan] that returns
    at least one move ends with a variance strictly below the one it
    started from: the variance of the re-sorted nodes when [plan] returns
    is less than the variance its first round computed. *)
Theorem plan_lowers_variance (st st0 : State) (settings : PlanSettings) (run : PlanRun) :
  (∀ a b c, flt a b = true → flt b c = true → flt a c = true) →
  plan_init st = Ok st0 →
  plan st settings = Ok run →
  all_moves run ≠ [] →
  ∃ v0 v, round_variance st0 = Ok v0 ∧ round_variance (final run) = Ok v
          ∧ flt v v0 = true.
Proof.
  intros Htrans Hinit Hp Hne. unfold plan in Hp. rewrite Hinit in Hp. simpl in Hp.
  assert (HP : (all_moves run = [] →
                  ∀ v, round_variance (final run) = Ok v → round_variance st0 = Ok v)
               ∧ (all_moves run ≠ [] →
                  ∃ v0 v, round_variance st0 = Ok v0 ∧ round_variance (final run) = Ok v
                          ∧ flt v v0 = true)); [|by apply HP].
  eapply (plan_loop_inv
            (fun run =>
               (all_moves run = [] →
                  ∀ v, round_variance (final run) = Ok v → round_variance st0 = Ok v)
               ∧ (all_moves run ≠ [] →
                  ∃ v0 v, round_variance st0 = Ok v0 ∧ round_variance (final run) = Ok v
                          ∧ flt v v0 = true)));
    [| | |exact Hp]; simpl.
  - intros run0 st' [Hnil Hcons] Hone.
    apply plan_one_spec in Hone as (s1 & cur & larges & Hr & Hcur & _ & Hcase).
    destruct Hcase as [[_ ->]|(_ & ? & ? & _ & ? & _)]; [|done].
    pose proof (round_variance_resort _ _ _ Hr Hcur) as Hv1.
    assert (Hv0 : round_variance (final run0) = Ok cur).
    { unfold round_variance. by rewrite Hr. }
    split.
    + intros Hm v Hv. rewrite Hv1 in Hv. injection Hv as <-. by apply Hnil.
    + intros Hm. destruct (Hcons Hm) as (v0 & v & H0 & Hv & Hlt).
      rewrite Hv0 in Hv. injection Hv as <-. by exists v0, cur.
  - intros run0 item st' [Hnil Hcons] Hone.
    apply plan_one_accepted in Hone
      as (s1 & cur & it & node & n & Hr & Hcur & [= <-] & Hun & Hn & Hpl & Hacc).
    pose proof Hacc as (_ & _ & (v & Hv & Hlt) & _).
    assert (Hused : ∀ m, m ∈ nodes s1 → planned_used (node_at s1 m) = used s1 m).
    { intros m Hm. apply resort_spec in Hr as (Hperm & _ & _ & Hnn & _).
      destruct (Hnn m) as (_ & Hu & _). apply Hu. by rewrite <- Hperm. }
    pose proof (round_variance_move _ _ _ _ _ _ _ Hun Hused Hacc Hv) as Hv'.
    assert (Hv0 : round_variance (final run0) = Ok cur).
    { unfold round_variance. by rewrite Hr. }
    split; [intros Heq; by destruct (all_moves run0)|]. intros _.
    destruct (all_moves run0) as [|m ms] eqn:Hm.
    + exists cur, v. split; [by apply Hnil|done].
    + destruct Hcons as (v0 & v1 & H0 & Hv1 & Hlt1); [done|].
      rewrite Hv0 in Hv1. injection Hv1 as <-.
      exists v0, v. split; [done|]. split; [done|]. by eapply Htrans.
  - split; [done|]. by intros [].
Qed.

(** *** One replica of a partition per broker *)

Lemma plan_reaches_static st settings st' :
  plan_reaches settings st st' → static_eq st st'.
Proof.
  induction 1 as [st0 H0|st1 st2 _ IH Hr|st1 r st2 _ IH Hone].
  - by apply plan_init_static.
  - eapply static_eq_trans; [exact IH|]. by apply resort_static.
  - eapply static_eq_trans; [exact IH|]. by eapply plan_one_static.
Qed.

Lemma concat_fmap_add (f f' : nat → list nat) (l : list nat) dest item :
  NoDup l → dest ∈ l → f' dest = f dest ++ [item] →
  (∀ n, n ∈ l → n ≠ dest → f' n = f n) →
  concat (f' <$> l) ≡ₚ item :: concat (f <$> l).
Proof.
  intros Hnd Hd Hfd Hoth.
  apply elem_of_Permutation in Hd as [k Hk].
  rewrite (concat_fmap_perm f' f' _ _ Hk) by done.
  rewrite (concat_fmap_perm f f _ _ Hk) by done.
  pose proof Hnd as Hnd'. rewrite Hk in Hnd'. apply NoDup_cons in Hnd' as [Hdk _].
  simpl. rewrite Hfd. rewrite (concat_fmap_perm f' f k k (reflexivity _)).
  - rewrite <- app_assoc. simpl. symmetry. apply Permutation_middle.
  - intros n Hn. rewrite Hoth; [done| |by intros ->].
    rewrite Hk. by apply list_elem_of_further.
Qed.

Lemma concat_fmap_del (f f' : nat → list nat) (l : list nat) src item :
  NoDup l → src ∈ l → f src ≡ₚ item :: f' src →
  (∀ n, n ∈ l → n ≠ src → f' n = f n) →
  concat (f <$> l) ≡ₚ item :: concat (f' <$> l).
Proof.
  intros Hnd Hs Hfs Hoth.
  apply elem_of_Permutation in Hs as [k Hk].
  rewrite (concat_fmap_perm f' f' _ _ Hk) by done.
  rewrite (concat_fmap_perm f f _ _ Hk) by done.
  pose proof Hnd as Hnd'. rewrite Hk in Hnd'. apply NoDup_cons in Hnd' as [Hsk _].
  simpl. rewrite Hfs. rewrite (concat_fmap_perm f' f k k (reflexivity _)); [done|].
  intros n Hn. rewrite Hoth; [done| |by intros ->].
  rewrite Hk. by apply list_elem_of_further.
Qed.

Lemma is_replica_of_static st st' t p r :
  static_eq st st' → is_replica_of st' t p r = is_replica_of st t p r.
Proof.
  intros (_ & _ & Hi). unfold is_replica_of.
  by destruct (Hi r) as (_ & _ & -> & -> & _).
Qed.

Lemma hosted_filter st st' (b : broker_ref) t p (l : list item_ref) :
  static_eq st st' →
  filter (fun r => is_replica_of st' t p r = true) l
  = filter (fun r => is_replica_of st t p r = true) l.
Proof.
  intros Hs. apply list_filter_iff. intros r. by rewrite (is_replica_of_static _ _ _ _ _ Hs).
Qed.

Lemma hosted_None st b t p :
  existsb (is_replica_of st t p) (planned_partition_replicas st b) = false →
  hosted st b t p = [].
Proof.
  unfold hosted. generalize (planned_partition_replicas st b). intros l.
  induction l as [|r l IH]; simpl; [done|].
  intros H. apply orb_false_iff in H as [Hr Hl].
  rewrite filter_cons. rewrite decide_False by congruence. by apply IH.
Qed.

Lemma contains_planned_false st t p ds :
  contains_planned st t p ds = Ok false →
  existsb (is_replica_of st t p)
    (concat ((fun d => planned_items (node_at st d)) <$> ds)) = false.
Proof.
  induction ds as [|d ds IH]; simpl; [done|].
  destruct (bool_decide (d ∈ nodes st)); [|done]. rewrite existsb_app.
  destruct (existsb _ (planned_items _)); [done|]. simpl. apply IH.
Qed.

Lemma can_move_to_true_spec st i d :
  can_move_to st i d = Ok true →
  ∃ o, initial_owner (item_at st i) = Some o
       ∧ (broker (node_at st d) ≠ broker (node_at st o) →
          contains_partition st (broker (node_at st d))
            (topic (item_at st i)) (id (item_at st i)) = Ok false).
Proof.
  unfold can_move_to. destruct (is_leader _); [done|].
  destruct (negb _); [done|].
  destruct (initial_owner (item_at st i)) as [o|]; [|done].
  intros H. exists o. split; [done|]. intros Hne.
  rewrite decide_True in H by done.
  destruct (contains_partition _ _ _ _) as [[|]|e]; done.
Qed.

Lemma plan_reaches_brokers_unique st settings st' :
  brokers_consistent st →
  (∀ b t p, (length (hosted_initially st b t p) ≤ 1)%nat) →
  plan_reaches settings st st' →
  ∀ b t p, (length (hosted st' b t p) ≤ 1)%nat.
Proof.
  intros (Hnd & Hdisk & Hnode) Hu Hreach. revert st' Hreach.
  apply (plan_reaches_inv_strong (fun st' => ∀ b t p, (length (hosted st' b t p) ≤ 1)%nat)).
  - intros st0 H0 b t p. pose proof (plan_init_static _ _ H0) as Hs.
    apply plan_init_spec in H0 as (_ & _ & Hpl & _).
    specialize (Hu b t p). unfold hosted, hosted_initially in *.
    rewrite (hosted_filter _ _ b _ _ _ Hs).
    unfold planned_partition_replicas, initial_partition_replicas in *.
    destruct Hs as (-> & _).
    erewrite (list_fmap_ext _ (fun d => initial_items (node_at st d))
                (disks (broker_at st b))); [exact Hu|].
    intros k d Hd. apply Hpl. by eapply Hdisk, list_elem_of_lookup_2.
  - intros st1 st2 _ IH Hr b t p. specialize (IH b t p).
    pose proof (resort_static _ _ Hr) as Hs.
    apply resort_spec in Hr as (_ & _ & _ & Hnn & _).
    unfold hosted in *. rewrite (hosted_filter _ _ b _ _ _ Hs).
    unfold planned_partition_replicas in *. destruct Hs as (-> & _).
    erewrite (concat_fmap_perm _ (fun d => planned_items (node_at st1 d)));
      [exact IH|done|].
    intros n _. by destruct (Hnn n) as (? & _).
  - intros st1 cur item node n0 st2 Hreach IH Hun Hn0 Hpl0 _ Hacc b t p.
    pose proof (plan_reaches_conserves _ _ _ Hreach) as (Hperm1 & _ & Hown).
    pose proof (plan_reaches_static _ _ _ Hreach) as Hs1.
    pose proof Hacc as (Hnode1 & Hcan & _).
    apply can_move_to_true_spec in Hcan as (o & Hio' & Hcross).
    apply accepted_move_spec in Hacc
      as (src & items & Hsd & Hio & Hperm & Hsrc & Hdst & Hoth & _ & Hn & Hs12 & _);
      [|done].
    assert (o = src) as -> by congruence.
    assert (Hsrc0 : n0 = src).
    { unfold has_moved in Hun.
      destruct (planned_owner (item_at st1 item)) eqn:Hp; [done|].
      specialize (Hown n0 item Hn0 Hpl0 Hp). congruence. }
    subst n0.
    pose proof Hs1 as (Hb1 & Hnn1 & _).
    assert (Hin_disks : ∀ d, d ∈ nodes st1 →
              (d ∈ disks (broker_at st1 b) ↔ broker (node_at st1 d) = b)).
    { intros d Hd. rewrite Hperm1 in Hd. destruct (Hnn1 d) as (_ & _ & Hbd & _).
      rewrite Hb1, Hbd. split.
      - intros Hin. by destruct (Hdisk _ _ Hin).
      - intros <-. by apply Hnode. }
    unfold hosted. rewrite (hosted_filter _ _ b _ _ _ Hs12).
    unfold planned_partition_replicas. destruct Hs12 as (Hb12 & _). rewrite Hb12.
    specialize (IH b t p). unfold hosted, planned_partition_replicas in IH.
    assert (HndL : NoDup (disks (broker_at st1 b))) by (rewrite Hb1; apply Hnd).
    set (f := fun d => planned_items (node_at st1 d)) in *.
    set (f' := fun d => planned_items (node_at st2 d)).
    set (L := disks (broker_at st1 b)) in *.
    destruct (decide (src ∈ L)) as [HsL|HsL]; destruct (decide (node ∈ L)) as [HdL|HdL].
    + rewrite (concat_fmap_move f f' L src node item items); try done.
      intros n Hs' Hd'. unfold f, f'. by rewrite Hoth.
    + assert (Hdel : concat (f <$> L) ≡ₚ item :: concat (f' <$> L)).
      { apply (concat_fmap_del f f' L src item); try done.
        - unfold f, f'. by rewrite Hsrc.
        - intros n HnL Hns. unfold f, f'. rewrite Hoth; [done|done|].
          by intros ->. }
      rewrite Hdel in IH. rewrite filter_cons in IH.
      destruct (decide _); simpl in IH; lia.
    + assert (Hadd : concat (f' <$> L) ≡ₚ item :: concat (f <$> L)).
      { apply (concat_fmap_add f f' L node item); try done.
        intros n HnL Hnd'. unfold f, f'. rewrite Hoth; [done| |done].
        by intros ->. }
      rewrite Hadd, filter_cons.
      destruct (decide (is_replica_of st1 t p item = true)) as [Hrep|Hrep]; [|exact IH].
      assert (Hbd : broker (node_at st1 node) = b) by (by apply Hin_disks).
      assert (Hbs : broker (node_at st1 src) ≠ b).
      { intros Hbs. apply HsL. by apply Hin_disks. }
      unfold is_replica_of in Hrep. apply andb_true_iff in Hrep as [Ht Hp].
      apply bool_decide_eq_true in Ht, Hp. subst t p.
      specialize (Hcross ltac:(congruence)). rewrite Hbd in Hcross.
      unfold contains_partition in Hcross.
      destruct (existsb _ (initial_partition_replicas st1 b)); [done|].
      apply contains_planned_false in Hcross as Hpl.
      apply hosted_None in Hpl. unfold hosted, planned_partition_replicas in Hpl.
      fold f L in Hpl. rewrite Hpl. simpl. lia.
    + erewrite (concat_fmap_perm f' f L L (reflexivity _)); [exact IH|].
      intros n HnL. unfold f, f'. rewrite Hoth; [done|by intros ->..].
Qed.

(** X8: when the brokers and the disks name each other, every disk of a
    broker is a planned node, and no broker starts with two replicas of
    one partition on its disks, then in every state a run of [plan] goes
    through, and in the state it returns in, no broker holds two replicas
    of one partition on its disks. *)
Theorem plan_keeps_brokers_unique (st : State) (settings : PlanSettings) :
  brokers_consistent st →
  (∀ b t p, (length (hosted_initially st b t p) ≤ 1)%nat) →
  (∀ st', plan_reaches settings st st' → ∀ b t p, (length (hosted st' b t p) ≤ 1)%nat)
  ∧ (∀ run, plan st settings = Ok run →
       ∀ b t p, (length (hosted (final run) b t p) ≤ 1)%nat).
Proof.
  intros Hwf Hu.
  split; [intros st' Hr; by eapply plan_reaches_brokers_unique|].
  intros run Hp. by eapply plan_reaches_brokers_unique, plan_final_reached.
Qed.

End PlannerMore.

(** * More of the reassignment document *)

(** ** Mount points and log dirs *)

Lemma rstrip_slash_no_slash (s : string) : ends_with_slash (rstrip_slash s) = false.
Proof.
  induction s as [|c s IH]; simpl; [done|].
  destruct (bool_decide (rstrip_slash s = EmptyString)) eqn:He; simpl.
  - destruct (bool_decide (c = "/"%char)) eqn:Hc; simpl; [done|].
    apply bool_decide_eq_true in He. rewrite He. done.
  - apply bool_decide_eq_false in He.
    destruct (rstrip_slash s) as [|c' s'] eqn:Hs; [done|]. exact IH.
Qed.

Lemma rstrip_slash_fixed (s : string) :
  ends_with_slash s = false → rstrip_slash s = s.
Proof.
  induction s as [|c s IH]; simpl; [done|].
  destruct s as [|c' s'].
  - simpl. intros Hc. by rewrite Hc.
  - intros Hs. rewrite (IH Hs). simpl. done.
Qed.

Lemma rstrip_slash_app_slash (s : string) :
  rstrip_slash (s +:+ "/") = rstrip_slash s.
Proof.
  induction s as [|c s IH]; simpl; [done|]. by rewrite IH.
Qed.

(** X9: the mount point a disk keeps ends with a slash, and the log dir
    written for it ends with none: it is the path the disk was made from,
    less its trailing slashes, and that very path when it had none:
    stripping undoes the slash the constructor adds. *)
Theorem log_dir_of_mount_point (b : broker_ref) (mp : string) (cap : Z)
    (items : list item_ref) :
  ends_with_slash (mount_point (Disk_init b mp cap items)) = true
  ∧ ends_with_slash (rstrip_slash (mount_point (Disk_init b mp cap items))) = false
  ∧ rstrip_slash (mount_point (Disk_init b mp cap items)) = rstrip_slash mp
  ∧ (ends_with_slash mp = false →
     rstrip_slash (mount_point (Disk_init b mp cap items)) = mp).
Proof.
  unfold Disk_init, Disk, Disk_mount_point. simpl.
  destruct (ends_with_slash mp) eqn:Hmp.
  - split; [done|]. split; [apply rstrip_slash_no_slash|]. done.
  - assert (He : ∀ s, ends_with_slash (s +:+ "/") = true).
    { induction s as [|c s IH]; [done|]. simpl.
      destruct (s +:+ "/")%string eqn:Hs; [by destruct s|done]. }
    split; [apply He|]. split; [apply rstrip_slash_no_slash|].
    rewrite rstrip_slash_app_slash. split; [done|]. intros _.
    by apply rstrip_slash_fixed.
Qed.

(** ** Where the displaced broker goes *)

Lemma list_index_spec (x : Z) (l : list Z) :
  x ∈ l → ∃ i, list_index x l = Ok i ∧ l !! i = Some x.
Proof.
  induction l as [|y l IH]; intros Hin; [by apply elem_of_nil in Hin|].
  simpl. destruct (decide (y = x)) as [->|Hne]; [by exists O|].
  apply elem_of_cons in Hin as [?|Hin]; [congruence|].
  destruct (IH Hin) as (i & -> & Hi). by exists (S i).
Qed.

Lemma enumerate_lookup {A} (l : list A) i x :
  (i, x) ∈ enumerate l ↔ l !! i = Some x.
Proof.
  unfold enumerate. rewrite list_elem_of_lookup. split.
  - intros (k & Hk). apply lookup_zip_with_Some in Hk as (a & b & [= <- <-] & Ha & Hb).
    apply lookup_seq in Ha as [-> _]. done.
  - intros Hi. exists i. apply lookup_zip_with_Some. exists i, x.
    split; [done|]. split; [|done]. apply lookup_seq. split; [done|].
    by eapply lookup_lt_Some.
Qed.

Lemma random_choice_spec rand k positions p k' :
  random_choice rand k positions = Ok (p, k') → p ∈ positions ∧ k' = S k.
Proof.
  unfold random_choice. destruct (positions !! _) as [q|] eqn:Hq; [|done].
  intros [= <- <-]. split; [|done]. by eapply list_elem_of_lookup_2.
Qed.

Lemma list_count_absent (x : Z) (l : list Z) : x ∉ l → list_count x l = O.
Proof.
  unfold list_count. induction l as [|y l IH]; intros Hx; [done|].
  rewrite filter_cons. rewrite decide_False.
  - apply IH. intros ?. by apply Hx, list_elem_of_further.
  - intros ->. apply Hx, list_elem_of_here.
Qed.

Lemma find_new_position_cases (rand : nat → nat) (k : nat) (replicas : list Z)
    (new_id : Z) (new_position : nat) (old_id : Z) (pos k' : nat) :
  _find_new_position rand k replicas new_id new_position old_id = Ok (pos, k') →
  (pos < length replicas)%nat
  ∧ ((old_id ∈ replicas ∧ list_index old_id replicas = Ok pos
      ∧ replicas !! pos = Some old_id ∧ k' = k)
     ∨ ((old_id ∉ replicas) ∧ pos ≠ new_position ∧ k' = S k
        ∧ ((2 ≤ list_count new_id replicas)%nat → replicas !! pos = Some new_id))).
Proof.
  unfold _find_new_position.
  destruct (bool_decide (old_id ∈ replicas)) eqn:Hold.
  - apply bool_decide_eq_true in Hold. intros H.
    destruct (list_index_spec _ _ Hold) as (i & Hi & Hl). rewrite Hi in H.
    simpl in H. injection H as <- <-.
    split; [by eapply lookup_lt_Some|]. left. done.
  - apply bool_decide_eq_false in Hold.
    destruct (bool_decide (list_count new_id replicas < 2)%nat) eqn:Hcount.
    + apply bool_decide_eq_true in Hcount. intros H.
      apply random_choice_spec in H as [Hp ->].
      apply list_elem_of_fmap in Hp as ([i x] & -> & Hp).
      apply list_elem_of_filter in Hp as [Hne Hp]. simpl in *.
      apply enumerate_lookup in Hp.
      split; [by eapply lookup_lt_Some|]. right.
      repeat (split; [done|]). lia.
    + apply bool_decide_eq_false in Hcount.
      destruct (bool_decide (new_id ∉ replicas)) eqn:Hnew; simpl.
      { apply bool_decide_eq_true in Hnew. apply list_count_absent in Hnew. lia. }
      intros H. apply random_choice_spec in H as [Hp ->].
      apply list_elem_of_fmap in Hp as ([i x] & -> & Hp).
      apply list_elem_of_filter in Hp as [[Hx Hne] Hp]. simpl in *. subst x.
      apply enumerate_lookup in Hp.
      split; [by eapply lookup_lt_Some|]. right. done.
Qed.

(** X10: a position [_find_new_position] returns is within the list.  If
    the old broker is still in the list it is the first position holding
    it, and nothing is drawn.  If not, one position is drawn: it is never
    the position just written, and it holds the new broker whenever the
    new broker is in the list twice or more. *)
Theorem find_new_position_spec (rand : nat → nat) (k : nat) (replicas : list Z)
    (new_id : Z) (new_position : nat) (old_id : Z) (pos k' : nat) :
  _find_new_position rand k replicas new_id new_position old_id = Ok (pos, k') →
  (pos < length replicas)%nat
  ∧ ((old_id ∈ replicas ∧ list_index old_id replicas = Ok pos
      ∧ replicas !! pos = Some old_id ∧ k' = k)
     ∨ ((old_id ∉ replicas) ∧ pos ≠ new_position ∧ k' = S k
        ∧ ((2 ≤ list_count new_id replicas)%nat → replicas !! pos = Some new_id))).
Proof. apply find_new_position_cases. Qed.

(** ** One item added to the dict *)

Lemma bind_Raise {A B} (f : A → result B) (r : result A) (e : exn) :
  r ≫= f = Raise e → r = Raise e ∨ ∃ a, r = Ok a ∧ f a = Raise e.
Proof. destruct r as [a|e']; simpl; [eauto|]. intros [= ->]. by left. Qed.

Lemma for_each_elem_inv {A S} (P : S → Prop) (body : S → A → result S) l s :
  (∀ s x s', x ∈ l → P s → body s x = Ok s' → P s') → P s →
  (∀ s', for_each body l s = Ok s' → P s')
  ∧ (∀ e, for_each body l s = Raise e → ∃ s' x, P s' ∧ x ∈ l ∧ body s' x = Raise e).
Proof.
  revert s. induction l as [|x l IH]; intros s Hbody Hs; simpl.
  - split; [by intros s' [= <-]|done].
  - destruct (body s x) as [s1|e1] eqn:Hx; simpl.
    + destruct (IH s1) as [IH1 IH2].
      * intros s0 y s0' Hy. apply Hbody. by apply list_elem_of_further.
      * eapply Hbody; [apply list_elem_of_here|done..].
      * split; [done|]. intros e He. destruct (IH2 e He) as (s' & y & ? & ? & ?).
        exists s', y. split; [done|]. split; [by apply list_elem_of_further|done].
    + split; [done|]. intros e [= <-]. exists s, x.
      split; [done|]. split; [apply list_elem_of_here|done].
Qed.

Lemma for_each_is_Ok {A S} (P : S → Prop) (body : S → A → result S) l s :
  (∀ s x, x ∈ l → P s → ∃ s', body s x = Ok s' ∧ P s') → P s →
  ∃ s', for_each body l s = Ok s' ∧ P s'.
Proof.
  revert s. induction l as [|x l IH]; intros s Hbody Hs; simpl; [by exists s|].
  destruct (Hbody s x) as (s1 & -> & Hs1); [apply list_elem_of_here|done|]. simpl.
  apply IH; [|done]. intros s0 y Hy. apply Hbody. by apply list_elem_of_further.
Qed.

Lemma dict_get_set_eq key v (d : assignments) : dict_get key (dict_set key v d) = Some v.
Proof.
  induction d as [|[k0 w] d IH]; simpl.
  - by rewrite decide_True.
  - destruct (decide (k0 = key)) as [->|Hne]; simpl.
    + by rewrite decide_True.
    + by rewrite decide_False.
Qed.

Lemma dict_get_set_ne key k v (d : assignments) :
  k ≠ key → dict_get k (dict_set key v d) = dict_get k d.
Proof.
  intros Hne. induction d as [|[k0 w] d IH]; simpl.
  - by rewrite decide_False.
  - destruct (decide (k0 = key)) as [->|Hne']; simpl.
    + by rewrite !decide_False.
    + destruct (decide (k0 = k)); done.
Qed.

Lemma dict_get_set_is_Some key k v (d : assignments) :
  is_Some (dict_get k d) → is_Some (dict_get k (dict_set key v d)).
Proof.
  intros H. destruct (decide (k = key)) as [->|Hne].
  - rewrite dict_get_set_eq. by eexists.
  - by rewrite dict_get_set_ne.
Qed.

Lemma dict_get_nil_None key (d : assignments) pd : dict_get key d = Some pd → d ≠ [].
Proof. by destruct d. Qed.

Lemma all_records_set P key v d :
  all_records P d → P v → all_records P (dict_set key v d).
Proof.
  intros Hd Hv k pd Hin. apply dict_set_elem in Hin as [->|Hin]; [done|].
  by eapply Hd.
Qed.

Lemma list_get_Ok {A} (l : list A) i x : list_get l i = Ok x → l !! i = Some x.
Proof. unfold list_get. destruct (l !! i); [by intros [= ->]|done]. Qed.

Lemma list_get_Raise {A} (l : list A) i e :
  list_get l i = Raise e → e = IndexError ∧ (length l ≤ i)%nat.
Proof.
  unfold list_get. destruct (l !! i) eqn:Hl; [done|]. intros [= <-].
  split; [done|]. by apply lookup_ge_None.
Qed.

Lemma list_get_is_Ok {A} (l : list A) i : (i < length l)%nat → ∃ x, list_get l i = Ok x.
Proof.
  intros Hi. unfold list_get. destruct (lookup_lt_is_Some_2 l i Hi) as [x ->]. by exists x.
Qed.

Lemma list_set_Ok {A} (l l' : list A) i x :
  list_set l i x = Ok l' → (i < length l)%nat ∧ l' = <[i:=x]> l.
Proof. unfold list_set. destruct (decide _); [by intros [= <-]|done]. Qed.

Lemma list_set_Raise {A} (l : list A) i x e :
  list_set l i x = Raise e → e = IndexError ∧ (length l ≤ i)%nat.
Proof.
  unfold list_set. destruct (decide _); [done|]. intros [= <-]. split; [done|lia].
Qed.

Lemma list_set_is_Ok {A} (l : list A) i x :
  (i < length l)%nat → list_set l i x = Ok (<[i:=x]> l).
Proof. intros Hi. unfold list_set. by rewrite decide_True. Qed.

Lemma elem_of_insert_inv {A} (l : list A) i x y : y ∈ <[i:=x]> l → y = x ∨ y ∈ l.
Proof.
  intros Hy. apply list_elem_of_lookup in Hy as (j & Hj).
  apply list_lookup_insert_Some in Hj as [(-> & -> & _)|(_ & Hj)]; [by left|].
  right. by eapply list_elem_of_lookup_2.
Qed.

Lemma random_choice_Raise rand k positions e :
  random_choice rand k positions = Raise e → e = IndexError ∧ positions = [].
Proof.
  unfold random_choice. destruct (positions !! _) eqn:Hp; [done|]. intros [= <-].
  split; [done|]. destruct positions as [|p positions]; [done|].
  apply lookup_ge_None in Hp. exfalso.
  pose proof (Nat.mod_upper_bound (rand k) (length (p :: positions))) as Hb.
  simpl in *. lia.
Qed.

Lemma random_choice_is_Ok rand k positions :
  positions ≠ [] → ∃ p, random_choice rand k positions = Ok (p, S k).
Proof.
  intros Hne. unfold random_choice.
  destruct (positions !! _) as [p|] eqn:Hp; [by exists p|].
  exfalso. destruct positions as [|p positions]; [done|].
  apply lookup_ge_None in Hp.
  pose proof (Nat.mod_upper_bound (rand k) (length (p :: positions))) as Hb.
  simpl in *. lia.
Qed.

Lemma find_new_position_Raise rand k replicas new_id new_position old_id e :
  _find_new_position rand k replicas new_id new_position old_id = Raise e →
  e = IndexError.
Proof.
  unfold _find_new_position.
  destruct (bool_decide (old_id ∈ replicas)) eqn:Hold.
  - apply bool_decide_eq_true in Hold.
    destruct (list_index_spec _ _ Hold) as (i & -> & _). done.
  - destruct (bool_decide (list_count new_id replicas < 2)%nat).
    + intros H. by apply random_choice_Raise in H as [-> _].
    + destruct (bool_decide (new_id ∉ replicas) && _); [done|].
      intros H. by apply random_choice_Raise in H as [-> _].
Qed.

Lemma list_count_le_one (x : Z) (l : list Z) i :
  l !! i = Some x → (2 ≤ list_count x l)%nat → ∃ j, j ≠ i ∧ l !! j = Some x.
Proof.
  unfold list_count. revert i. induction l as [|y l IH]; intros i Hi Hc; [done|].
  rewrite filter_cons in Hc. destruct i as [|i]; simpl in Hi.
  - injection Hi as ->. rewrite decide_True in Hc by done. simpl in Hc.
    destruct (filter (λ y, y = x) l) as [|z f] eqn:Hf; [simpl in Hc; lia|].
    assert (Hz : z ∈ filter (λ y, y = x) l) by (rewrite Hf; apply list_elem_of_here).
    apply list_elem_of_filter in Hz as [-> Hz].
    apply list_elem_of_lookup in Hz as (j & Hj). by exists (S j).
  - destruct (decide (y = x)) as [->|Hne].
    + by exists O.
    + destruct (IH i Hi Hc) as (j & Hj & Hl). exists (S j). split; [lia|done].
Qed.

Lemma find_new_position_is_Ok rand k replicas new_id new_position old_id :
  replicas !! new_position = Some new_id → (2 ≤ length replicas)%nat →
  ∃ pos k', _find_new_position rand k replicas new_id new_position old_id = Ok (pos, k').
Proof.
  intros Hnew Hlen. unfold _find_new_position.
  destruct (bool_decide (old_id ∈ replicas)) eqn:Hold.
  - apply bool_decide_eq_true in Hold.
    destruct (list_index_spec _ _ Hold) as (i & -> & _). by eexists _, _.
  - destruct (bool_decide (list_count new_id replicas < 2)%nat) eqn:Hc.
    + destruct (random_choice_is_Ok rand k
                  (fst <$> filter (fun p => p.1 ≠ new_position) (enumerate replicas)))
        as (p & ->); [|by eexists _, _].
      assert (Hj : ∃ j x, j ≠ new_position ∧ replicas !! j = Some x).
      { destruct new_position as [|n].
        - destruct (lookup_lt_is_Some_2 replicas 1) as [x Hx]; [lia|]. by exists 1%nat, x.
        - destruct (lookup_lt_is_Some_2 replicas 0) as [x Hx]; [lia|]. by exists 0%nat, x. }
      destruct Hj as (j & x & Hj & Hx). intros Hnil.
      assert (Hin : j ∈ fst <$> filter (fun p => p.1 ≠ new_position) (enumerate replicas)).
      { apply list_elem_of_fmap. exists (j, x). split; [done|].
        apply list_elem_of_filter. split; [done|]. by apply enumerate_lookup. }
      rewrite Hnil in Hin. by apply elem_of_nil in Hin.
    + apply bool_decide_eq_false in Hc.
      destruct (bool_decide (new_id ∉ replicas)) eqn:Hn; simpl.
      { apply bool_decide_eq_true in Hn. exfalso. apply Hn.
        by eapply list_elem_of_lookup_2. }
      destruct (list_count_le_one new_id replicas new_position Hnew) as (j & Hj & Hx);
        [lia|].
      destruct (random_choice_is_Ok rand k
                  (fst <$> filter (fun p => p.2 = new_id ∧ p.1 ≠ new_position)
                             (enumerate replicas)))
        as (p & ->); [|by eexists _, _].
      intros Hnil.
      assert (Hin : j ∈ fst <$> filter (fun p => p.2 = new_id ∧ p.1 ≠ new_position)
                                  (enumerate replicas)).
      { apply list_elem_of_fmap. exists (j, new_id). split; [done|].
        apply list_elem_of_filter. split; [done|]. by apply enumerate_lookup. }
      rewrite Hnil in Hin. by apply elem_of_nil in Hin.
Qed.

Lemma planned_broker_id_Ok st it x :
  planned_broker_id st it = Ok x →
  ∃ o, planned_owner it = Some o ∧ x = broker_id (broker_at st (broker (node_at st o))).
Proof.
  unfold planned_broker_id. destruct (planned_owner it) as [o|]; [|done].
  intros [= <-]. by exists o.
Qed.

Lemma planned_log_dir_Ok st it dir :
  planned_log_dir st it = Ok dir →
  ∃ o, planned_owner it = Some o ∧ dir = rstrip_slash (mount_point (node_at st o)).
Proof.
  unfold planned_log_dir. destruct (planned_owner it) as [o|]; [|done].
  intros [= <-]. by exists o.
Qed.

(** The first item of a partition: what the new record holds. *)
Lemma add_moved_replica_first st parts rand b item b' :
  dict_get (id_name (item_at st item)) (new_assignments b) = None →
  add_moved_replica st parts rand b item = Ok b' →
  ∃ leader initial old o p,
    parts !! (topic (item_at st item), id (item_at st item)) = Some (leader, initial)
    ∧ initial !! replica_id (item_at st item) = Some old
    ∧ planned_owner (item_at st item) = Some o
    ∧ (p < length initial)%nat
    ∧ _find_new_position rand (draws b)
        (<[replica_id (item_at st item) := broker_id (broker_at st (broker (node_at st o)))]>
           initial)
        (broker_id (broker_at st (broker (node_at st o))))
        (replica_id (item_at st item)) old = Ok (p, draws b')
    ∧ replicas_var b' = Some (id_name (item_at st item))
    ∧ new_assignments b'
      = dict_set (id_name (item_at st item))
          (mkPartitionData (topic (item_at st item)) (id (item_at st item))
             (<[p := old]>
                (<[replica_id (item_at st item)
                   := broker_id (broker_at st (broker (node_at st o)))]> initial))
             initial
             (<[replica_id (item_at st item) := rstrip_slash (mount_point (node_at st o))]>
                (replicate (length initial) "any"%string)))
          (new_assignments b).
Proof.
  unfold id_name, add_moved_replica. intros Hget.
  destruct (parts !! _) as [[leader initial]|]; [|done]. rewrite Hget. intros H.
  apply bind_Ok in H as (old & Hold & H). apply bind_Ok in H as (new_id & Hnew & H).
  apply bind_Ok in H as (reps1 & Hreps1 & H). apply bind_Ok in H as ([p k'] & Hpos & H).
  apply bind_Ok in H as (reps2 & Hreps2 & H). apply bind_Ok in H as (dir & Hdir & H).
  apply bind_Ok in H as (dirs & Hdirs & H). injection H as <-. simpl in *.
  apply list_get_Ok in Hold.
  apply planned_broker_id_Ok in Hnew as (o & Ho & ->).
  apply planned_log_dir_Ok in Hdir as (o' & Ho' & ->).
  rewrite Ho in Ho'. injection Ho' as <-.
  apply list_set_Ok in Hreps1 as [Hrid ->]. apply list_set_Ok in Hreps2 as [Hp ->].
  apply list_set_Ok in Hdirs as [_ ->]. rewrite length_insert in Hp.
  exists leader, initial, old, o, p. done.
Qed.

(** A later item of a partition: the three writes to the dict. *)
Lemma add_moved_replica_again st parts rand b item pd b' :
  dict_get (id_name (item_at st item)) (new_assignments b) = Some pd →
  add_moved_replica st parts rand b item = Ok b' →
  ∃ old o p bound target pd2,
    is_Some (parts !! (topic (item_at st item), id (item_at st item)))
    ∧ pd_replicas pd !! replica_id (item_at st item) = Some old
    ∧ planned_owner (item_at st item) = Some o
    ∧ replicas_var b = Some bound
    ∧ dict_get bound
        (dict_set (id_name (item_at st item))
           (with_replicas pd
              (<[replica_id (item_at st item)
                 := broker_id (broker_at st (broker (node_at st o)))]> (pd_replicas pd)))
           (new_assignments b)) = Some target
    ∧ (p < length (pd_replicas target))%nat
    ∧ dict_get (id_name (item_at st item))
        (dict_set bound (with_replicas target (<[p := old]> (pd_replicas target)))
           (dict_set (id_name (item_at st item))
              (with_replicas pd
                 (<[replica_id (item_at st item)
                    := broker_id (broker_at st (broker (node_at st o)))]> (pd_replicas pd)))
              (new_assignments b))) = Some pd2
    ∧ replicas_var b' = Some bound
    ∧ new_assignments b'
      = dict_set (id_name (item_at st item))
          (with_log_dirs pd2
             (<[replica_id (item_at st item) := rstrip_slash (mount_point (node_at st o))]>
                (pd_log_dirs pd2)))
          (dict_set bound (with_replicas target (<[p := old]> (pd_replicas target)))
             (dict_set (id_name (item_at st item))
                (with_replicas pd
                   (<[replica_id (item_at st item)
                      := broker_id (broker_at st (broker (node_at st o)))]> (pd_replicas pd)))
                (new_assignments b))).
Proof.
  unfold id_name, add_moved_replica. intros Hget.
  destruct (parts !! _) as [[leader initial]|]; [|done]. rewrite Hget. intros H.
  apply bind_Ok in H as (old & Hold & H). apply bind_Ok in H as (new_id & Hnew & H).
  apply bind_Ok in H as (reps1 & Hreps1 & H). apply bind_Ok in H as ([p k'] & Hpos & H).
  destruct (replicas_var b) as [bound|]; [|done].
  apply list_get_Ok in Hold.
  apply planned_broker_id_Ok in Hnew as (o & Ho & ->).
  apply list_set_Ok in Hreps1 as [Hrid ->].
  destruct (dict_get bound _) as [target|] eqn:Htarget; [|done].
  apply bind_Ok in H as (reps2 & Hreps2 & H).
  apply list_set_Ok in Hreps2 as [Hp ->]. simpl in *.
  destruct (dict_get _ (dict_set bound _ _)) as [pd2|] eqn:Hpd2; [|done].
  apply bind_Ok in H as (dir & Hdir & H). apply bind_Ok in H as (dirs & Hdirs & H).
  apply planned_log_dir_Ok in Hdir as (o' & Ho' & ->).
  rewrite Ho in Ho'. injection Ho' as <-.
  apply list_set_Ok in Hdirs as [_ ->]. injection H as <-. simpl.
  exists old, o, p, bound, target, pd2. done.
Qed.

Lemma add_moved_replica_bound st parts rand b item b' :
  add_moved_replica st parts rand b item = Ok b' → bound_replicas b'.
Proof.
  intros H. unfold bound_replicas.
  destruct (dict_get (id_name (item_at st item)) (new_assignments b)) as [pd|] eqn:Hget.
  - destruct (add_moved_replica_again _ _ _ _ _ _ _ Hget H)
      as (old & o & p & bound & target & pd2 & _ & _ & _ & _ & Ht & _ & _ & -> & ->).
    apply dict_get_set_is_Some. rewrite dict_get_set_eq. by eexists.
  - destruct (add_moved_replica_first _ _ _ _ _ _ Hget H)
      as (leader & initial & old & o & p & _ & _ & _ & _ & _ & -> & ->).
    rewrite dict_get_set_eq. by eexists.
Qed.

(** What [add_moved_replica] raises. *)
Lemma add_moved_replica_Raise st parts rand b item e :
  bound_replicas b →
  add_moved_replica st parts rand b item = Raise e →
  (e = KeyError ∧ parts !! (topic (item_at st item), id (item_at st item)) = None)
  ∨ e = IndexError
  ∨ (e = AttributeError ∧ planned_owner (item_at st item) = None).
Proof.
  intros Hb. unfold add_moved_replica.
  destruct (parts !! _) as [[leader initial]|]; [|intros [= <-]; by left].
  assert (Hg : ∀ (l : list Z) i e, list_get l i = Raise e → e = IndexError).
  { intros l i e0 H0. by apply list_get_Raise in H0 as [-> _]. }
  assert (Hs : ∀ A (l : list A) i x e, list_set l i x = Raise e → e = IndexError).
  { intros A l i x e0 H0. by apply list_set_Raise in H0 as [-> _]. }
  assert (Hbr : ∀ e, planned_broker_id st (item_at st item) = Raise e →
                  e = AttributeError ∧ planned_owner (item_at st item) = None).
  { intros e0. unfold planned_broker_id. destruct (planned_owner _); [done|].
    by intros [= <-]. }
  assert (Hld : ∀ e, planned_log_dir st (item_at st item) = Raise e →
                  e = AttributeError ∧ planned_owner (item_at st item) = None).
  { intros e0. unfold planned_log_dir. destruct (planned_owner _); [done|].
    by intros [= <-]. }
  destruct (dict_get _ (new_assignments b)) as [pd|] eqn:Hget.
  - intros H.
    apply bind_Raise in H as [H|(old & _ & H)]; [apply Hg in H; auto|].
    apply bind_Raise in H as [H|(new_id & _ & H)]; [apply Hbr in H; auto|].
    apply bind_Raise in H as [H|(reps1 & _ & H)]; [apply Hs in H; auto|].
    apply bind_Raise in H as [H|([p k'] & _ & H)];
      [apply find_new_position_Raise in H; auto|].
    unfold bound_replicas in Hb. destruct (replicas_var b) as [bound|].
    + destruct (dict_get bound (dict_set _ _ _)) as [target|] eqn:Ht.
      * apply bind_Raise in H as [H|(reps2 & _ & H)]; [apply Hs in H; auto|].
        destruct (dict_get _ (dict_set bound _ _)) as [pd2|] eqn:Hpd2.
        -- apply bind_Raise in H as [H|(dir & _ & H)]; [apply Hld in H; auto|].
           apply bind_Raise in H as [H|(dirs & _ & H)]; [apply Hs in H; auto|]. done.
        -- exfalso.
           assert (Hsome : is_Some
                     (dict_get (topic (item_at st item) +:+ "-"
                                +:+ pretty (id (item_at st item)))
                        (dict_set (topic (item_at st item) +:+ "-"
                                   +:+ pretty (id (item_at st item)))
                           (with_replicas pd reps1) (new_assignments b)))).
           { rewrite dict_get_set_eq. by eexists. }
           eapply dict_get_set_is_Some in Hsome. rewrite Hpd2 in Hsome.
           by destruct Hsome.
      * exfalso. eapply dict_get_set_is_Some in Hb. rewrite Ht in Hb.
        by destruct Hb.
    + rewrite Hb in Hget. done.
  - intros H.
    apply bind_Raise in H as [H|(old & _ & H)]; [apply Hg in H; auto|].
    apply bind_Raise in H as [H|(new_id & _ & H)]; [apply Hbr in H; auto|].
    apply bind_Raise in H as [H|(reps1 & _ & H)]; [apply Hs in H; auto|].
    apply bind_Raise in H as [H|([p k'] & _ & H)];
      [apply find_new_position_Raise in H; auto|].
    apply bind_Raise in H as [H|(reps2 & _ & H)]; [apply Hs in H; auto|].
    apply bind_Raise in H as [H|(dir & _ & H)]; [apply Hld in H; auto|].
    apply bind_Raise in H as [H|(dirs & _ & H)]; [apply Hs in H; auto|]. done.
Qed.

Lemma bound_replicas_empty : bound_replicas (mkBuilder [] None 0).
Proof. done. Qed.

Lemma build_assignments_Raise st parts moved rand e :
  build_assignments st parts moved rand = Raise e →
  (e = KeyError
   ∧ ∃ item, item ∈ moved
       ∧ parts !! (topic (item_at st item), id (item_at st item)) = None)
  ∨ e = IndexError
  ∨ (e = AttributeError
     ∧ ∃ item, item ∈ moved ∧ planned_owner (item_at st item) = None).
Proof.
  unfold build_assignments. intros H.
  destruct (for_each_elem_inv bound_replicas (add_moved_replica st parts rand) moved
              (mkBuilder [] None 0)) as [_ Hr].
  - intros b x b' _ _. apply add_moved_replica_bound.
  - apply bound_replicas_empty.
  - destruct (Hr e H) as (b & x & Hb & Hx & Hraise).
    destruct (add_moved_replica_Raise _ _ _ _ _ _ Hb Hraise) as [[-> ?]|[->|[-> ?]]].
    + left. split; [done|]. by exists x.
    + by right; left.
    + right; right. split; [done|]. by exists x.
Qed.

Lemma add_moved_replica_known st parts moved rand b item b' :
  item ∈ moved →
  all_records (known_record st parts moved) (new_assignments b) →
  add_moved_replica st parts rand b item = Ok b' →
  all_records (known_record st parts moved) (new_assignments b').
Proof.
  intros Hin Hb H.
  destruct (dict_get (id_name (item_at st item)) (new_assignments b)) as [pd|] eqn:Hget.
  - destruct (add_moved_replica_again _ _ _ _ _ _ _ Hget H)
      as (old & o & p & bound & target & pd2 & Hparts & Hold & Ho & _ & Ht & _ & Hpd2
          & _ & ->).
    assert (Hpd : known_record st parts moved pd).
    { apply dict_get_elem in Hget. by eapply Hb. }
    assert (Hnew : known_broker st parts moved
                     (broker_id (broker_at st (broker (node_at st o))))).
    { exists item. split; [done|]. right. unfold planned_broker_id. by rewrite Ho. }
    assert (H1 : all_records (known_record st parts moved)
                   (dict_set (id_name (item_at st item))
                      (with_replicas pd
                         (<[replica_id (item_at st item)
                            := broker_id (broker_at st (broker (node_at st o)))]>
                            (pd_replicas pd)))
                      (new_assignments b))).
    { apply all_records_set; [done|]. destruct Hpd as (Hr & Hd & Hp).
      split; [|done]. simpl. intros x Hx.
      apply elem_of_insert_inv in Hx as [->|Hx]; [done|by apply Hr]. }
    assert (H2 : all_records (known_record st parts moved)
                   (dict_set bound (with_replicas target (<[p := old]> (pd_replicas target)))
                      (dict_set (id_name (item_at st item))
                         (with_replicas pd
                            (<[replica_id (item_at st item)
                               := broker_id (broker_at st (broker (node_at st o)))]>
                               (pd_replicas pd)))
                         (new_assignments b)))).
    { apply all_records_set; [done|].
      apply dict_get_elem in Ht. destruct (H1 _ _ Ht) as (Hr & Hd & Hp).
      split; [|done]. simpl. intros x Hx.
      apply elem_of_insert_inv in Hx as [->|Hx]; [|by apply Hr].
      destruct Hpd as (Hr' & _). apply Hr'. by eapply list_elem_of_lookup_2. }
    apply all_records_set; [done|].
    apply dict_get_elem in Hpd2. destruct (H2 _ _ Hpd2) as (Hr & Hd & Hp).
    split; [done|]. split; [|done]. simpl. intros dir Hdir.
    apply elem_of_insert_inv in Hdir as [->|Hdir]; [|by apply Hd].
    right. by exists item, o.
  - destruct (add_moved_replica_first _ _ _ _ _ _ Hget H)
      as (leader & initial & old & o & p & Hparts & Hold & Ho & _ & _ & _ & ->).
    apply all_records_set; [done|].
    assert (Hinit : ∀ x, x ∈ initial → known_broker st parts moved x).
    { intros x Hx. exists item. split; [done|]. left. by exists leader, initial. }
    split; [|split]; simpl.
    + intros x Hx. apply elem_of_insert_inv in Hx as [->|Hx].
      { apply Hinit. by eapply list_elem_of_lookup_2. }
      apply elem_of_insert_inv in Hx as [->|Hx]; [|by apply Hinit].
      exists item. split; [done|]. right. unfold planned_broker_id. by rewrite Ho.
    + intros dir Hdir. apply elem_of_insert_inv in Hdir as [->|Hdir].
      * right. by exists item, o.
      * left. by apply elem_of_replicate_inv in Hdir.
    + exists item. rewrite Hparts. split; [done|]. split; [done|]. split; [done|].
      by eexists.
Qed.

Lemma add_moved_replica_uniform st parts rand b item rf b' :
  (∀ leader initial,
     parts !! (topic (item_at st item), id (item_at st item)) = Some (leader, initial) →
     length initial = rf) →
  uniform rf b →
  add_moved_replica st parts rand b item = Ok b' →
  uniform rf b'.
Proof.
  unfold uniform. intros Hrf Hb H.
  destruct (dict_get (id_name (item_at st item)) (new_assignments b)) as [pd|] eqn:Hget.
  - destruct (add_moved_replica_again _ _ _ _ _ _ _ Hget H)
      as (old & o & p & bound & target & pd2 & _ & _ & _ & _ & Ht & _ & Hpd2 & _ & ->).
    apply dict_get_elem in Hget, Ht, Hpd2.
    assert (H1 : all_records
                   (fun pd => length (pd_replicas pd) = rf ∧ length (pd_log_dirs pd) = rf)
                   (dict_set (id_name (item_at st item))
                      (with_replicas pd
                         (<[replica_id (item_at st item)
                            := broker_id (broker_at st (broker (node_at st o)))]>
                            (pd_replicas pd)))
                      (new_assignments b))).
    { apply all_records_set; [done|]. simpl. rewrite length_insert. by eapply Hb. }
    assert (H2 : all_records
                   (fun pd => length (pd_replicas pd) = rf ∧ length (pd_log_dirs pd) = rf)
                   (dict_set bound (with_replicas target (<[p := old]> (pd_replicas target)))
                      (dict_set (id_name (item_at st item))
                         (with_replicas pd
                            (<[replica_id (item_at st item)
                               := broker_id (broker_at st (broker (node_at st o)))]>
                               (pd_replicas pd)))
                         (new_assignments b)))).
    { apply all_records_set; [done|]. simpl. rewrite length_insert. by eapply H1. }
    apply all_records_set; [done|]. simpl. rewrite length_insert. by eapply H2.
  - destruct (add_moved_replica_first _ _ _ _ _ _ Hget H)
      as (leader & initial & old & o & p & Hparts & _ & _ & _ & _ & _ & ->).
    apply all_records_set; [done|]. simpl.
    rewrite !length_insert, length_replicate. split; by eapply Hrf.
Qed.

Lemma add_moved_replica_is_Ok st parts rand b item rf leader initial o :
  (2 ≤ rf)%nat → bound_replicas b → uniform rf b →
  parts !! (topic (item_at st item), id (item_at st item)) = Some (leader, initial) →
  length initial = rf →
  (replica_id (item_at st item) < rf)%nat →
  planned_owner (item_at st item) = Some o →
  ∃ b', add_moved_replica st parts rand b item = Ok b'.
Proof.
  intros Hrf Hbound Huni Hparts Hlen Hrid Ho.
  destruct (add_moved_replica st parts rand b item) as [b'|e] eqn:H; [by exists b'|].
  exfalso. revert H. unfold add_moved_replica. rewrite Hparts.
  unfold planned_broker_id, planned_log_dir. rewrite Ho.
  destruct (dict_get _ (new_assignments b)) as [pd|] eqn:Hget.
  - pose proof (dict_get_elem _ _ _ Hget) as Hpd. apply Huni in Hpd as [Hpr Hpl].
    destruct (list_get (pd_replicas pd) _) as [old|e0] eqn:Hold;
      [|apply list_get_Raise in Hold as [_ ?]; lia].
    simpl.
    destruct (list_set (pd_replicas pd) _ _) as [reps1|e0] eqn:Hreps1;
      [|apply list_set_Raise in Hreps1 as [_ ?]; lia].
    apply list_set_Ok in Hreps1 as [_ ->]. simpl.
    destruct (_find_new_position _ _ _ _ _ _) as [[p k']|e0] eqn:Hf.
    2:{ destruct (find_new_position_is_Ok rand (draws b)
                    (<[replica_id (item_at st item)
                       := broker_id (broker_at st (broker (node_at st o)))]>
                       (pd_replicas pd))
                    (broker_id (broker_at st (broker (node_at st o))))
                    (replica_id (item_at st item)) old) as (? & ? & Heq).
        - apply list_lookup_insert_eq. lia.
        - rewrite length_insert. lia.
        - rewrite Heq in Hf. done. }
    apply find_new_position_cases in Hf as [Hp _]. rewrite length_insert in Hp.
    simpl. unfold bound_replicas in Hbound.
    destruct (replicas_var b) as [bound|]; [|by rewrite Hbound in Hget].
    eapply dict_get_set_is_Some in Hbound. destruct Hbound as [target Ht].
    rewrite Ht.
    assert (H1 : all_records
                   (fun pd => length (pd_replicas pd) = rf ∧ length (pd_log_dirs pd) = rf)
                   (dict_set (topic (item_at st item) +:+ "-" +:+ pretty (id (item_at st item)))
                      (with_replicas pd
                         (<[replica_id (item_at st item)
                            := broker_id (broker_at st (broker (node_at st o)))]>
                            (pd_replicas pd)))
                      (new_assignments b))).
    { apply all_records_set; [done|]. simpl. by rewrite length_insert. }
    pose proof (dict_get_elem _ _ _ Ht) as Hte. apply H1 in Hte as [Htr Htl].
    destruct (list_set (pd_replicas target) _ _) as [reps2|e0] eqn:Hreps2;
      [|apply list_set_Raise in Hreps2 as [_ ?]; lia].
    apply list_set_Ok in Hreps2 as [_ ->]. simpl.
    destruct (dict_get _ (dict_set bound _ _)) as [pd2|] eqn:Hpd2.
    2:{ assert (Hs : is_Some
                       (dict_get (topic (item_at st item) +:+ "-" +:+ pretty (id (item_at st item)))
                          (dict_set (topic (item_at st item) +:+ "-"
                                     +:+ pretty (id (item_at st item)))
                             (with_replicas pd
                                (<[replica_id (item_at st item)
                                   := broker_id (broker_at st (broker (node_at st o)))]>
                                   (pd_replicas pd)))
                             (new_assignments b)))).
        { rewrite dict_get_set_eq. by eexists. }
        eapply dict_get_set_is_Some in Hs. rewrite Hpd2 in Hs. by destruct Hs. }
    assert (H2 : all_records
                   (fun pd => length (pd_replicas pd) = rf ∧ length (pd_log_dirs pd) = rf)
                   (dict_set bound (with_replicas target (<[p := old]> (pd_replicas target)))
                      (dict_set (topic (item_at st item) +:+ "-"
                                 +:+ pretty (id (item_at st item)))
                         (with_replicas pd
                            (<[replica_id (item_at st item)
                               := broker_id (broker_at st (broker (node_at st o)))]>
                               (pd_replicas pd)))
                         (new_assignments b)))).
    { apply all_records_set; [done|]. simpl. by rewrite length_insert. }
    apply dict_get_elem in Hpd2. apply H2 in Hpd2 as [_ Hl2]. simpl.
    destruct (list_set (pd_log_dirs pd2) _ _) as [dirs|e0] eqn:Hdirs;
      [done|apply list_set_Raise in Hdirs as [_ ?]; lia].
  - destruct (list_get initial _) as [old|e0] eqn:Hold;
      [|apply list_get_Raise in Hold as [_ ?]; lia].
    simpl.
    destruct (list_set initial _ _) as [reps1|e0] eqn:Hreps1;
      [|apply list_set_Raise in Hreps1 as [_ ?]; lia].
    apply list_set_Ok in Hreps1 as [_ ->]. simpl.
    destruct (_find_new_position _ _ _ _ _ _) as [[p k']|e0] eqn:Hf.
    2:{ destruct (find_new_position_is_Ok rand (draws b)
                    (<[replica_id (item_at st item)
                       := broker_id (broker_at st (broker (node_at st o)))]> initial)
                    (broker_id (broker_at st (broker (node_at st o))))
                    (replica_id (item_at st item)) old) as (? & ? & Heq).
        - apply list_lookup_insert_eq. lia.
        - rewrite length_insert. lia.
        - rewrite Heq in Hf. done. }
    apply find_new_position_cases in Hf as [Hp _]. rewrite length_insert in Hp.
    simpl.
    destruct (list_set (<[_:=_]> initial) _ _) as [reps2|e0] eqn:Hreps2;
      [|apply list_set_Raise in Hreps2 as [_ Hge]; rewrite length_insert in Hge; lia].
    simpl.
    destruct (list_set (replicate _ _) _ _) as [dirs|e0] eqn:Hdirs;
      [done|apply list_set_Raise in Hdirs as [_ Hge]; rewrite length_replicate in Hge; lia].
Qed.

(** ** The document as a whole *)

Lemma build_assignments_known st parts moved rand b :
  build_assignments st parts moved rand = Ok b →
  all_records (known_record st parts moved) (new_assignments b).
Proof.
  unfold build_assignments. intros H.
  destruct (for_each_elem_inv
              (fun b => all_records (known_record st parts moved) (new_assignments b))
              (add_moved_replica st parts rand) moved (mkBuilder [] None 0)) as [Hok _].
  - intros b0 x b1 Hx. by apply add_moved_replica_known.
  - intros k pd Hin. by apply elem_of_nil in Hin.
  - by apply Hok.
Qed.

Lemma known_log_dir_no_slash st moved dir :
  known_log_dir st moved dir → ends_with_slash dir = false.
Proof.
  intros [->|(item & o & _ & _ & ->)]; [done|]. apply rstrip_slash_no_slash.
Qed.

Lemma build_assignments_is_Ok st parts moved rand rf :
  (2 ≤ rf)%nat →
  (∀ item, item ∈ moved →
     ∃ leader initial o,
       parts !! (topic (item_at st item), id (item_at st item)) = Some (leader, initial)
       ∧ length initial = rf
       ∧ (replica_id (item_at st item) < rf)%nat
       ∧ planned_owner (item_at st item) = Some o) →
  ∃ b, build_assignments st parts moved rand = Ok b ∧ uniform rf b.
Proof.
  intros Hrf Hitems. unfold build_assignments.
  destruct (for_each_is_Ok (fun b => bound_replicas b ∧ uniform rf b)
              (add_moved_replica st parts rand) moved (mkBuilder [] None 0))
    as (b & Hb & _ & Hu); [| |by exists b].
  - intros b item Hin [Hbound Huni].
    destruct (Hitems item Hin) as (leader & initial & o & Hparts & Hlen & Hrid & Ho).
    destruct (add_moved_replica_is_Ok st parts rand b item rf leader initial o)
      as (b' & Hb'); try done.
    exists b'. split; [done|]. split; [by eapply add_moved_replica_bound|].
    eapply add_moved_replica_uniform; [|done..].
    intros l i Hl. rewrite Hparts in Hl. by injection Hl as _ <-.
  - split; [apply bound_replicas_empty|]. intros k pd Hin. by apply elem_of_nil in Hin.
Qed.

Lemma gen_reassignment_file_is_Ok st parts moved rand rf :
  (2 ≤ rf)%nat →
  (∀ item, item ∈ moved →
     ∃ leader initial o,
       parts !! (topic (item_at st item), id (item_at st item)) = Some (leader, initial)
       ∧ length initial = rf
       ∧ (replica_id (item_at st item) < rf)%nat
       ∧ planned_owner (item_at st item) = Some o) →
  ∃ doc, gen_reassignment_file st parts moved rand = Ok doc
    ∧ ∀ r, r ∈ partitions doc →
        length (json_replicas r) = rf ∧ length (json_log_dirs r) = rf.
Proof.
  intros Hrf Hitems.
  destruct (build_assignments_is_Ok st parts moved rand rf Hrf Hitems) as (b & Hb & Hu).
  exists (emit (new_assignments b)). unfold gen_reassignment_file. rewrite Hb.
  split; [done|]. intros r Hr. unfold emit in Hr. simpl in Hr.
  apply list_elem_of_fmap in Hr as (pd & -> & Hpd).
  apply list_elem_of_filter in Hpd as [_ Hpd].
  apply list_elem_of_fmap in Hpd as ([k pd'] & -> & Hin). simpl. by eapply Hu.
Qed.

Lemma gen_reassignment_file_Raise st parts moved rand e :
  gen_reassignment_file st parts moved rand = Raise e →
  (e = KeyError
   ∧ ∃ item, item ∈ moved
       ∧ parts !! (topic (item_at st item), id (item_at st item)) = None)
  ∨ e = IndexError
  ∨ (e = AttributeError
     ∧ ∃ item, item ∈ moved ∧ planned_owner (item_at st item) = None).
Proof.
  unfold gen_reassignment_file. intros H.
  apply bind_Raise in H as [H|(b & _ & H)]; [|done].
  by eapply build_assignments_Raise.
Qed.

(** X11: the first moved replica of a partition makes the partition's
    record from the current replica list: the planned broker is written
    at the replica's index, the broker it displaces stays in the list,
    the length and [original_replicas] are those of the current list,
    and [log_dirs] is ["any"] everywhere but at the replica's index,
    which holds the planned disk's mount point without trailing slash.
    When the displaced broker is still in the list after the write (a
    move between disks of one broker), nothing else changes and nothing
    is drawn; otherwise it overwrites one other index, drawn at random. *)
Theorem first_move_of_partition (st : State) (parts : gmap (string * Z) (Z * list Z))
    (rand : nat → nat) (b : Builder) (item : item_ref) (b' : Builder) :
  dict_get (id_name (item_at st item)) (new_assignments b) = None →
  add_moved_replica st parts rand b item = Ok b' →
  ∃ leader initial old o pd,
    parts !! (topic (item_at st item), id (item_at st item)) = Some (leader, initial)
    ∧ initial !! replica_id (item_at st item) = Some old
    ∧ planned_owner (item_at st item) = Some o
    ∧ dict_get (id_name (item_at st item)) (new_assignments b') = Some pd
    ∧ (∀ k, k ≠ id_name (item_at st item) →
         dict_get k (new_assignments b') = dict_get k (new_assignments b))
    ∧ pd_topic pd = topic (item_at st item)
    ∧ pd_partition pd = id (item_at st item)
    ∧ pd_original_replicas pd = initial
    ∧ length (pd_replicas pd) = length initial
    ∧ pd_replicas pd !! replica_id (item_at st item)
      = Some (broker_id (broker_at st (broker (node_at st o))))
    ∧ old ∈ pd_replicas pd
    ∧ (old ∈ <[replica_id (item_at st item)
               := broker_id (broker_at st (broker (node_at st o)))]> initial →
       pd_replicas pd
       = <[replica_id (item_at st item)
           := broker_id (broker_at st (broker (node_at st o)))]> initial
       ∧ draws b' = draws b)
    ∧ (old ∉ <[replica_id (item_at st item)
               := broker_id (broker_at st (broker (node_at st o)))]> initial →
       ∃ p, p ≠ replica_id (item_at st item)
         ∧ pd_replicas pd
           = <[p := old]>
               (<[replica_id (item_at st item)
                  := broker_id (broker_at st (broker (node_at st o)))]> initial)
         ∧ draws b' = S (draws b))
    ∧ pd_log_dirs pd
      = <[replica_id (item_at st item) := rstrip_slash (mount_point (node_at st o))]>
          (replicate (length initial) "any"%string).
Proof.
  intros Hget H.
  destruct (add_moved_replica_first _ _ _ _ _ _ Hget H)
    as (leader & initial & old & o & p & Hparts & Hold & Ho & Hp & Hf & _ & Hd).
  exists leader, initial, old, o. eexists.
  split; [done|]. split; [done|]. split; [done|].
  split; [rewrite Hd; apply dict_get_set_eq|].
  split; [intros k Hk; rewrite Hd; by apply dict_get_set_ne|].
  simpl. split; [done|]. split; [done|]. split; [done|].
  assert (Hrid : (replica_id (item_at st item) < length initial)%nat)
    by (by eapply lookup_lt_Some).
  apply find_new_position_cases in Hf
    as [_ [(Hin & _ & Hlook & Hk)|(Hnin & Hne & Hk & _)]].
  - rewrite (list_insert_id _ _ _ Hlook).
    split; [by rewrite length_insert|].
    split; [by apply list_lookup_insert_eq|].
    split; [done|]. split; [done|]. split; [done|]. done.
  - split; [by rewrite !length_insert|].
    split; [rewrite list_lookup_insert_ne by done; by apply list_lookup_insert_eq|].
    split.
    { eapply list_elem_of_lookup_2. apply list_lookup_insert_eq.
      by rewrite length_insert. }
    split; [done|]. split; [|done]. intros _. by exists p.
Qed.

(** X12: a partition with a single replica cannot be moved to another
    broker: with the replica list [[old]] and a planned owner on a
    different broker, the first moved item makes [gen_reassignment_file]
    raise [IndexError], whatever comes after it in the list. *)
Theorem single_replica_move_raises (st : State) (parts : gmap (string * Z) (Z * list Z))
    (rand : nat → nat) (item : item_ref) (rest : list item_ref) (leader old : Z)
    (o : node_ref) :
  parts !! (topic (item_at st item), id (item_at st item)) = Some (leader, [old]) →
  planned_owner (item_at st item) = Some o →
  broker_id (broker_at st (broker (node_at st o))) ≠ old →
  gen_reassignment_file st parts (item :: rest) rand = Raise IndexError.
Proof.
  intros Hparts Ho Hne. unfold gen_reassignment_file, build_assignments. simpl.
  assert (Hadd : add_moved_replica st parts rand (mkBuilder [] None 0) item
                 = Raise IndexError); [|by rewrite Hadd].
  unfold add_moved_replica. rewrite Hparts. simpl.
  unfold planned_broker_id. rewrite Ho.
  destruct (replica_id (item_at st item)) as [|n]; [|done]. simpl.
  unfold _find_new_position.
  rewrite bool_decide_eq_false_2.
  2:{ intros Hin. apply list_elem_of_singleton in Hin. done. }
  unfold list_count. rewrite filter_cons, decide_True by done. simpl. done.
Qed.

(** X13: the document holds only what the input names.  Every record is
    of the partition of a moved item that [partitions] knows; every
    broker id in its [replicas] is a current replica of the partition of
    some moved item or the broker of some moved item's planned owner;
    every entry of its [log_dirs] is ["any"] or the mount point of some
    moved item's planned owner without trailing slashes, and so never
    ends with a slash. *)
Theorem document_names_known (st : State) (parts : gmap (string * Z) (Z * list Z))
    (moved : list item_ref) (rand : nat → nat) (doc : Document) :
  gen_reassignment_file st parts moved rand = Ok doc →
  ∀ r, r ∈ partitions doc →
    known_partition st parts moved (json_topic r) (json_partition r)
    ∧ (∀ x, x ∈ json_replicas r → known_broker st parts moved x)
    ∧ (∀ dir, dir ∈ json_log_dirs r →
         known_log_dir st moved dir ∧ ends_with_slash dir = false).
Proof.
  unfold gen_reassignment_file. intros H r Hr.
  apply bind_Ok in H as (b & Hb & H). injection H as <-.
  apply build_assignments_known in Hb. unfold emit in Hr. simpl in Hr.
  apply list_elem_of_fmap in Hr as (pd & -> & Hpd).
  apply list_elem_of_filter in Hpd as [_ Hpd].
  apply list_elem_of_fmap in Hpd as ([k pd'] & -> & Hin). simpl.
  destruct (Hb _ _ Hin) as (Hr & Hd & Hp).
  split; [done|]. split; [done|]. intros dir Hdir. split; [by apply Hd|].
  eapply known_log_dir_no_slash. by apply Hd.
Qed.

(** X14: [gen_reassignment_file] raises nothing but [KeyError],
    [IndexError] and [AttributeError]: [KeyError] only when a moved
    item's partition is missing from [partitions], [AttributeError] only
    when a moved item has no planned owner.  The name [replicas] is
    bound whenever the second branch of the loop reads it, and
    [list.index] is only called on a list that holds the value. *)
Theorem gen_reassignment_file_raises_only (st : State)
    (parts : gmap (string * Z) (Z * list Z)) (moved : list item_ref)
    (rand : nat → nat) (e : exn) :
  gen_reassignment_file st parts moved rand = Raise e →
  (e = KeyError
   ∧ ∃ item, item ∈ moved
       ∧ parts !! (topic (item_at st item), id (item_at st item)) = None)
  ∨ e = IndexError
  ∨ (e = AttributeError
     ∧ ∃ item, item ∈ moved ∧ planned_owner (item_at st item) = None).
Proof. apply gen_reassignment_file_Raise. Qed.

(** X15: when every moved item has a planned owner and a partition in
    [partitions], all partitions have the same number [rf] of replicas,
    at least two, and every replica index is below [rf], then
    [gen_reassignment_file] returns a document, whatever the random
    draws; each of its records has [rf] replicas and [rf] log dirs. *)
Theorem gen_reassignment_file_returns (st : State)
    (parts : gmap (string * Z) (Z * list Z)) (moved : list item_ref)
    (rand : nat → nat) (rf : nat) :
  (2 ≤ rf)%nat →
  (∀ item, item ∈ moved →
     ∃ leader initial o,
       parts !! (topic (item_at st item), id (item_at st item)) = Some (leader, initial)
       ∧ length initial = rf
       ∧ (replica_id (item_at st item) < rf)%nat
       ∧ planned_owner (item_at st item) = Some o) →
  ∃ doc, gen_reassignment_file st parts moved rand = Ok doc
    ∧ ∀ r, r ∈ partitions doc →
        length (json_replicas r) = rf ∧ length (json_log_dirs r) = rf.
Proof. apply gen_reassignment_file_is_Ok. Qed.

(** ** From the plan to the document *)

Lemma plan_moved_have_owner `{FL : Float} st settings run item :
  plan st settings = Ok run → item ∈ all_moves run →
  item ∈ held_initial st ∧ ∃ o, planned_owner (item_at (final run) item) = Some o.
Proof.
  intros Hp Hin. destruct (plan_moves_spec _ _ _ Hp) as (_ & Hsub & Hiff).
  split; [by apply Hsub|]. apply Hiff in Hin; [|by apply Hsub].
  unfold has_moved in Hin.
  destruct (planned_owner (item_at (final run) item)) as [o|]; [by exists o|done].
Qed.

(** X16: the list [plan] returns can be handed to
    [gen_reassignment_file] with the planned state: no item of it lacks
    a planned owner, so [AttributeError] is not raised; and when
    [partitions] knows the partition of every item the nodes listed on
    entry, all with the same number of replicas, at least two, and every
    replica index below it, a document is returned. *)
Theorem plan_then_document `{FL : Float} (st : State) (settings : PlanSettings)
    (run : PlanRun) (parts : gmap (string * Z) (Z * list Z)) (rand : nat → nat) :
  plan st settings = Ok run →
  gen_reassignment_file (final run) parts (all_moves run) rand ≠ Raise AttributeError
  ∧ ∀ rf, (2 ≤ rf)%nat →
      (∀ item, item ∈ held_initial st →
         ∃ leader initial,
           parts !! (topic (item_at st item), id (item_at st item)) = Some (leader, initial)
           ∧ length initial = rf
           ∧ (replica_id (item_at st item) < rf)%nat) →
      ∃ doc, gen_reassignment_file (final run) parts (all_moves run) rand = Ok doc.
Proof.
  intros Hp. split.
  - intros Hr. apply gen_reassignment_file_Raise in Hr
      as [[? _]|[?|[_ (item & Hin & Hnone)]]]; [done..|].
    destruct (plan_moved_have_owner _ _ _ _ Hp Hin) as (_ & o & Ho). congruence.
  - intros rf Hrf Hparts.
    pose proof (plan_reaches_static _ _ _ (plan_final_reached _ _ _ Hp))
      as (_ & _ & Hitems).
    destruct (gen_reassignment_file_is_Ok (final run) parts (all_moves run) rand rf)
      as (doc & Hdoc & _); [done| |by exists doc].
    intros item Hin.
    destruct (plan_moved_have_owner _ _ _ _ Hp Hin) as (Hheld & o & Ho).
    destruct (Hparts item Hheld) as (leader & initial & Hl & Hlen & Hrid).
    destruct (Hitems item) as (_ & _ & Ht & Hi & Hr).
    exists leader, initial, o. rewrite Ht, Hi, Hr. done.
Qed.

(** * The replicas a disk is given *)

Lemma list_index_first (x : Z) (l : list Z) (i : nat) :
  list_index x l = Ok i → l !! i = Some x ∧ ∀ j, (j < i)%nat → l !! j ≠ Some x.
Proof.
  revert i. induction l as [|y l IH]; intros i; simpl; [done|].
  destruct (decide (y = x)) as [->|Hne].
  - intros [= <-]. split; [done|]. intros j Hj. lia.
  - intros H. apply bind_Ok in H as (i' & Hi' & [= <-]).
    destruct (IH i' Hi') as [Hl Hfirst]. split; [done|].
    intros [|j] Hj; simpl; [congruence|]. apply Hfirst. lia.
Qed.

Lemma list_index_Raise (x : Z) (l : list Z) (e : exn) :
  list_index x l = Raise e → e = ValueError ∧ x ∉ l.
Proof.
  induction l as [|y l IH]; simpl.
  - intros [= <-]. split; [done|]. apply not_elem_of_nil.
  - destruct (decide (y = x)) as [->|Hne]; [done|].
    destruct (list_index x l) as [i|e'] eqn:Hi; simpl; [done|].
    intros [= <-]. destruct IH as [-> Hnin]; [done|]. split; [done|].
    apply not_elem_of_cons. split; [congruence|done].
Qed.

Lemma fetch_replica_spec disk broker_id dirs replicas topic partition leader owning :
  (fetch_replica disk broker_id dirs replicas ((topic, partition), (leader, owning))
   = Ok replicas
   ∧ (dirs !! (topic +:+ "-" +:+ pretty partition)%string = None ∨ broker_id ∉ owning))
  ∨ ∃ usage replica_id,
      fetch_replica disk broker_id dirs replicas ((topic, partition), (leader, owning))
      = Ok (replicas ++ [PartitionReplica disk topic partition replica_id
                           (bool_decide (leader = broker_id)) usage])
      ∧ dirs !! (topic +:+ "-" +:+ pretty partition)%string = Some usage
      ∧ list_index broker_id owning = Ok replica_id.
Proof.
  unfold fetch_replica.
  destruct (dirs !! _) as [usage|] eqn:Hd; [|left; split; [done|by left]].
  destruct (list_index broker_id owning) as [replica_id|e] eqn:Hi.
  - right. by exists usage, replica_id.
  - apply list_index_Raise in Hi as [-> Hnin]. left. split; [done|by right].
Qed.

Lemma fetch_replicas_from disk broker_id dirs partitions replicas :
  ∃ items,
    for_each (fetch_replica disk broker_id dirs) partitions replicas = Ok (replicas ++ items)
    ∧ (fun it => (topic it, id it)) <$> items `sublist_of` partitions.*1
    ∧ (∀ it, it ∈ items → fetched disk broker_id dirs partitions it)
    ∧ (∀ t p leader owning usage,
         ((t, p), (leader, owning)) ∈ partitions →
         dirs !! (t +:+ "-" +:+ pretty p)%string = Some usage →
         broker_id ∈ owning →
         ∃ it, it ∈ items ∧ topic it = t ∧ id it = p ∧ size it = usage).
Proof.
  revert replicas.
  induction partitions as [|[[t p] [leader owning]] partitions IH]; intros replicas.
  - exists []. simpl. rewrite app_nil_r. split; [done|]. split; [done|].
    split; [by intros it ?%elem_of_nil|]. by intros t p l o u ?%elem_of_nil.
  - cbn [for_each].
    destruct (fetch_replica_spec disk broker_id dirs replicas t p leader owning)
      as [[-> Hskip]|(usage & rid & -> & Hd & Hi)]; simpl.
    + destruct (IH replicas) as (items & -> & Hsub & Hsound & Hcompl).
      exists items. split; [done|]. split; [by apply sublist_cons|].
      split.
      * intros it Hit. destruct (Hsound it Hit) as (l & o & Hin & Hrest).
        exists l, o. split; [by apply list_elem_of_further|done].
      * intros t' p' l o u Hin Hu Ho.
        apply elem_of_cons in Hin as [[= -> -> -> ->]|Hin]; [|by eapply Hcompl].
        destruct Hskip as [Hnone|Hnin]; [congruence|done].
    + destruct (IH (replicas ++ [PartitionReplica disk t p rid
                                   (bool_decide (leader = broker_id)) usage]))
        as (items & -> & Hsub & Hsound & Hcompl).
      exists (PartitionReplica disk t p rid (bool_decide (leader = broker_id)) usage
              :: items).
      split; [by rewrite <- app_assoc|]. split; [by apply sublist_skip|].
      split.
      * intros it Hit. apply elem_of_cons in Hit as [->|Hit].
        -- apply list_index_first in Hi as [Hl Hfirst].
           exists leader, owning. split; [apply list_elem_of_here|]. done.
        -- destruct (Hsound it Hit) as (l & o & Hin & Hrest).
           exists l, o. split; [by apply list_elem_of_further|done].
      * intros t' p' l o u Hin Hu Ho.
        apply elem_of_cons in Hin as [[= -> -> -> ->]|Hin].
        -- eexists. split; [apply list_elem_of_here|]. simpl.
           split; [done|]. split; [done|]. congruence.
        -- destruct (Hcompl t' p' l o u Hin Hu Ho) as (it & Hit & ?).
           exists it. split; [by apply list_elem_of_further|done].
Qed.

(** X19: the loop of [fetch_replicas] over the partitions never raises.
    It keeps the partitions in their order, at most one replica for each
    entry: for each replica built, the partition is an entry of
    [partitions], the size is that of the partition's directory, the
    disk is the initial owner, [replica_id] is the first index of the
    disk's broker in the partition's replica list, and [is_leader] tells
    whether the broker is the partition's leader.  Every entry whose
    directory is on the disk and whose replica list names the broker
    gives a replica.  With [partitions] keyed once per partition, the
    lookup [gen_reassignment_file] makes for a replica finds the entry it
    was built from, and no two replicas are of one partition. *)
Theorem fetch_replicas_spec (disk : node_ref) (broker_id : Z) (dirs : gmap string Z)
    (partitions : list ((string * Z) * (Z * list Z))) :
  ∃ items,
    fetch_replicas disk broker_id dirs partitions = Ok items
    ∧ (fun it => (topic it, id it)) <$> items `sublist_of` partitions.*1
    ∧ (∀ it, it ∈ items → fetched disk broker_id dirs partitions it)
    ∧ (∀ t p leader owning usage,
         ((t, p), (leader, owning)) ∈ partitions →
         dirs !! (t +:+ "-" +:+ pretty p)%string = Some usage →
         broker_id ∈ owning →
         ∃ it, it ∈ items ∧ topic it = t ∧ id it = p ∧ size it = usage)
    ∧ (NoDup partitions.*1 →
       NoDup ((fun it => (topic it, id it)) <$> items)
       ∧ ∀ it, it ∈ items →
           ∃ leader owning,
             (list_to_map partitions : gmap (string * Z) (Z * list Z))
               !! (topic it, id it) = Some (leader, owning)
             ∧ list_get owning (replica_id it) = Ok broker_id).
Proof.
  destruct (fetch_replicas_from disk broker_id dirs partitions [])
    as (items & Hrun & Hsub & Hsound & Hcompl).
  exists items. split; [exact Hrun|]. split; [done|]. split; [done|]. split; [done|].
  intros Hnd. split; [by eapply sublist_NoDup|].
  intros it Hit. destruct (Hsound it Hit) as (leader & owning & Hin & _ & Hl & _).
  exists leader, owning. split.
  - by apply elem_of_list_to_map_1.
  - unfold list_get. by rewrite Hl.
Qed.

(** * The verdict of [exec_reassign] *)

Lemma verify_loop_spec {E} (verify : nat → ssh_result E string) fuel k ff out :
  (ff ≤ k)%nat →
  (∀ j, (k - ff ≤ j < k)%nat → ∃ o, verify j = Returned o ∧ failed_only o) →
  verify_loop verify fuel k ff = Some (Returned out) →
  ∃ k', (k ≤ k' < k + fuel)%nat ∧ verify k' = Returned out
    ∧ contains "in progress" out = false
    ∧ (∀ j, (k ≤ j < k')%nat → ∃ o, verify j = Returned o ∧ ¬ finished o)
    ∧ (contains "failed" out = true →
       (4 ≤ k')%nat
       ∧ ∀ j, (k' - 4 ≤ j ≤ k')%nat → ∃ o, verify j = Returned o ∧ failed_only o).
Proof.
  revert k ff. induction fuel as [|fuel IH]; intros k ff Hff Hinv; simpl; [done|].
  destruct (verify k) as [stdout|e] eqn:Hk; [|done].
  destruct (contains "in progress" stdout) eqn:Hprog.
  - intros H. apply IH in H as (k' & Hk' & Hout & Hnp & Hbefore & Hfail).
    + exists k'. split; [lia|]. split; [done|]. split; [done|]. split; [|done].
      intros j Hj. destruct (decide (j = k)) as [->|Hne].
      * exists stdout. split; [done|]. intros [Hp _]. congruence.
      * apply Hbefore. lia.
    + lia.
    + intros j Hj. lia.
  - destruct (contains "failed" stdout) eqn:Hfailed.
    + destruct (bool_decide (5 ≤ S ff)%nat) eqn:Hfive.
      * apply bool_decide_eq_true in Hfive. intros [= <-].
        exists k. split; [lia|]. split; [done|]. split; [done|].
        split; [intros j Hj; lia|]. intros _. split; [lia|].
        intros j Hj. destruct (decide (j = k)) as [->|Hne].
        -- by exists stdout.
        -- apply Hinv. lia.
      * apply bool_decide_eq_false in Hfive. intros H.
        apply IH in H as (k' & Hk' & Hout & Hnp & Hbefore & Hfail).
        -- exists k'. split; [lia|]. split; [done|]. split; [done|]. split; [|done].
           intros j Hj. destruct (decide (j = k)) as [->|Hne].
           ++ exists stdout. split; [done|]. intros [_ Hf]. congruence.
           ++ apply Hbefore. lia.
        -- lia.
        -- intros j Hj. destruct (decide (j = k)) as [->|Hne].
           ++ by exists stdout.
           ++ apply Hinv. lia.
    + intros [= <-]. exists k. split; [lia|]. split; [done|]. split; [done|].
      split; [intros j Hj; lia|]. congruence.
Qed.

Lemma verify_loop_returns {E} (verify : nat → ssh_result E string) fuel k ff k' out :
  (∀ j, (k ≤ j < k')%nat → ∃ o, verify j = Returned o) →
  verify k' = Returned out → finished out →
  (k ≤ k' < k + fuel)%nat →
  ∃ out', verify_loop verify fuel k ff = Some (Returned out').
Proof.
  intros Hpolls Hk' [Hp Hf]. revert k ff Hpolls.
  induction fuel as [|fuel IH]; intros k ff Hpolls Hfuel; [lia|]. simpl.
  destruct (decide (k = k')) as [->|Hne].
  - rewrite Hk', Hp, Hf. by exists out.
  - destruct (Hpolls k) as [stdout ->]; [lia|].
    assert (Hnext : ∀ ff', ∃ out', verify_loop verify fuel (S k) ff' = Some (Returned out')).
    { intros ff'. apply IH; [|lia]. intros j Hj. apply Hpolls. lia. }
    destruct (contains "in progress" stdout); [apply Hnext|].
    destruct (contains "failed" stdout); [|by exists stdout].
    destruct (bool_decide (5 ≤ S ff)%nat); [by exists stdout|apply Hnext].
Qed.

Lemma verify_loop_in_progress {E} (verify : nat → ssh_result E string) fuel k k' out :
  (∀ j, (k ≤ j < k')%nat → ∃ o, verify j = Returned o ∧ contains "in progress" o = true) →
  verify k' = Returned out → finished out →
  (k ≤ k' < k + fuel)%nat →
  verify_loop verify fuel k 0 = Some (Returned out).
Proof.
  intros Hpolls Hk' [Hp Hf]. revert k Hpolls.
  induction fuel as [|fuel IH]; intros k Hpolls Hfuel; [lia|]. simpl.
  destruct (decide (k = k')) as [->|Hne].
  - by rewrite Hk', Hp, Hf.
  - destruct (Hpolls k) as (stdout & -> & ->); [lia|].
    apply IH; [|lia]. intros j Hj. apply Hpolls. lia.
Qed.

Lemma exec_reassign_no_partitions {E} (json_data : Document) (work_broker : Remote E)
    (wait : bool) (fuel : nat) :
  partitions json_data = [] →
  exec_reassign json_data work_broker wait fuel = Some (Returned (Some false)).
Proof. intros Hnil. unfold exec_reassign. by rewrite Hnil. Qed.

(** X20: what a value returned by [exec_reassign] tells.  [None]: the
    document had partitions and [wait] was off.  [True]: [wait] was on,
    and a poll of the host showed nothing in progress and nothing failed,
    after polls that all showed one or the other.  [False]: the document
    had no partition, or [wait] was on and five polls in a row showed a
    failure and nothing in progress. *)
Theorem exec_reassign_verdict {E} (json_data : Document) (work_broker : Remote E)
    (wait : bool) (fuel : nat) (v : option bool) :
  exec_reassign json_data work_broker wait fuel = Some (Returned v) →
  match v with
  | None => partitions json_data ≠ [] ∧ wait = false
  | Some true =>
      partitions json_data ≠ [] ∧ wait = true
      ∧ ∃ k out, ssh_verify work_broker k = Returned out ∧ finished out
          ∧ ∀ j, (j < k)%nat →
              ∃ o, ssh_verify work_broker j = Returned o ∧ ¬ finished o
  | Some false =>
      partitions json_data = []
      ∨ (wait = true
         ∧ ∃ k, (4 ≤ k)%nat
             ∧ ∀ j, (k - 4 ≤ j ≤ k)%nat →
                 ∃ o, ssh_verify work_broker j = Returned o ∧ failed_only o)
  end.
Proof.
  unfold exec_reassign.
  destruct (bool_decide (length (partitions json_data) < 1)%nat) eqn:Hlen.
  { apply bool_decide_eq_true in Hlen. intros [= <-]. left.
    destruct (partitions json_data); [done|simpl in Hlen; lia]. }
  apply bool_decide_eq_false in Hlen.
  assert (Hne : partitions json_data ≠ []).
  { intros Hnil. rewrite Hnil in Hlen. simpl in Hlen. lia. }
  destruct (ssh_put work_broker); [|done].
  destruct (ssh_execute work_broker); [|done].
  destruct wait; [|by intros [= <-]].
  destruct (verify_loop _ fuel 0 0) as [[out|e]|] eqn:Hloop; [|done..].
  apply verify_loop_spec in Hloop as (k & Hk & Hout & Hnp & Hbefore & Hfail);
    [|lia|intros j Hj; lia].
  destruct (contains "failed" out) eqn:Hf; intros [= <-].
  - right. split; [done|]. exists k. by apply Hfail.
  - split; [done|]. split; [done|]. exists k, out. split; [done|]. split; [done|].
    intros j Hj. apply Hbefore. lia.
Qed.

(** X21: with partitions in the document, [wait] on, and a host that
    takes the file and the command: if the [k]-th poll shows nothing in
    progress and nothing failed, and the polls before it all returned,
    [exec_reassign] returns [True] or [False] within [k + 1] polls; and
    when the polls before it all showed something in progress, it
    returns [True]. *)
Theorem exec_reassign_returns {E} (json_data : Document) (work_broker : Remote E)
    (fuel k : nat) (out : string) :
  partitions json_data ≠ [] →
  ssh_put work_broker = Returned () →
  ssh_execute work_broker = Returned () →
  ssh_verify work_broker k = Returned out →
  finished out →
  (k < fuel)%nat →
  ((∀ j, (j < k)%nat → ∃ o, ssh_verify work_broker j = Returned o) →
   ∃ v, exec_reassign json_data work_broker true fuel = Some (Returned (Some v)))
  ∧ ((∀ j, (j < k)%nat →
        ∃ o, ssh_verify work_broker j = Returned o ∧ contains "in progress" o = true) →
     exec_reassign json_data work_broker true fuel = Some (Returned (Some true))).
Proof.
  intros Hne Hput Hexec Hk Hfin Hfuel. unfold exec_reassign.
  rewrite bool_decide_eq_false_2.
  2:{ destruct (partitions json_data); [done|simpl; lia]. }
  rewrite Hput, Hexec. split.
  - intros Hpolls.
    destruct (verify_loop_returns (ssh_verify work_broker) fuel 0 0 k out)
      as [out' ->]; [|done|done|lia|].
    + intros j Hj. apply Hpolls. lia.
    + destruct (contains "failed" out'); by eexists.
  - intros Hpolls.
    rewrite (verify_loop_in_progress (ssh_verify work_broker) fuel 0 k out);
      [|intros j Hj; apply Hpolls; lia|done|done|lia].
    destruct Hfin as [_ ->]. done.
Qed.

(** X22: a plan without moves is not sent to the host: the document made
    from it has no partition, and [exec_reassign] returns [False] on it
    without a call on the host, whatever the host would do and whether
    or not it is told to wait. *)
Theorem plan_without_moves_not_executed `{FL : Float} {E : Type} (st : State)
    (settings : PlanSettings) (run : PlanRun) (parts : gmap (string * Z) (Z * list Z))
    (rand : nat → nat) (work_broker : Remote E) (wait : bool) (fuel : nat) :
  plan st settings = Ok run →
  all_moves run = [] →
  ∃ doc, gen_reassignment_file (final run) parts (all_moves run) rand = Ok doc
    ∧ partitions doc = []
    ∧ exec_reassign doc work_broker wait fuel = Some (Returned (Some false)).
Proof.
  intros _ ->. eexists. split; [reflexivity|]. split; [reflexivity|].
  by apply exec_reassign_no_partitions.
Qed.

(** * The candidates of the swap step *)

Lemma iter_small_nodes_app st large_node l1 l2 :
  (∀ m, m ∈ l1 → py_is_node large_node m = false) →
  iter_small_nodes st large_node (l1 ++ l2)
  = concat ((fun m => unmoved st (reverse (planned_items (node_at st m)))) <$> l1)
    ++ iter_small_nodes st large_node l2.
Proof.
  induction l1 as [|m l1 IH]; intros Hl1; simpl; [done|].
  rewrite Hl1 by apply list_elem_of_here. rewrite <- app_assoc. f_equal.
  apply IH. intros m' Hm'. by apply Hl1, list_elem_of_further.
Qed.

(** X23: called with a list of nodes and one of its nodes,
    [iter_small_items] yields the items not moved yet of the nodes that
    come after that node in the list, last node first, each node's items
    from its last to its first, and nothing of the node itself or of the
    nodes before it.  Called with an item in the place of the node, as
    the swap step does, it never meets the node: it yields the items not
    moved yet of every node of the list. *)
Theorem iter_small_items_spec (st : State) (settings : pyobj) :
  (∀ before n after, n ∉ after →
     iter_small_items st settings (PyNodeList (before ++ n :: after)) (PyNode n)
     = Ok (concat ((fun m => unmoved st (reverse (planned_items (node_at st m))))
                     <$> reverse after)))
  ∧ (∀ ns i,
       iter_small_items st settings (PyNodeList ns) (PyItem i)
       = Ok (concat ((fun m => unmoved st (reverse (planned_items (node_at st m))))
                       <$> reverse ns))).
Proof.
  split.
  - intros before n after Hn. unfold iter_small_items. f_equal.
    rewrite reverse_app, reverse_cons, <- app_assoc.
    rewrite iter_small_nodes_app.
    + simpl. rewrite bool_decide_eq_true_2 by done. by rewrite app_nil_r.
    + intros m Hm. simpl. apply bool_decide_eq_false_2. intros ->.
      rewrite elem_of_reverse in Hm. done.
  - intros ns i. unfold iter_small_items. f_equal.
    rewrite <- (app_nil_r (reverse ns)) at 1.
    rewrite iter_small_nodes_app by done. simpl. by rewrite app_nil_r.
Qed.

(** * Runs of the further properties on concrete placements *)

Lemma plan_keeps_owners_coherent_witness :
  NoDup (held_initial S1)
  ∧ ∃ run, plan S1 (settings_of 5 5 50 false) = Ok run
      ∧ coherent (final run) ∧ NoDup (held_planned (final run)).
Proof.
  assert (Hnd : NoDup (held_initial S1)).
  { apply (bool_decide_unpack _). by vm_compute. }
  split; [exact Hnd|].
  destruct (plan S1 (settings_of 5 5 50 false)) as [run|e] eqn:Hp;
    [|by vm_compute in Hp].
  exists run. split; [reflexivity|].
  exact (proj2 (plan_keeps_owners_coherent S1 (settings_of 5 5 50 false) Hnd) run Hp).
Defined.

Lemma plan_returns_the_moved_items_witness :
  ∃ run, plan S1 (settings_of 5 5 50 false) = Ok run
    ∧ NoDup (all_moves run)
    ∧ (∀ i, i ∈ all_moves run → i ∈ held_initial S1)
    ∧ (∀ i, i ∈ held_initial S1 →
         (i ∈ all_moves run ↔ has_moved (item_at (final run) i) = true)).
Proof.
  destruct (plan S1 (settings_of 5 5 50 false)) as [run|e] eqn:Hp;
    [|by vm_compute in Hp].
  exists run. split; [reflexivity|].
  exact (plan_returns_the_moved_items S1 (settings_of 5 5 50 false) run Hp).
Defined.

Lemma S1_sizes (i : item_ref) : 0 ≤ size (item_at S1 i).
Proof. do 3 (destruct i as [|i]; [simpl; lia|]). destruct i; simpl; lia. Qed.

Lemma S1_fits (n : node_ref) :
  n ∈ nodes S1 →
  sum_sizes S1 (initial_items (node_at S1 n)) ≤ capacity (node_at S1 n)
  ∧ capacity (node_at S1 n) ≠ 0.
Proof.
  intros Hn. simpl in Hn.
  repeat (apply elem_of_cons in Hn as [->|Hn]; [vm_compute; split; discriminate|]).
  by apply elem_of_nil in Hn.
Qed.

Lemma S1_disks (b : broker_ref) (d : node_ref) :
  d ∈ disks (broker_at S1 b) → d ∈ nodes S1.
Proof.
  intros Hd. destruct b as [|[|b]].
  - apply list_elem_of_singleton in Hd as ->. apply list_elem_of_here.
  - apply list_elem_of_singleton in Hd as ->.
    apply list_elem_of_further, list_elem_of_here.
  - exfalso. destruct b; by apply elem_of_nil in Hd.
Qed.

Lemma plan_move_mode_returns_witness :
  swap (settings_of 5 5 50 false) = false
  ∧ nodes S1 ≠ []
  ∧ (∀ i, 0 ≤ size (item_at S1 i))
  ∧ (∀ n, n ∈ nodes S1 →
       sum_sizes S1 (initial_items (node_at S1 n)) ≤ capacity (node_at S1 n)
       ∧ capacity (node_at S1 n) ≠ 0)
  ∧ (∀ b d, d ∈ disks (broker_at S1 b) → d ∈ nodes S1)
  ∧ ((∃ run, plan S1 (settings_of 5 5 50 false) = Ok run)
     ∨ plan S1 (settings_of 5 5 50 false) = Raise RuntimeError).
Proof.
  split; [reflexivity|]. split; [discriminate|]. split; [exact S1_sizes|].
  split; [exact S1_fits|]. split; [exact S1_disks|].
  apply (plan_move_mode_returns S1 (settings_of 5 5 50 false));
    [reflexivity|discriminate|exact S1_sizes|exact S1_fits|exact S1_disks].
Defined.

Lemma plan_shared_item_raises_witness :
  (0%nat) ∈ nodes shared_item ∧ (1%nat) ∈ nodes shared_item
  ∧ (0%nat) ∈ initial_items (node_at shared_item 0%nat)
  ∧ (0%nat) ∈ initial_items (node_at shared_item 1%nat)
  ∧ plan shared_item (settings_of 5 5 50 false) = Raise RuntimeError.
Proof.
  assert (H0 : (0%nat) ∈ nodes shared_item) by apply list_elem_of_here.
  assert (H1 : (1%nat) ∈ nodes shared_item)
    by apply list_elem_of_further, list_elem_of_here.
  assert (Hi0 : (0%nat) ∈ initial_items (node_at shared_item 0%nat))
    by apply list_elem_of_here.
  assert (Hi1 : (0%nat) ∈ initial_items (node_at shared_item 1%nat))
    by apply list_elem_of_here.
  split; [exact H0|]. split; [exact H1|]. split; [exact Hi0|]. split; [exact Hi1|].
  apply (plan_shared_item_raises shared_item (settings_of 5 5 50 false) 0%nat 1%nat 0%nat);
    [exact H0|exact H1|discriminate|exact Hi0|exact Hi1].
Defined.

Lemma resort_sorts_witness :
  ∃ st1, resort S1_started = Ok st1
    ∧ ∀ n, n ∈ nodes st1 →
        StronglySorted (fun i j => size (item_at st1 j) ≤ size (item_at st1 i))
          (planned_items (node_at st1 n))
        ∧ planned_used (node_at st1 n) = sum_sizes st1 (planned_items (node_at st1 n)).
Proof.
  destruct (resort S1_started) as [st1|e] eqn:Hr; [|by vm_compute in Hr].
  exists st1. split; [reflexivity|].
  exact (proj1 (resort_sorts S1_started st1 Hr)).
Defined.

Lemma Qc_flt_trans (a b c : Qc) : flt a b = true → flt b c = true → flt a c = true.
Proof.
  simpl. rewrite !bool_decide_eq_true. apply Qclt_trans.
Qed.

Lemma plan_lowers_variance_witness :
  ∃ st0 run,
    plan_init S1 = Ok st0
    ∧ plan S1 (settings_of 5 5 50 false) = Ok run
    ∧ all_moves run ≠ []
    ∧ ∃ v0 v, round_variance st0 = Ok v0 ∧ round_variance (final run) = Ok v
        ∧ flt v v0 = true.
Proof.
  destruct (plan_init S1) as [st0|e] eqn:Hinit; [|by vm_compute in Hinit].
  destruct (plan S1 (settings_of 5 5 50 false)) as [run|e] eqn:Hp;
    [|by vm_compute in Hp].
  assert (Hne : all_moves run ≠ []).
  { pose proof Hp as Hp'. vm_compute in Hp'. by injection Hp' as <-. }
  exists st0, run. split; [reflexivity|]. split; [reflexivity|]. split; [exact Hne|].
  exact (plan_lowers_variance S1 st0 (settings_of 5 5 50 false) run
           Qc_flt_trans Hinit Hp Hne).
Defined.

Lemma S1_brokers_consistent : brokers_consistent S1.
Proof.
  split; [|split].
  - intros b. do 2 (destruct b as [|b]; [apply NoDup_singleton|]).
    destruct b; apply NoDup_nil_2.
  - intros b d Hd.
    destruct b as [|[|b]].
    + apply list_elem_of_singleton in Hd as ->. split; [reflexivity|apply list_elem_of_here].
    + apply list_elem_of_singleton in Hd as ->.
      split; [reflexivity|apply list_elem_of_further, list_elem_of_here].
    + exfalso. destruct b; by apply elem_of_nil in Hd.
  - intros d Hd. simpl in Hd.
    repeat (apply elem_of_cons in Hd as [->|Hd]; [apply list_elem_of_here|]).
    by apply elem_of_nil in Hd.
Qed.

Lemma S1_hosted_initially (b : broker_ref) (t : string) (p : Z) :
  (length (hosted_initially S1 b t p) ≤ 1)%nat.
Proof.
  unfold hosted_initially, initial_partition_replicas.
  destruct b as [|[|b]]; [|simpl; lia|destruct b; simpl; lia].
  simpl. unfold is_replica_of. simpl.
  repeat (rewrite filter_cons; destruct (decide _)); rewrite filter_nil; simpl; try lia;
    repeat match goal with
           | H : _ && _ = true |- _ =>
               apply andb_true_iff in H as [_ H]; apply bool_decide_eq_true in H;
               simpl in H
           end; lia.
Qed.

Lemma plan_keeps_brokers_unique_witness :
  brokers_consistent S1
  ∧ (∀ b t p, (length (hosted_initially S1 b t p) ≤ 1)%nat)
  ∧ ∃ run, plan S1 (settings_of 5 5 50 false) = Ok run
      ∧ all_moves run = [0%nat]
      ∧ ∀ b t p, (length (hosted (final run) b t p) ≤ 1)%nat.
Proof.
  split; [exact S1_brokers_consistent|]. split; [exact S1_hosted_initially|].
  destruct (plan S1 (settings_of 5 5 50 false)) as [run|e] eqn:Hp;
    [|by vm_compute in Hp].
  exists run. split; [reflexivity|]. split.
  - pose proof Hp as Hp'. vm_compute in Hp'. injection Hp' as <-. reflexivity.
  - exact (proj2 (plan_keeps_brokers_unique S1 (settings_of 5 5 50 false)
                    S1_brokers_consistent S1_hosted_initially) run Hp).
Defined.

Lemma find_new_position_spec_witness :
  _find_new_position (fun _ => 0%nat) 0 [5; 2; 3] 5 0 1 = Ok (1%nat, 1%nat)
  ∧ (1 < length [5; 2; 3]%Z)%nat
  ∧ ((1 ∈ [5; 2; 3] ∧ list_index 1 [5; 2; 3] = Ok 1%nat
      ∧ [5; 2; 3] !! 1%nat = Some 1 ∧ 1%nat = 0%nat)
     ∨ ((1 ∉ [5; 2; 3]) ∧ 1%nat ≠ 0%nat ∧ 1%nat = 1%nat
        ∧ ((2 ≤ list_count 5%Z [5; 2; 3]%Z)%nat → [5; 2; 3] !! 1%nat = Some 5))).
Proof.
  split; [reflexivity|].
  apply (find_new_position_spec (fun _ => 0%nat) 0 [5; 2; 3] 5 0 1 1 1). reflexivity.
Defined.

Lemma first_move_of_partition_witness :
  ∃ b' pd,
    dict_get (id_name (item_at three_moves 0%nat)) (new_assignments (mkBuilder [] None 0))
    = None
    ∧ add_moved_replica three_moves three_moves_partitions (fun _ => 0%nat)
        (mkBuilder [] None 0) 0%nat = Ok b'
    ∧ dict_get (id_name (item_at three_moves 0%nat)) (new_assignments b') = Some pd
    ∧ pd_original_replicas pd = [1; 2; 3]
    ∧ length (pd_replicas pd) = 3%nat
    ∧ pd_replicas pd !! 0%nat = Some 5
    ∧ 1 ∈ pd_replicas pd.
Proof.
  destruct (add_moved_replica three_moves three_moves_partitions (fun _ => 0%nat)
              (mkBuilder [] None 0) 0%nat) as [b'|e] eqn:Hadd; [|by vm_compute in Hadd].
  destruct (first_move_of_partition three_moves three_moves_partitions (fun _ => 0%nat)
              (mkBuilder [] None 0) 0%nat b' eq_refl Hadd)
    as (leader & initial & old & o & pd & Hparts & Hold & Ho & Hpd & _ & _ & _ & Horig
        & Hlen & Hat & Hin & _).
  vm_compute in Hparts. injection Hparts as <- <-.
  vm_compute in Ho. injection Ho as <-.
  vm_compute in Hold. injection Hold as <-.
  exists b', pd. split; [reflexivity|]. split; [reflexivity|].
  split; [exact Hpd|]. split; [exact Horig|]. split; [exact Hlen|].
  split; [exact Hat|exact Hin].
Defined.

Lemma single_replica_move_raises_witness :
  single_replica_partitions
    !! (topic (item_at three_moves 0%nat), id (item_at three_moves 0%nat))
  = Some (1, [1])
  ∧ planned_owner (item_at three_moves 0%nat) = Some 0%nat
  ∧ broker_id (broker_at three_moves (broker (node_at three_moves 0%nat))) ≠ 1
  ∧ gen_reassignment_file three_moves single_replica_partitions [0%nat] (fun _ => 0%nat)
    = Raise IndexError.
Proof.
  split; [vm_compute; reflexivity|]. split; [reflexivity|]. split; [discriminate|].
  apply (single_replica_move_raises three_moves single_replica_partitions (fun _ => 0%nat)
           0%nat [] 1 1 0%nat); [vm_compute; reflexivity|reflexivity|discriminate].
Defined.

Lemma document_names_known_witness :
  ∃ doc,
    gen_reassignment_file three_moves three_moves_partitions [0; 1; 2]%nat
      (fun _ => 0%nat) = Ok doc
    ∧ partitions doc ≠ []
    ∧ ∀ r, r ∈ partitions doc →
        known_partition three_moves three_moves_partitions [0; 1; 2]%nat
          (json_topic r) (json_partition r)
        ∧ (∀ x, x ∈ json_replicas r →
             known_broker three_moves three_moves_partitions [0; 1; 2]%nat x)
        ∧ (∀ dir, dir ∈ json_log_dirs r →
             known_log_dir three_moves [0; 1; 2]%nat dir ∧ ends_with_slash dir = false).
Proof.
  destruct (gen_reassignment_file three_moves three_moves_partitions [0; 1; 2]%nat
              (fun _ => 0%nat)) as [doc|e] eqn:Hdoc; [|by vm_compute in Hdoc].
  exists doc. split; [reflexivity|]. split.
  - pose proof Hdoc as Hdoc'. vm_compute in Hdoc'. by injection Hdoc' as <-.
  - exact (document_names_known three_moves three_moves_partitions [0; 1; 2]%nat
             (fun _ => 0%nat) doc Hdoc).
Defined.

Lemma gen_reassignment_file_raises_only_witness :
  gen_reassignment_file three_moves ∅ [0%nat] (fun _ => 0%nat) = Raise KeyError
  ∧ ((KeyError = KeyError
      ∧ ∃ item, item ∈ [0%nat]
          ∧ (∅ : gmap (string * Z) (Z * list Z))
              !! (topic (item_at three_moves item), id (item_at three_moves item)) = None)
     ∨ KeyError = IndexError
     ∨ (KeyError = AttributeError
        ∧ ∃ item, item ∈ [0%nat] ∧ planned_owner (item_at three_moves item) = None)).
Proof.
  split; [vm_compute; reflexivity|].
  apply (gen_reassignment_file_raises_only three_moves ∅ [0%nat] (fun _ => 0%nat) KeyError).
  vm_compute. reflexivity.
Defined.

Lemma three_moves_known (item : item_ref) :
  item ∈ [0; 1; 2]%nat →
  ∃ leader initial o,
    three_moves_partitions
      !! (topic (item_at three_moves item), id (item_at three_moves item))
    = Some (leader, initial)
    ∧ length initial = 3%nat
    ∧ (replica_id (item_at three_moves item) < 3)%nat
    ∧ planned_owner (item_at three_moves item) = Some o.
Proof.
  intros Hin.
  repeat (apply elem_of_cons in Hin as [->|Hin];
          [eexists _, _, _; split; [vm_compute; reflexivity|];
           split; [reflexivity|]; split; [simpl; lia|reflexivity]|]).
  by apply elem_of_nil in Hin.
Qed.

Lemma gen_reassignment_file_returns_witness :
  (2 ≤ 3)%nat
  ∧ ∃ doc, gen_reassignment_file three_moves three_moves_partitions [0; 1; 2]%nat
             (fun _ => 0%nat) = Ok doc
      ∧ ∀ r, r ∈ partitions doc →
          length (json_replicas r) = 3%nat ∧ length (json_log_dirs r) = 3%nat.
Proof.
  assert (H23 : (2 ≤ 3)%nat) by lia.
  split; [exact H23|].
  exact (gen_reassignment_file_returns three_moves three_moves_partitions [0; 1; 2]%nat
           (fun _ => 0%nat) 3 H23 three_moves_known).
Defined.

Lemma S1_partitions_known (item : item_ref) :
  item ∈ held_initial S1 →
  ∃ leader initial,
    S1_partitions !! (topic (item_at S1 item), id (item_at S1 item)) = Some (leader, initial)
    ∧ length initial = 2%nat
    ∧ (replica_id (item_at S1 item) < 2)%nat.
Proof.
  intros Hin. vm_compute in Hin.
  repeat (apply elem_of_cons in Hin as [->|Hin];
          [eexists _, _; split; [vm_compute; reflexivity|];
           split; [reflexivity|simpl; lia]|]).
  by apply elem_of_nil in Hin.
Qed.

Lemma plan_then_document_witness :
  ∃ run doc,
    plan S1 (settings_of 5 5 50 false) = Ok run
    ∧ gen_reassignment_file (final run) S1_partitions (all_moves run) (fun _ => 0%nat)
      = Ok doc.
Proof.
  destruct (plan S1 (settings_of 5 5 50 false)) as [run|e] eqn:Hp;
    [|by vm_compute in Hp].
  assert (H22 : (2 ≤ 2)%nat) by lia.
  destruct (proj2 (plan_then_document S1 (settings_of 5 5 50 false) run S1_partitions
                     (fun _ => 0%nat) Hp) 2%nat H22 S1_partitions_known) as [doc Hdoc].
  exists run, doc. split; [reflexivity|exact Hdoc].
Defined.

Lemma balanced_at_rest : at_rest (settings_of 5 10 50 true) balanced.
Proof.
  intros i j n m Hne Hi Hj.
  destruct i as [|[|i]]; destruct j as [|[|j]]; simpl in Hi, Hj; try done;
    injection Hi as <-; injection Hj as <-; vm_compute; reflexivity.
Qed.

Lemma balanced_starts_in_range : starts_in_range balanced.
Proof.
  apply fits_starts_in_range. intros n Hn. simpl in Hn.
  repeat (apply elem_of_cons in Hn as [->|Hn]; [vm_compute; repeat split; discriminate|]).
  by apply elem_of_nil in Hn.
Qed.

Lemma plan_at_rest_witness :
  starts_in_range balanced
  ∧ at_rest (settings_of 5 10 50 true) balanced
  ∧ ∃ st0 run, plan_init balanced = Ok st0
      ∧ plan balanced (settings_of 5 10 50 true) = Ok run
      ∧ all_moves run = []
      ∧ ∀ n i, n ∈ nodes balanced → i ∈ initial_items (node_at balanced n) →
          planned_owner (item_at (final run) i) = None.
Proof.
  split; [exact balanced_starts_in_range|]. split; [exact balanced_at_rest|].
  destruct (plan_init balanced) as [st0|e] eqn:Hinit; [|by vm_compute in Hinit].
  assert (Hlen : (2 ≤ length (nodes balanced))%nat) by (simpl; lia).
  destruct (plan_at_rest balanced st0 (settings_of 5 10 50 true) Hinit Hlen
              balanced_starts_in_range balanced_at_rest) as (run & Hp & Hm & Hpo).
  exists st0, run. split; [reflexivity|]. split; [exact Hp|]. split; [exact Hm|exact Hpo].
Defined.

Lemma lone_disk_starts_in_range : starts_in_range lone_disk.
Proof.
  apply fits_starts_in_range. intros n Hn. simpl in Hn.
  repeat (apply elem_of_cons in Hn as [->|Hn]; [vm_compute; repeat split; discriminate|]).
  by apply elem_of_nil in Hn.
Qed.

Lemma plan_lone_node_move_witness :
  nodes lone_disk = [0%nat]
  ∧ starts_in_range lone_disk
  ∧ swap (settings_of 1 0 50 false) = false
  ∧ ∃ st0 run, plan_init lone_disk = Ok st0
      ∧ plan lone_disk (settings_of 1 0 50 false) = Ok run
      ∧ all_moves run = []
      ∧ ∀ i, i ∈ initial_items (node_at lone_disk 0%nat) →
          planned_owner (item_at (final run) i) = None.
Proof.
  split; [reflexivity|]. split; [exact lone_disk_starts_in_range|].
  split; [reflexivity|].
  destruct (plan_init lone_disk) as [st0|e] eqn:Hinit; [|by vm_compute in Hinit].
  destruct (plan_lone_node_move lone_disk st0 (settings_of 1 0 50 false) 0%nat Hinit
              eq_refl lone_disk_starts_in_range eq_refl) as (run & Hp & Hm & Hpo).
  exists st0, run. split; [reflexivity|]. split; [exact Hp|]. split; [exact Hm|exact Hpo].
Defined.

Lemma exec_reassign_verdict_witness :
  exec_reassign one_partition_doc patient_host true 3 = Some (Returned (Some true))
  ∧ partitions one_partition_doc ≠ []
  ∧ ∃ k out, ssh_verify patient_host k = Returned out ∧ finished out
      ∧ ∀ j, (j < k)%nat → ∃ o, ssh_verify patient_host j = Returned o ∧ ¬ finished o.
Proof.
  assert (Hrun : exec_reassign one_partition_doc patient_host true 3
                 = Some (Returned (Some true))) by (vm_compute; reflexivity).
  split; [exact Hrun|].
  destruct (exec_reassign_verdict one_partition_doc patient_host true 3 (Some true) Hrun)
    as (Hne & _ & Hpoll).
  split; [exact Hne|exact Hpoll].
Defined.

Lemma patient_host_polls (j : nat) :
  (j < 2)%nat →
  ∃ o, ssh_verify patient_host j = Returned o ∧ contains "in progress" o = true.
Proof.
  intros Hj. destruct j as [|[|j]]; [eexists; split; [reflexivity|vm_compute; reflexivity]..|].
  lia.
Qed.

Lemma exec_reassign_returns_witness :
  partitions one_partition_doc ≠ []
  ∧ finished "Reassignment of partition T-0 is complete"
  ∧ exec_reassign one_partition_doc patient_host true 3 = Some (Returned (Some true)).
Proof.
  assert (Hne : partitions one_partition_doc ≠ []) by discriminate.
  assert (Hfin : finished "Reassignment of partition T-0 is complete")
    by (split; vm_compute; reflexivity).
  assert (Hfuel : (2 < 3)%nat) by lia.
  split; [exact Hne|]. split; [exact Hfin|].
  exact (proj2 (exec_reassign_returns one_partition_doc patient_host 3 2
                  "Reassignment of partition T-0 is complete"
                  Hne eq_refl eq_refl eq_refl Hfin Hfuel) patient_host_polls).
Defined.

Lemma plan_without_moves_not_executed_witness :
  ∃ run doc,
    plan balanced (settings_of 5 10 50 false) = Ok run
    ∧ all_moves run = []
    ∧ gen_reassignment_file (final run) S1_partitions (all_moves run) (fun _ => 0%nat)
      = Ok doc
    ∧ partitions doc = []
    ∧ exec_reassign doc patient_host true 3 = Some (Returned (Some false)).
Proof.
  destruct (plan balanced (settings_of 5 10 50 false)) as [run|e] eqn:Hp;
    [|by vm_compute in Hp].
  assert (Hm : all_moves run = []).
  { pose proof Hp as Hp'. vm_compute in Hp'. injection Hp' as <-. reflexivity. }
  destruct (plan_without_moves_not_executed balanced (settings_of 5 10 50 false) run
              S1_partitions (fun _ => 0%nat) patient_host true 3 Hp Hm)
    as (doc & Hdoc & Hnil & Hexec).
  exists run, doc. split; [reflexivity|]. split; [exact Hm|]. split; [exact Hdoc|].
  split; [exact Hnil|exact Hexec].
Defined.
